(** * Storage layout of a Fortran scope: flang/lib/Semantics/compute-offsets.cpp

    A shallow embedding of [ComputeOffsetsHelper] and the properties of its
    offset assignment: alignment, EQUIVALENCE resolution, COMMON block
    layout and the scope walker. *)

From stdpp Require Import gmap strings list fin_maps sorting relations.
From Stdlib Require Import ZArith Lia.

Local Open Scope Z_scope.
Local Set Warnings "-register-all".

(** ** [std::size_t] arithmetic

    Offsets, sizes and alignments are [std::size_t]: unsigned 64-bit integers
    on the hosts flang runs on.  They are modelled by [Z] with the wrap-around
    written at every operation that can leave the range. *)

Definition size_t_bits : Z := 64.
Definition size_t_modulus : Z := 2 ^ size_t_bits.

(** Conversion to [std::size_t] (also what an [int64_t] operand undergoes). *)
Definition wrap (z : Z) : Z := z mod size_t_modulus.

Definition size_add (x y : Z) : Z := wrap (x + y).
Definition size_sub (x y : Z) : Z := wrap (x - y).
Definition size_mul (x y : Z) : Z := wrap (x * y).
Definition size_neg (x : Z) : Z := wrap (- x).

Definition is_size_t (z : Z) : Prop := 0 <= z < size_t_modulus.

(** Conversion of an [std::int64_t] to [int], 32 bits wide and signed: what
    the initialisation of or the assignment to an [int] does to a value
    that does not fit. *)
Definition to_int (z : Z) : Z := (z + 2 ^ 31) mod 2 ^ 32 - 2 ^ 31.

Definition is_int (z : Z) : Prop := - 2 ^ 31 <= z < 2 ^ 31.

(** [x] is a power of two (the alignments real targets have). *)
Definition power_of_two (x : Z) : Prop := exists k, 0 <= k /\ x = 2 ^ k.

(** Rounding up to a multiple, as arithmetic: the reference [Align] is
    compared with. *)
Definition roundUp (x m : Z) : Z := (x + m - 1) / m * m.

(** ** Align

    [std::size_t Align(std::size_t x, std::size_t alignment)], with
    [context_.targetCharacteristics().maxAlignment()] as first argument. *)
Definition Align (maxAlignment x alignment : Z) : Z :=
  let alignment := Z.min alignment maxAlignment in
  Z.land (size_sub (size_add x alignment) 1) (size_neg alignment).

(** ** Data model *)

(** Symbols are identified by their address; [SymbolAddressCompare] orders
    the two [std::map]s of the helper by it. *)
Abbreviation Symbol := nat (only parsing).
Abbreviation CommonBlock := nat (only parsing).

Record SizeAndAlignment := mkSizeAndAlignment {
  sa_size : Z;
  sa_alignment : Z
}.

(** [SizeAndAlignment()]. *)
Definition noSizeAndAlignment : SizeAndAlignment := mkSizeAndAlignment 0 0.

Record EquivalenceObject := mkEquivalenceObject {
  eo_symbol : Symbol;
  eo_source : string;
  eo_subscripts : list Z;
  eo_substringStart : option Z
}.

Abbreviation EquivalenceSet := (list EquivalenceObject) (only parsing).

Record SymbolAndOffset := mkSymbolAndOffset {
  so_symbol : Symbol;
  so_offset : Z;
  so_object : EquivalenceObject
}.

Inductive TypeCategory :=
  | Integer | Unsigned | Real | Complex | Character | Logical | Derived.

(** What [CompAlignment] and [isReal8OrLarger] read of a [DeclTypeSpec]: the
    numeric category and kind, or, for a derived type, the components that
    a [DirectComponentIterator] over it yields, in its order, each with the
    component symbol and its own type.  The iterator goes into the
    components of derived type that are neither pointers nor allocatable,
    so that their components are in the list too, after them. *)
Inductive DeclTypeSpec :=
  | NumericTypeSpec (category : TypeCategory) (kind : Z)
  | DerivedTypeSpec (directComponents : list (Symbol * DeclTypeSpec))
  | OtherTypeSpec.

(** [evaluate::characteristics::TypeAndShape] as far as it is measured. *)
Record TypeAndShape := mkTypeAndShape {
  MeasureSizeInBytes : option Z;
  MeasureElementSizeInBytes : option Z;
  GetAlignment : Z
}.

(** The part of a symbol that this pass only reads. *)
Record SymbolInfo := mkSymbolInfo {
  sym_name : string;
  hasObjectEntityDetails : bool;
  hasProcEntityDetails : bool;
  (** explicit bounds [(lbound, ubound)] of each dimension *)
  sym_shape : list (Z * Z);
  GetType : option DeclTypeSpec;
  (** [type->AsIntrinsic()] and [ToInt64] of its kind *)
  intrinsicKind : option (option Z);
  IsDescriptor : bool;
  Rank : Z;
  (** [GetDerivedTypeSpec(dyType)] with [CountLenParameters] *)
  derivedLenParameters : option Z;
  IsUnlimitedPolymorphic : bool;
  IsProcedurePointer : bool;
  IsProcedure : bool;
  Characterize : option TypeAndShape;
  GetUltimate : Symbol;
  (** [detailsIf<GenericDetails>()->specific()] *)
  genericSpecific : option (option Symbol);
  (** owner is a derived type whose symbol has the BIND(C) attribute *)
  ownerIsBindCDerivedType : bool
}.

(** The part of a symbol that this pass writes. *)
Record SymbolState := mkSymbolState {
  sym_size : Z;
  sym_offset : Z;
  sym_commonBlock : option CommonBlock
}.

Definition initialSymbolState : SymbolState := mkSymbolState 0 0 None.

Record CommonBlockInfo := mkCommonBlockInfo {
  cb_name : string;
  cb_objects : list Symbol
}.

Record CommonBlockState := mkCommonBlockState {
  cb_size : Z;
  cb_alignment : Z
}.

Record TargetCharacteristics := mkTargetCharacteristics {
  maxAlignment : Z;
  descriptorAlignment : Z;
  procedurePointerByteSize : Z;
  procedurePointerAlignment : Z
}.

(** [SemanticsContext] and the services reached through it. *)
Record SemanticsContext := mkSemanticsContext {
  targetCharacteristics : TargetCharacteristics;
  symbolInfo : Symbol -> SymbolInfo;
  commonBlockInfo : CommonBlock -> CommonBlockInfo;
  (** [defaultKinds().GetDefaultKind(TypeCategory::Character)], an [int] *)
  defaultCharacterKind : Z;
  (** [runtime::MaxDescriptorSizeInBytes(rank, addendum, lenParameters)] *)
  MaxDescriptorSizeInBytes : Z -> bool -> Z -> Z;
  (** [evaluate::OffsetToDesignator(...)->AsFortran()] *)
  OffsetToDesignator : Symbol -> Z -> option string;
  (** the default target triple names AIX *)
  targetIsAIX : bool
}.

Inductive Message :=
  | WarnCommonBlockPadding (site block : string) (padding : Z) (symbol : string)
  | ErrStorageAssociatedElsewhere (site symbol base block : string)
  | ErrAssociatedAcrossBlocks (site symbol block base baseBlock : string)
  | ErrBackwardExtend (site symbol block base : string)
  | ErrSameFirstStorageUnit (site x y attachedSite : string)
  | ErrSameFirstStorageUnitOffsets
      (site symbol : string) (baseOffset offset : Z) (attachedSite : string).

(** Everything the pass mutates outside the scope tree: the symbols, the
    COMMON block symbols, the messages of the context and the blocks handed
    to [MapCommonBlockAndCheckConflicts]. *)
Record Program := mkProgram {
  symbols : gmap nat SymbolState;
  commonBlocks : gmap nat CommonBlockState;
  messages : list Message;
  mappedCommonBlocks : list CommonBlock
}.

Inductive ScopeKind :=
  | Global | Module | MainProgram | Subprogram | BlockData
  | DerivedTypeScope | BlockConstruct | OtherConstruct.

Inductive Scope := mkScope {
  scope_kind : ScopeKind;
  scope_symbol : option Symbol;
  IsDerivedTypeWithKindParameter : bool;
  scope_size : Z;
  scope_alignment : option Z;
  (** [GetSymbols()], in their order *)
  scope_symbols : list Symbol;
  scope_equivalenceSets : list (list EquivalenceObject);
  (** [commonBlocks()], a map iterated in the order of the names *)
  scope_commonBlocks : list (string * CommonBlock);
  scope_children : list Scope
}.

(** The ways a call can fail to return: a failed [CHECK] or [get<>], an
    access the C++ leaves undefined, a recursion that never ends. *)
Inductive Failure := CheckFailed | UndefinedBehaviour | NoTermination.

Inductive Result (A : Type) :=
  | Done (a : A)
  | Abort (f : Failure).
Arguments Done {A} a.
Arguments Abort {A} f.

#[global] Instance Result_ret : MRet Result := @Done.
#[global] Instance Result_bind : MBind Result := fun A B k r =>
  match r with
  | Done a => k a
  | Abort f => Abort f
  end.

#[global] Instance SizeAndAlignment_eq_dec : EqDecision SizeAndAlignment.
Proof. solve_decision. Defined.
#[global] Instance EquivalenceObject_eq_dec : EqDecision EquivalenceObject.
Proof. solve_decision. Defined.
#[global] Instance SymbolAndOffset_eq_dec : EqDecision SymbolAndOffset.
Proof. solve_decision. Defined.
#[global] Instance SymbolState_eq_dec : EqDecision SymbolState.
Proof. solve_decision. Defined.
#[global] Instance Message_eq_dec : EqDecision Message.
Proof. solve_decision. Defined.
#[global] Instance ScopeKind_eq_dec : EqDecision ScopeKind.
Proof. solve_decision. Defined.
#[global] Instance Failure_eq_dec : EqDecision Failure.
Proof. solve_decision. Defined.

(** The members of [ComputeOffsetsHelper] besides the context. *)
Record Helper := mkHelper {
  offset_ : Z;
  alignment_ : Z;
  (** symbol -> symbol+offset that determines its location, from EQUIVALENCE *)
  dependents_ : gmap nat SymbolAndOffset;
  (** base symbol -> SizeAndAlignment for each distinct EQUIVALENCE block *)
  equivalenceBlock_ : gmap nat SizeAndAlignment
}.

(** [ComputeOffsetsHelper{context}]. *)
Definition newHelper : Helper := mkHelper 0 1 ∅ ∅.

Definition with_offset_ (v : Z) (h : Helper) : Helper :=
  mkHelper v (alignment_ h) (dependents_ h) (equivalenceBlock_ h).
Definition with_alignment_ (v : Z) (h : Helper) : Helper :=
  mkHelper (offset_ h) v (dependents_ h) (equivalenceBlock_ h).
Definition with_dependents_ (d : gmap nat SymbolAndOffset) (h : Helper) : Helper :=
  mkHelper (offset_ h) (alignment_ h) d (equivalenceBlock_ h).
Definition with_equivalenceBlock_ (e : gmap nat SizeAndAlignment) (h : Helper)
  : Helper :=
  mkHelper (offset_ h) (alignment_ h) (dependents_ h) e.

(** Iteration over a [std::map] keyed by symbol address: ascending keys. *)
Definition orderedKeys {A} (m : gmap nat A) : list nat :=
  merge_sort (≤)%nat (elements (dom m)).

(** [std::map::emplace]: nothing happens when the key is present. *)
Definition emplace {A} (k : nat) (v : A) (m : gmap nat A) : gmap nat A :=
  match m !! k with
  | Some _ => m
  | None => <[k := v]> m
  end.

(** *** Accessors of the mutable symbol fields *)

Definition symbolState (p : Program) (s : Symbol) : SymbolState :=
  default initialSymbolState (symbols p !! s).

Definition symbol_size (p : Program) (s : Symbol) : Z :=
  sym_size (symbolState p s).
Definition symbol_offset (p : Program) (s : Symbol) : Z :=
  sym_offset (symbolState p s).

Definition with_symbols (m : gmap nat SymbolState) (p : Program) : Program :=
  mkProgram m (commonBlocks p) (messages p) (mappedCommonBlocks p).

Definition set_size (s : Symbol) (v : Z) (p : Program) : Program :=
  let st := symbolState p s in
  with_symbols
    (<[s := mkSymbolState v (sym_offset st) (sym_commonBlock st)]> (symbols p)) p.

Definition set_offset (s : Symbol) (v : Z) (p : Program) : Program :=
  let st := symbolState p s in
  with_symbols
    (<[s := mkSymbolState (sym_size st) v (sym_commonBlock st)]> (symbols p)) p.

Definition set_commonBlock (s : Symbol) (c : CommonBlock) (p : Program) : Program :=
  let st := symbolState p s in
  with_symbols
    (<[s := mkSymbolState (sym_size st) (sym_offset st) (Some c)]> (symbols p)) p.

(** [context_.Say] and [context_.Warn]: the message joins the context's. *)
Definition Say (m : Message) (p : Program) : Program :=
  mkProgram (symbols p) (commonBlocks p) (messages p ++ [m])
    (mappedCommonBlocks p).

(** [commonBlock.set_size(size); details.set_alignment(alignment)]. *)
Definition set_commonBlockLayout (c : CommonBlock) (bytes alignment : Z)
    (p : Program) : Program :=
  mkProgram (symbols p)
    (<[c := mkCommonBlockState bytes alignment]> (commonBlocks p))
    (messages p) (mappedCommonBlocks p).

(** [context_.MapCommonBlockAndCheckConflicts(commonBlock)]: the block is
    handed over; what the context does with it is not part of this file. *)
Definition MapCommonBlockAndCheckConflicts (c : CommonBlock) (p : Program)
  : Program :=
  mkProgram (symbols p) (commonBlocks p) (messages p)
    (mappedCommonBlocks p ++ [c]).

(** A range-based [for] whose body can fail. *)
Fixpoint forEach {A S} (body : A -> S -> Result S) (range : list A) (s : S)
  : Result S :=
  match range with
  | [] => Done s
  | x :: rest => s ← body x s; forEach body rest s
  end.

Section Model.
Context (ctx : SemanticsContext).

(** Modelled from the spec: [FindCommonBlockContaining] of tools.cpp is not
    among the sources.  The common-block affiliation of a symbol is the
    [commonBlock] of its object-entity details, which [set_commonBlock]
    writes; a symbol without such details is in no block. *)
Definition FindCommonBlockContaining (p : Program) (s : Symbol)
  : option CommonBlock :=
  if hasObjectEntityDetails (symbolInfo ctx s)
  then sym_commonBlock (symbolState p s)
  else None.

(** [SizeAndAlignment GetSizeAndAlignment(const Symbol &, bool entire)].
    Every value lands in a [std::size_t]. *)
Definition GetSizeAndAlignment (symbol : Symbol) (entire : bool)
  : SizeAndAlignment :=
  let info := symbolInfo ctx symbol in
  let target := targetCharacteristics ctx in
  if IsDescriptor info then
    let lenParams := default 0 (derivedLenParameters info) in
    let needAddendum :=
      bool_decide (is_Some (derivedLenParameters info))
      || IsUnlimitedPolymorphic info in
    mkSizeAndAlignment
      (wrap (MaxDescriptorSizeInBytes ctx (Rank info) needAddendum lenParams))
      (wrap (descriptorAlignment target))
  else if IsProcedurePointer info then
    mkSizeAndAlignment (wrap (procedurePointerByteSize target))
      (wrap (procedurePointerAlignment target))
  else if IsProcedure info then noSizeAndAlignment
  else
    match Characterize info with
    | Some chars =>
        if entire then
          match MeasureSizeInBytes chars with
          | Some size => mkSizeAndAlignment (wrap size) (wrap (GetAlignment chars))
          | None => noSizeAndAlignment
          end
        else (* element size only *)
          match MeasureElementSizeInBytes chars with
          | Some size => mkSizeAndAlignment (wrap size) (wrap (GetAlignment chars))
          | None => noSizeAndAlignment
          end
    | None => noSizeAndAlignment
    end.

(** *** The AIX alignment rule *)

Definition isReal8OrLarger (type : DeclTypeSpec) : bool :=
  match type with
  | NumericTypeSpec Real kind | NumericTypeSpec Complex kind => bool_decide (4 < kind)
  | _ => false
  end.

(** [CompAlignment], on the direct components of the symbol's derived type.
    The loop state is [(max_align, contain_double)]; [None] is the early
    [return std::nullopt]. *)
Fixpoint CompAlignment_type (type : DeclTypeSpec) : option Z :=
  match type with
  | DerivedTypeSpec directs =>
      let fix loop (its : list (Symbol * DeclTypeSpec)) (max_align : Z)
              (contain_double : bool) {struct its} : option Z :=
        match its with
        | [] => if contain_double then Some max_align else None
        | (it, type) :: rest =>
            let s := GetSizeAndAlignment it true in
            if isReal8OrLarger type then loop rest (Z.max max_align 4) true
            else
              match type with
              | DerivedTypeSpec _ =>
                  match CompAlignment_type type with
                  | Some _ => loop rest (Z.max max_align (sa_alignment s)) contain_double
                  | None => None
                  end
              | _ => loop rest (Z.max max_align (sa_alignment s)) contain_double
              end
        end in
      loop directs 0 false
  | _ => None
  end.

Definition CompAlignment (sym : Symbol) : option Z :=
  match GetType (symbolInfo ctx sym) with
  | Some type => CompAlignment_type type
  | None => None
  end.

(** [HasSpecialAlign(sym, scope)]; of the scope only its first symbol is
    read. *)
Definition HasSpecialAlign (sym : Symbol) (scopeSymbols : list Symbol)
  : option Z :=
  match GetType (symbolInfo ctx sym) with
  | Some type =>
      if ownerIsBindCDerivedType (symbolInfo ctx sym)
         && bool_decide (Some sym ≠ head scopeSymbols)
      then
        if isReal8OrLarger type then Some 4
        else match type with
             | DerivedTypeSpec _ => CompAlignment sym
             | _ => None
             end
      else None
  | None => None
  end.

(** *** ComputeOffset *)

(** The body of the subscript loop of [ComputeOffset] at index [i], with the
    running [offset].  An index outside [subscripts] or the shape is an
    access the C++ leaves undefined. *)
Fixpoint linearize (shape : list (Z * Z)) (subscripts : list Z) (i : nat)
    (offset : Z) : Result Z :=
  match subscripts !! i, shape !! i with
  | Some subscript, Some (lbound, _) =>
      let offset := size_add offset (subscript - lbound) in
      match i with
      | O => Done offset
      | S i =>
          match shape !! i with
          | Some (lbound, ubound) =>
              linearize shape subscripts i (size_mul offset (ubound - lbound + 1))
          | None => Abort UndefinedBehaviour
          end
      end
  | _, _ => Abort UndefinedBehaviour
  end.

(** Offset of this equivalence object from the start of its variable.  The
    character kind is held in an [int]: the 64-bit kind of the intrinsic
    type is converted on the assignment. *)
Definition ComputeOffset (object : EquivalenceObject) : Result Z :=
  let info := symbolInfo ctx (eo_symbol object) in
  offset ←
    (match eo_subscripts object with
     | [] => Done 0
     | _ :: _ =>
         if hasObjectEntityDetails info
         then linearize (sym_shape info) (eo_subscripts object)
                (length (eo_subscripts object) - 1) 0
         else Done 0
     end);
  let result :=
    size_mul offset (sa_size (GetSizeAndAlignment (eo_symbol object) false)) in
  match eo_substringStart object with
  | Some substringStart =>
      let kind :=
        match GetType info, intrinsicKind info with
        | Some _, Some intrinsic =>
            to_int (default (defaultCharacterKind ctx) intrinsic)
        | _, _ => defaultCharacterKind ctx
        end in
      Done (size_add result (kind * (substringStart - 1)))
  | None => Done result
  end.

(** *** Resolve *)

(** [Resolve] recurses along the dependency chain.  [fuel] bounds the number
    of edges followed; its callers pass the number of entries of the map,
    which no chain without a cycle exceeds, so that [NoTermination] is the
    recursion that does not end. *)
Fixpoint Resolve_fuel (fuel : nat) (dependents : gmap nat SymbolAndOffset)
    (dep : SymbolAndOffset) : Result SymbolAndOffset :=
  match dependents !! so_symbol dep with
  | None => Done dep
  | Some next =>
      match fuel with
      | O => Abort NoTermination
      | S fuel =>
          result ← Resolve_fuel fuel dependents next;
          Done (mkSymbolAndOffset (so_symbol result)
                  (size_add (so_offset result) (so_offset dep))
                  (so_object dep))
      end
  end.

Definition Resolve (dependents : gmap nat SymbolAndOffset)
    (dep : SymbolAndOffset) : Result SymbolAndOffset :=
  Resolve_fuel (size dependents) dependents dep.

(** *** DoEquivalenceSet *)

(** One turn of the first loop after the object is resolved: the object
    joins [symbolOffsets] and becomes the representative when there is none
    or its offset is not below the representative's. *)
Definition noteResolved (acc : list SymbolAndOffset * option nat)
    (resolved : SymbolAndOffset) : list SymbolAndOffset * option nat :=
  let '(symbolOffsets, representative) := acc in
  let symbolOffsets := symbolOffsets ++ [resolved] in
  let newer :=
    match representative with
    | None => true
    | Some r =>
        match symbolOffsets !! r with
        | Some current => bool_decide (so_offset current <= so_offset resolved)
        | None => false
        end
    end in
  (symbolOffsets,
   if newer then Some (length symbolOffsets - 1)%nat else representative).

(** The first loop: every object is given its offset and resolved against
    the dependents known when the set is entered. *)
Fixpoint resolveObjects (dependents : gmap nat SymbolAndOffset)
    (set : list EquivalenceObject)
    (acc : list SymbolAndOffset * option nat)
  : Result (list SymbolAndOffset * option nat) :=
  match set with
  | [] => Done acc
  | object :: rest =>
      offset ← ComputeOffset object;
      resolved ← Resolve dependents
                   (mkSymbolAndOffset (eo_symbol object) offset object);
      resolveObjects dependents rest (noteResolved acc resolved)
  end.

(** The two messages for one symbol at two offsets. *)
Definition conflictMessage (base x : SymbolAndOffset) : Message :=
  match OffsetToDesignator ctx (so_symbol x) (so_offset base),
        OffsetToDesignator ctx (so_symbol x) (so_offset x) with
  | Some dx, Some dy =>
      ErrSameFirstStorageUnit (eo_source (so_object base)) dx dy
        (eo_source (so_object x))
  | _, _ => (* error recovery *)
      ErrSameFirstStorageUnitOffsets (eo_source (so_object base))
        (sym_name (symbolInfo ctx (so_symbol x))) (so_offset base) (so_offset x)
        (eo_source (so_object x))
  end.

(** One turn of the second loop. *)
Definition recordObject (base : SymbolAndOffset)
    (st : gmap nat SymbolAndOffset * list Message) (x : SymbolAndOffset)
  : gmap nat SymbolAndOffset * list Message :=
  let '(dependents, said) := st in
  if decide (so_symbol x = so_symbol base) then
    if decide (so_offset x = so_offset base) then st
    else (dependents, said ++ [conflictMessage base x])
  else
    (emplace (so_symbol x)
       (mkSymbolAndOffset (so_symbol base)
          (size_sub (so_offset base) (so_offset x)) (so_object x))
       dependents,
     said).

Definition DoEquivalenceSet (set : list EquivalenceObject)
    (h : Helper) (p : Program) : Result (Helper * Program) :=
  '(symbolOffsets, representative) ← resolveObjects (dependents_ h) set ([], None);
  match representative ≫= (fun r => symbolOffsets !! r) with
  | None => Abort CheckFailed
  | Some base =>
      let '(dependents, said) :=
        foldl (recordObject base) (dependents_ h, []) symbolOffsets in
      Done (with_dependents_ dependents h,
            mkProgram (symbols p) (commonBlocks p) (messages p ++ said)
              (mappedCommonBlocks p))
  end.
(** *** DoSymbol and DoEquivalenceBlockBase *)

(** Returns amount of padding that was needed for alignment. *)
Definition DoSymbol (symbol : Symbol) (newAlign : option Z)
    (h : Helper) (p : Program) : Z * Helper * Program :=
  let info := symbolInfo ctx symbol in
  if negb (hasObjectEntityDetails info) && negb (hasProcEntityDetails info)
  then (0, h, p)
  else
    let s := GetSizeAndAlignment symbol true in
    if decide (sa_size s = 0) then (0, h, p)
    else
      let previousOffset := offset_ h in
      let alignVal := default (sa_alignment s) newAlign in
      let aligned :=
        Align (maxAlignment (targetCharacteristics ctx)) (offset_ h) alignVal in
      let padding := size_sub aligned previousOffset in
      let p := set_offset symbol aligned (set_size symbol (sa_size s) p) in
      let h :=
        with_alignment_ (Z.max (alignment_ h) alignVal)
          (with_offset_ (size_add aligned (sa_size s)) h) in
      (padding, h, p).

Definition DoEquivalenceBlockBase (p : Program) (symbol : Symbol)
    (blockInfo : SizeAndAlignment) : SizeAndAlignment :=
  if decide (sa_size blockInfo < symbol_size p symbol)
  then mkSizeAndAlignment (symbol_size p symbol) (sa_alignment blockInfo)
  else blockInfo.

(** *** DoCommonBlock *)

(** The locals of [DoCommonBlock] that live across its loop. *)
Record CommonBlockLoop := mkCommonBlockLoop {
  cl_helper : Helper;
  cl_program : Program;
  minSize : Z;
  minAlignment : Z;
  previous : gset nat
}.

(** The last statement of the loop body: the full extent of the EQUIVALENCE
    block found at [eqIter] goes into the size of the COMMON block. *)
Definition foldEquivalenceBlock (eqIter : option Symbol) (h : Helper)
    (p : Program) (minSize minAlignment : Z) : Z * Z :=
  match eqIter ≫= (fun key => (key,.) <$> equivalenceBlock_ h !! key) with
  | Some (key, blockInfo) =>
      (Z.max minSize
         (Z.max (offset_ h) (size_add (symbol_offset p key) (sa_size blockInfo))),
       Z.max minAlignment (sa_alignment blockInfo))
  | None => (minSize, minAlignment)
  end.

(** The body of the loop over [details.objects()]. *)
Definition DoCommonBlock_object (commonBlock : CommonBlock)
    (st : CommonBlockLoop) (symbol : Symbol) : Result CommonBlockLoop :=
  let block := commonBlockInfo ctx commonBlock in
  let name := sym_name (symbolInfo ctx symbol) in
  let errorSite := if decide (cb_name block = EmptyString) then name
                   else cb_name block in
  let '(padding, h, p) :=
    DoSymbol (GetUltimate (symbolInfo ctx symbol)) None
      (cl_helper st) (cl_program st) in
  let p :=
    if decide (padding = 0) then p
    else Say (WarnCommonBlockPadding errorSite (cb_name block) padding name) p in
  let previous := previous st ∪ {[symbol]} in
  '(eqIter, h, p, previous) ←
    match dependents_ h !! symbol with
    | None =>
        match equivalenceBlock_ h !! symbol with
        | Some blockInfo =>
            Done (Some symbol,
                  with_equivalenceBlock_
                    (<[symbol := DoEquivalenceBlockBase p symbol blockInfo]>
                       (equivalenceBlock_ h)) h,
                  p, previous)
        | None => Done (None, h, p, previous)
        end
    | Some dep =>
        let base := so_symbol dep in
        let baseName := sym_name (symbolInfo ctx base) in
        match FindCommonBlockContaining p base with
        | Some baseBlock =>
            if decide (baseBlock = commonBlock) then
              if decide (base ∉ previous
                         ∨ symbol_offset p base
                           ≠ size_sub (symbol_offset p symbol) (so_offset dep))
              then Done (None, h,
                         Say (ErrStorageAssociatedElsewhere errorSite name
                                baseName (cb_name block)) p,
                         previous)
              else Done (None, h, p, previous)
            else (* F'2023 8.10.3 p1 *)
              Done (None, h,
                    Say (ErrAssociatedAcrossBlocks errorSite name
                           (cb_name block) baseName
                           (cb_name (commonBlockInfo ctx baseBlock))) p,
                    previous)
        | None =>
            if decide (symbol_offset p symbol < so_offset dep) then (* 8.10.3(3) *)
              Done (None, h,
                    Say (ErrBackwardExtend errorSite name (cb_name block)
                           baseName) p,
                    previous)
            else if hasObjectEntityDetails (symbolInfo ctx base) then
              Done (match equivalenceBlock_ h !! base with
                    | Some _ => Some base
                    | None => None
                    end,
                    h,
                    set_offset base
                      (size_sub (symbol_offset p symbol) (so_offset dep))
                      (set_commonBlock base commonBlock p),
                    previous ∪ {[base]})
            else Abort CheckFailed
        end
    end;
  let '(minSize, minAlignment) :=
    foldEquivalenceBlock eqIter h p (minSize st) (minAlignment st) in
  Done (mkCommonBlockLoop h p minSize minAlignment previous).

Fixpoint DoCommonBlock_objects (commonBlock : CommonBlock)
    (objects : list Symbol) (st : CommonBlockLoop) : Result CommonBlockLoop :=
  match objects with
  | [] => Done st
  | object :: rest =>
      st ← DoCommonBlock_object commonBlock st object;
      DoCommonBlock_objects commonBlock rest st
  end.

Definition DoCommonBlock (commonBlock : CommonBlock) (h : Helper) (p : Program)
  : Result (Helper * Program) :=
  let h := with_alignment_ 0 (with_offset_ 0 h) in
  st ← DoCommonBlock_objects commonBlock
         (cb_objects (commonBlockInfo ctx commonBlock))
         (mkCommonBlockLoop h p 0 0 ∅);
  let h := cl_helper st in
  let p :=
    set_commonBlockLayout commonBlock
      (Z.max (minSize st) (offset_ h))
      (Z.max (minAlignment st) (alignment_ h)) (cl_program st) in
  Done (h, MapCommonBlockAndCheckConflicts commonBlock p).
(** *** Compute *)

(** The loop of [Compute] over the equivalence sets. *)
Definition DoEquivalenceSets (sets : list (list EquivalenceObject))
    (st : Helper * Program) : Result (Helper * Program) :=
  forEach (fun set '(h, p) => DoEquivalenceSet set h p) sets st.

(** Body of the loop that resolves [dependents_] and builds
    [equivalenceBlock_]. *)
Definition resolveDependent (symbol : Symbol) (st : Helper * Program)
  : Result (Helper * Program) :=
  let '(h, p) := st in
  match dependents_ h !! symbol with
  | None => Done st
  | Some dep =>
      dep ← Resolve (dependents_ h) dep;
      let h := with_dependents_ (<[symbol := dep]> (dependents_ h)) h in
      if decide (symbol_size p symbol = 0) then
        let symInfo := GetSizeAndAlignment symbol true in
        let p := set_size symbol (sa_size symInfo) p in
        let base := so_symbol dep in
        let minBlockSize := size_add (so_offset dep) (sa_size symInfo) in
        let blockInfo :=
          match equivalenceBlock_ h !! base with
          | None => mkSizeAndAlignment minBlockSize (sa_alignment symInfo)
          | Some blockInfo =>
              mkSizeAndAlignment (Z.max (sa_size blockInfo) minBlockSize)
                (Z.max (sa_alignment blockInfo) (sa_alignment symInfo))
          end in
        Done (with_equivalenceBlock_
                (<[base := blockInfo]> (equivalenceBlock_ h)) h, p)
      else Abort CheckFailed
  end.

(** Body of the loop that assigns offsets for non-COMMON EQUIVALENCE
    blocks. *)
Definition placeEquivalenceBlock (symbol : Symbol) (st : Helper * Program)
  : Helper * Program :=
  let '(h, p) := st in
  match equivalenceBlock_ h !! symbol, FindCommonBlockContaining p symbol with
  | Some blockInfo, None =>
      let '(_, h, p) := DoSymbol symbol None h p in
      let blockInfo := DoEquivalenceBlockBase p symbol blockInfo in
      let h :=
        with_equivalenceBlock_ (<[symbol := blockInfo]> (equivalenceBlock_ h)) h in
      (with_offset_
         (Z.max (offset_ h)
            (size_add (symbol_offset p symbol) (sa_size blockInfo))) h, p)
  | _, _ => st
  end.

(** Body of the loop over the remaining non-COMMON symbols. *)
Definition placeSymbol (scopeSymbols : list Symbol) (symbol : Symbol)
    (st : Helper * Program) : Helper * Program :=
  let '(h, p) := st in
  match FindCommonBlockContaining p symbol,
        dependents_ h !! symbol, equivalenceBlock_ h !! symbol with
  | None, None, None =>
      (* Handle special alignment requirement for AIX *)
      let newAlign :=
        if targetIsAIX ctx then HasSpecialAlign symbol scopeSymbols else None in
      let '(_, h, p) := DoSymbol symbol newAlign h p in
      match genericSpecific (symbolInfo ctx symbol) with
      | Some (Some specific) =>
          match FindCommonBlockContaining p specific with
          | None => (* might be a shadowed procedure pointer *)
              let '(_, h, p) := DoSymbol specific None h p in (h, p)
          | Some _ => (h, p)
          end
      | _ => (h, p)
      end
  | _, _, _ => st
  end.

(** Body of the last loop: the offsets of the dependents. *)
Definition commitDependent (symbol : Symbol) (st : Helper * Program)
  : Result (Helper * Program) :=
  let '(h, p) := st in
  match dependents_ h !! symbol with
  | None => Done st
  | Some dep =>
      let p :=
        set_offset symbol
          (size_add (symbol_offset p (so_symbol dep)) (so_offset dep)) p in
      match FindCommonBlockContaining p (so_symbol dep) with
      | Some block =>
          if hasObjectEntityDetails (symbolInfo ctx symbol)
          then Done (h, set_commonBlock symbol block p)
          else Abort CheckFailed
      | None => Done (h, p)
      end
  end.

Definition with_layout (bytes : Z) (alignment : Z) (scope : Scope) : Scope :=
  mkScope (scope_kind scope) (scope_symbol scope)
    (IsDerivedTypeWithKindParameter scope) bytes (Some alignment)
    (scope_symbols scope) (scope_equivalenceSets scope)
    (scope_commonBlocks scope) (scope_children scope).

Definition with_children (children : list Scope) (scope : Scope) : Scope :=
  mkScope (scope_kind scope) (scope_symbol scope)
    (IsDerivedTypeWithKindParameter scope) (scope_size scope)
    (scope_alignment scope) (scope_symbols scope) (scope_equivalenceSets scope)
    (scope_commonBlocks scope) children.

(** [Compute] from [scope.SetAlignment(0)] on, with the helper of this call. *)
Definition layoutScope (scope : Scope) (p : Program) : Result (Scope * Program) :=
  let st := (newHelper, p) in
  (* Build dependents_ from equivalences: symbol -> symbol+offset *)
  st ← DoEquivalenceSets (scope_equivalenceSets scope) st;
  (* Compute a base symbol and overall block size for each
     disjoint EQUIVALENCE storage sequence. *)
  st ← forEach resolveDependent (orderedKeys (dependents_ st.1)) st;
  (* Assign offsets for non-COMMON EQUIVALENCE blocks *)
  let st := foldl (fun st symbol => placeEquivalenceBlock symbol st) st
              (orderedKeys (equivalenceBlock_ st.1)) in
  (* Process remaining non-COMMON symbols *)
  let '(h, p) := foldl (fun st symbol => placeSymbol (scope_symbols scope) symbol st)
                   st (scope_symbols scope) in
  (* Ensure that the size is a multiple of the alignment *)
  let h :=
    with_offset_
      (Align (maxAlignment (targetCharacteristics ctx)) (offset_ h) (alignment_ h))
      h in
  let scope := with_layout (offset_ h) (alignment_ h) scope in
  (* Assign offsets in COMMON blocks, unless this scope is a BLOCK construct *)
  st ← (if decide (scope_kind scope = BlockConstruct) then Done (h, p)
        else forEach (fun pair '(h, p) => DoCommonBlock pair.2 h p)
               (scope_commonBlocks scope) (h, p));
  '(_, p) ← forEach commitDependent (orderedKeys (dependents_ st.1)) st;
  Done (scope, p).

(** [void Compute(Scope &)]; each child is computed by a helper of its
    own ([ComputeOffsets]). *)
Fixpoint Compute (scope : Scope) (p : Program) : Result (Scope * Program) :=
  match scope with
  | mkScope _ _ _ _ _ _ _ _ children =>
      '(children, p) ←
        (fix each (children : list Scope) (p : Program)
           : Result (list Scope * Program) :=
           match children with
           | [] => Done ([], p)
           | child :: rest =>
               '(child, p) ← Compute child p;
               '(rest, p) ← each rest p;
               Done (child :: rest, p)
           end) children p;
      let scope := with_children children scope in
      if bool_decide (is_Some (scope_symbol scope))
         && IsDerivedTypeWithKindParameter scope
      then Done (scope, p) (* only process instantiations *)
      else if bool_decide (is_Some (scope_alignment scope))
      then Done (scope, p) (* prevent infinite recursion in error cases *)
      else layoutScope scope p
  end.

(** [void ComputeOffsets(SemanticsContext &, Scope &)]. *)
Definition ComputeOffsets (scope : Scope) (p : Program)
  : Result (Scope * Program) :=
  Compute scope p.
End Model.

(** ** Reference definitions

    The notions the properties are stated with: what a result is in exact
    arithmetic, and the conditions on dependency maps, equivalence sets and
    scope trees under which the code is examined. *)

(** The flat element index of an array element: each subscript counts from
    the lower bound of its dimension, and a dimension weighs the product of
    the extents ([ubound - lbound + 1]) of the dimensions below it. *)
Fixpoint flatIndex (shape : list (Z * Z)) (subscripts : list Z) : Z :=
  match subscripts, shape with
  | subscript :: subscripts, (lbound, ubound) :: shape =>
      (subscript - lbound) + (ubound - lbound + 1) * flatIndex shape subscripts
  | _, _ => 0
  end.

(** Product of the extents of the dimensions below [i]. *)
Fixpoint extentProduct (shape : list (Z * Z)) (i : nat) : Z :=
  match i, shape with
  | S i, (lbound, ubound) :: shape => (ubound - lbound + 1) * extentProduct shape i
  | _, _ => 1
  end.

(** [ChainLength dependents s n]: following the edges from [s] ends, after
    [n] edges, at a symbol that has none. *)
Inductive ChainLength (dependents : gmap nat SymbolAndOffset)
  : Symbol -> nat -> Prop :=
  | ChainLength_base s :
      dependents !! s = None -> ChainLength dependents s 0
  | ChainLength_edge s dep n :
      dependents !! s = Some dep ->
      ChainLength dependents (so_symbol dep) n ->
      ChainLength dependents s (S n).

(** No chain of edges runs forever. *)
Definition Acyclic (dependents : gmap nat SymbolAndOffset) : Prop :=
  forall s, exists n, ChainLength dependents s n.

(** [r] is the place in [rs] of the greatest offset, the last one if several
    have it. *)
Definition lastMaximal (rs : list SymbolAndOffset) (r : nat)
    (base : SymbolAndOffset) : Prop :=
  rs !! r = Some base
  /\ (forall i x, rs !! i = Some x -> so_offset x <= so_offset base)
  /\ (forall i x, rs !! i = Some x -> (r < i)%nat ->
        so_offset x < so_offset base).

(** The edge [recordObject] stores for [x] under the representative [base]. *)
Definition edgeTo (base x : SymbolAndOffset) : SymbolAndOffset :=
  mkSymbolAndOffset (so_symbol base) (so_offset base - so_offset x) (so_object x).

(** [x] names the representative's symbol at another offset. *)
Definition conflicting (base x : SymbolAndOffset) : Prop :=
  so_symbol x = so_symbol base /\ so_offset x ≠ so_offset base.

#[global] Instance conflicting_dec base x : Decision (conflicting base x).
Proof. unfold conflicting. apply _. Defined.

(** The edge of the second loop, with the subtraction of the code. *)
Definition recordedEdge (base x : SymbolAndOffset) : SymbolAndOffset :=
  mkSymbolAndOffset (so_symbol base)
    (size_sub (so_offset base) (so_offset x)) (so_object x).

(** The state of the first loop of [DoEquivalenceSet]: no representative
    before the first object, the last maximal one afterwards. *)
Definition representativeOf (acc : list SymbolAndOffset * option nat) : Prop :=
  match acc.2 with
  | None => acc.1 = []
  | Some r => exists base, lastMaximal acc.1 r base
  end.

(** [k] depends directly on a symbol that depends on nothing. *)
Definition Direct (dependents : gmap nat SymbolAndOffset) (k : Symbol) : Prop :=
  forall dep, dependents !! k = Some dep -> dependents !! so_symbol dep = None.

(** The two tests at which [Compute] returns before laying the scope out. *)
Definition returnsEarly (scope : Scope) : bool :=
  bool_decide (is_Some (scope_symbol scope))
  && IsDerivedTypeWithKindParameter scope
  || bool_decide (is_Some (scope_alignment scope)).

(** Every scope of the tree is one at which [Compute] returns early. *)
Inductive Processed : Scope -> Prop :=
  | Processed_scope scope :
      returnsEarly scope = true ->
      Forall Processed (scope_children scope) ->
      Processed scope.

(** The symbols the objects of the sets name, with repetitions. *)
Definition namedSymbols (sets : list (list EquivalenceObject)) : list Symbol :=
  concat ((fun set : list EquivalenceObject => eo_symbol <$> set) <$> sets).

(** The scope with other equivalence sets. *)
Definition with_equivalenceSets (sets : list (list EquivalenceObject))
    (scope : Scope) : Scope :=
  mkScope (scope_kind scope) (scope_symbol scope)
    (IsDerivedTypeWithKindParameter scope) (scope_size scope)
    (scope_alignment scope) (scope_symbols scope) sets
    (scope_commonBlocks scope) (scope_children scope).

Section Reference.
Context (ctx : SemanticsContext).

(** Byte width of the character kind of a symbol: the kind of its intrinsic
    type, the default character kind when the type cannot be inspected. *)
Definition characterKind (symbol : Symbol) : Z :=
  let info := symbolInfo ctx symbol in
  match GetType info, intrinsicKind info with
  | Some _, Some (Some kind) => kind
  | _, _ => defaultCharacterKind ctx
  end.

(** Flat index times the element size, plus the bytes before the substring. *)
Definition byteOffset (object : EquivalenceObject) : Z :=
  flatIndex (sym_shape (symbolInfo ctx (eo_symbol object))) (eo_subscripts object)
  * sa_size (GetSizeAndAlignment ctx (eo_symbol object) false)
  + match eo_substringStart object with
    | Some substringStart => (substringStart - 1) * characterKind (eo_symbol object)
    | None => 0
    end.

(** The subscripts of the object stay within the dimensions of its symbol,
    so that [ComputeOffset] reads no bound that is not there. *)
Definition subscriptsInShape (object : EquivalenceObject) : Prop :=
  hasObjectEntityDetails (symbolInfo ctx (eo_symbol object)) = true ->
  (length (eo_subscripts object)
   <= length (sym_shape (symbolInfo ctx (eo_symbol object))))%nat.

(** [x] is [object] with its offset, resolved through [dependents]. *)
Definition resolvesTo (dependents : gmap nat SymbolAndOffset)
    (object : EquivalenceObject) (x : SymbolAndOffset) : Prop :=
  exists offset,
    ComputeOffset ctx object = Done offset
    /\ Resolve dependents (mkSymbolAndOffset (eo_symbol object) offset object)
       = Done x.

(** The loop of [Compute] over the children of a scope. *)
Fixpoint ComputeChildren (children : list Scope) (p : Program)
  : Result (list Scope * Program) :=
  match children with
  | [] => Done ([], p)
  | child :: rest =>
      '(child, p) ← Compute ctx child p;
      '(rest, p) ← ComputeChildren rest p;
      Done (child :: rest, p)
  end.

(** The edges [DoEquivalenceSet] records for a set when no symbol has one. *)
Definition edgesOf (set : list EquivalenceObject)
  : Result (gmap nat SymbolAndOffset) :=
  '(symbolOffsets, representative) ← resolveObjects ctx ∅ set ([], None);
  match representative ≫= (fun r => symbolOffsets !! r) with
  | None => Abort CheckFailed
  | Some base => Done (foldl (recordObject ctx base) (∅, []) symbolOffsets).1
  end.
End Reference.

(** The symbol is its own ultimate, a data object, and measures [bytes] with
    the alignment [alignment]. *)
Definition storedObject (ctx : SemanticsContext) (symbol : Symbol)
    (bytes alignment : Z) : Prop :=
  GetUltimate (symbolInfo ctx symbol) = symbol
  /\ hasObjectEntityDetails (symbolInfo ctx symbol) = true
  /\ GetSizeAndAlignment ctx symbol true = mkSizeAndAlignment bytes alignment.

(** [errorSite] of [DoCommonBlock]. *)
Definition errorSite (ctx : SemanticsContext) (commonBlock : CommonBlock)
    (symbol : Symbol) : string :=
  if decide (cb_name (commonBlockInfo ctx commonBlock) = EmptyString)
  then sym_name (symbolInfo ctx symbol)
  else cb_name (commonBlockInfo ctx commonBlock).

(** ** Storage association

    The equivalence sets of a scope link its symbols into storage sequences;
    a placement gives each symbol the storage unit at which it begins. *)

(** [RootAt dependents s r d]: the chain of edges from [s] ends at [r], and
    the offsets along it add up to [d], in exact arithmetic. *)
Inductive RootAt (dependents : gmap nat SymbolAndOffset)
  : Symbol -> Symbol -> Z -> Prop :=
  | RootAt_base s :
      dependents !! s = None -> RootAt dependents s s 0
  | RootAt_edge s e r d :
      dependents !! s = Some e ->
      RootAt dependents (so_symbol e) r d ->
      RootAt dependents s r (d + so_offset e).

(** Two symbols named by objects of one of the sets. *)
Definition sameSet (sets : list (list EquivalenceObject)) (s t : Symbol) : Prop :=
  exists set o1 o2,
    set ∈ sets /\ o1 ∈ set /\ o2 ∈ set
    /\ eo_symbol o1 = s /\ eo_symbol o2 = t.

(** Storage association: the symbols linked by a chain of sets. *)
Definition Associated (sets : list (list EquivalenceObject))
  : Symbol -> Symbol -> Prop :=
  rtc (sameSet sets).

Section PlacementReference.
Context (ctx : SemanticsContext).

(** [addr] places the symbols so that every set is satisfied: the objects
    of a set all lie at one storage unit [v], within the range of
    [std::size_t]; and no two symbols tie for the start of a group of
    associated symbols. *)
Definition Placed (addr : Symbol -> Z) (sets : list (list EquivalenceObject))
  : Prop :=
  (forall s, 0 <= addr s)
  /\ (forall set, set ∈ sets ->
        exists v, v < size_t_modulus
          /\ forall o, o ∈ set ->
               exists c, ComputeOffset ctx o = Done c
                         /\ addr (eo_symbol o) + c = v)
  /\ (forall s t, Associated sets s t -> addr s = addr t ->
        s = t \/ exists u, Associated sets s u /\ addr u < addr s).

(** [addr] satisfies the sets: the objects of a set all lie at one storage
    unit, within the range of [std::size_t].  Symbols may begin together. *)
Definition Satisfied (addr : Symbol -> Z)
    (sets : list (list EquivalenceObject)) : Prop :=
  (forall s, 0 <= addr s)
  /\ (forall set, set ∈ sets ->
        exists v, v < size_t_modulus
          /\ forall o, o ∈ set ->
               exists c, ComputeOffset ctx o = Done c
                         /\ addr (eo_symbol o) + c = v).
End PlacementReference.

Section ConsistencyReference.
Context (ctx : SemanticsContext) (addr : Symbol -> Z)
  (sets : list (list EquivalenceObject)).

(** The map agrees with the placement: it is acyclic, and every edge leads
    from a named symbol to an associated one that begins earlier or at the
    same storage unit, by the difference of their places. *)
Definition Consistent (dependents : gmap nat SymbolAndOffset) : Prop :=
  Acyclic dependents
  /\ forall k e, dependents !! k = Some e ->
       k ∈ namedSymbols sets /\ so_symbol e ∈ namedSymbols sets
       /\ so_offset e = addr k - addr (so_symbol e)
       /\ 0 <= so_offset e
       /\ Associated sets k (so_symbol e).

(** The symbols of each of the sets [done] have one root. *)
Definition Joined (dependents : gmap nat SymbolAndOffset)
    (done : list (list EquivalenceObject)) : Prop :=
  forall set, set ∈ done ->
    exists r, forall o, o ∈ set ->
      exists d, RootAt dependents (eo_symbol o) r d.
End ConsistencyReference.

(** The two maps give every symbol the same root at the same distance. *)
Definition sameRoots (dependents1 dependents2 : gmap nat SymbolAndOffset)
  : Prop :=
  forall s r d, RootAt dependents1 s r d <-> RootAt dependents2 s r d.

Section ResolutionReference.
Context (ctx : SemanticsContext).

(** The helper after [resolveDependent] has found [k] at the distance [d]
    from its root [r]. *)
Definition resolvedHelper (k r : Symbol) (d : Z) (object : EquivalenceObject)
    (h : Helper) : Helper :=
  let symInfo := GetSizeAndAlignment ctx k true in
  let minBlockSize := size_add d (sa_size symInfo) in
  let blockInfo :=
    match equivalenceBlock_ h !! r with
    | None => mkSizeAndAlignment minBlockSize (sa_alignment symInfo)
    | Some blockInfo =>
        mkSizeAndAlignment (Z.max (sa_size blockInfo) minBlockSize)
          (Z.max (sa_alignment blockInfo) (sa_alignment symInfo))
    end in
  with_equivalenceBlock_ (<[r := blockInfo]> (equivalenceBlock_ h))
    (with_dependents_
       (<[k := mkSymbolAndOffset r d object]> (dependents_ h)) h).
End ResolutionReference.

(** An edge without the object it came from. *)
Definition withoutObject (e : SymbolAndOffset) : SymbolAndOffset :=
  mkSymbolAndOffset (so_symbol e) (so_offset e)
    (mkEquivalenceObject 0 EmptyString [] None).

(** The helper whose edges have lost their objects. *)
Definition withoutObjects (h : Helper) : Helper :=
  with_dependents_ (withoutObject <$> dependents_ h) h.

(** The same, in the locals of [DoCommonBlock]. *)
Definition loopWithoutObjects (st : CommonBlockLoop) : CommonBlockLoop :=
  mkCommonBlockLoop (withoutObjects (cl_helper st)) (cl_program st)
    (minSize st) (minAlignment st) (previous st).

Section LayoutReference.
Context (ctx : SemanticsContext).

(** [Compute] after the loop that resolves [dependents_]. *)
Definition placeAndCommit (scope : Scope) (st : Helper * Program)
  : Result (Scope * Program) :=
  let st := foldl (fun st symbol => placeEquivalenceBlock ctx symbol st) st
              (orderedKeys (equivalenceBlock_ st.1)) in
  let '(h, p) :=
    foldl (fun st symbol => placeSymbol ctx (scope_symbols scope) symbol st)
      st (scope_symbols scope) in
  let h :=
    with_offset_
      (Align (maxAlignment (targetCharacteristics ctx)) (offset_ h) (alignment_ h))
      h in
  let scope := with_layout (offset_ h) (alignment_ h) scope in
  st ← (if decide (scope_kind scope = BlockConstruct) then Done (h, p)
        else forEach (fun pair '(h, p) => DoCommonBlock ctx pair.2 h p)
               (scope_commonBlocks scope) (h, p));
  '(_, p) ← forEach (commitDependent ctx) (orderedKeys (dependents_ st.1)) st;
  Done (scope, p).
End LayoutReference.

(** ** Storage of symbols

    What [DoSymbol] and the loops built on it are compared with. *)

Section StorageReference.
Context (ctx : SemanticsContext).

(** [DoSymbol] gives the symbol storage: it is an object or procedure
    entity whose size is not zero. *)
Definition occupiesStorage (symbol : Symbol) : bool :=
  (hasObjectEntityDetails (symbolInfo ctx symbol)
   || hasProcEntityDetails (symbolInfo ctx symbol))
  && bool_decide (sa_size (GetSizeAndAlignment ctx symbol true) ≠ 0).

(** The alignment [DoSymbol] rounds the offset of the symbol up to. *)
Definition effectiveAlignment (newAlign : option Z) (symbol : Symbol) : Z :=
  Z.min (default (sa_alignment (GetSizeAndAlignment ctx symbol true)) newAlign)
    (maxAlignment (targetCharacteristics ctx)).

End StorageReference.

Section SequenceReference.
Context (ctx : SemanticsContext) (newAlign : Symbol -> option Z).



(** [DoSymbol] on each of the symbols in turn. *)
Definition DoSymbols (symbols : list Symbol) (st : Helper * Program)
  : Helper * Program :=
  foldl (fun st symbol =>
           let '(_, h, p) := DoSymbol ctx symbol (newAlign symbol) st.1 st.2 in
           (h, p))
    st symbols.
End SequenceReference.

Section ScopeReference.
Context (ctx : SemanticsContext).

End ScopeReference.

Section AlignmentReference.
Context (ctx : SemanticsContext).

End AlignmentReference.

(** ** EQUIVALENCE blocks and COMMON blocks *)

Section BlockReference.
Context (ctx : SemanticsContext).

(** The entries of [dependents_] at the symbols [resolved] lead to symbols
    without entry and have their blocks: the symbol has its size, and the
    block of its base reaches the end of the symbol and has at least its
    alignment. *)
Definition Covered (resolved : list Symbol) (h : Helper) (p : Program) : Prop :=
  forall k e, k ∈ resolved -> dependents_ h !! k = Some e ->
    dependents_ h !! so_symbol e = None
    /\ symbol_size p k = sa_size (GetSizeAndAlignment ctx k true)
    /\ exists block,
         equivalenceBlock_ h !! so_symbol e = Some block
         /\ size_add (so_offset e) (symbol_size p k) <= sa_size block
         /\ sa_alignment (GetSizeAndAlignment ctx k true) <= sa_alignment block.

(** Every block of [equivalenceBlock_] is at a symbol without entry, and
    its size and its alignment are those one of the symbols [resolved]
    asks for. *)
Definition Tight (resolved : list Symbol) (h : Helper) (p : Program) : Prop :=
  forall r block, equivalenceBlock_ h !! r = Some block ->
    dependents_ h !! r = None
    /\ (exists k e,
          k ∈ resolved /\ dependents_ h !! k = Some e /\ so_symbol e = r
          /\ sa_size block = size_add (so_offset e) (symbol_size p k))
    /\ (exists k e,
          k ∈ resolved /\ dependents_ h !! k = Some e /\ so_symbol e = r
          /\ sa_alignment block
             = sa_alignment (GetSizeAndAlignment ctx k true)).
End BlockReference.

(** The COMMON block symbols and the blocks handed to the context are the
    same in the two programs. *)
Definition sameBlocks (p q : Program) : Prop :=
  commonBlocks p = commonBlocks q
  /\ mappedCommonBlocks p = mappedCommonBlocks q.

(** ** Sample programs

    Small inputs on which the definitions are run. *)
Module Sample.

(** A data object with explicit bounds, element size and alignment. *)
Definition dataObject (name : string) (shape : list (Z * Z))
    (elementBytes alignment : Z) (self : Symbol) : SymbolInfo :=
  mkSymbolInfo name true false shape (Some OtherTypeSpec) None false
    (Z.of_nat (length shape)) None false false false
    (Some (mkTypeAndShape
             (Some (elementBytes * extentProduct shape (length shape)))
             (Some elementBytes) alignment))
    self None false.

Definition target : TargetCharacteristics := mkTargetCharacteristics 16 8 8 8.

Definition context (symbolTable : Symbol -> SymbolInfo)
    (blocks : CommonBlock -> CommonBlockInfo) : SemanticsContext :=
  mkSemanticsContext target symbolTable blocks 1 (fun _ _ _ => 48)
    (fun _ _ => None) false.

Definition noBlocks : CommonBlock -> CommonBlockInfo :=
  fun _ => mkCommonBlockInfo "" [].

Definition whole (symbol : Symbol) (source : string) : EquivalenceObject :=
  mkEquivalenceObject symbol source [] None.

Definition element (symbol : Symbol) (source : string) (subscripts : list Z)
  : EquivalenceObject :=
  mkEquivalenceObject symbol source subscripts None.

Definition emptyProgram : Program := mkProgram ∅ ∅ [] [].

(** [REAL A(10); INTEGER B(5)]: symbols 1 and 2. *)
Definition arrays : SemanticsContext :=
  context (fun s => match s with
                    | 1%nat => dataObject "a" [(1, 10)] 4 4 1
                    | _ => dataObject "b" [(1, 5)] 4 4 s
                    end) noBlocks.

(** Scalars of four bytes, whatever the symbol. *)
Definition scalars : SemanticsContext :=
  context (fun s => dataObject "x" [] 4 4 s) noBlocks.

(** [COMMON /c/ a, b] with [INTEGER(4) a] and [REAL(8) b]: the symbols 3 and
    4, the block 7. *)
Definition commonIntegerReal : SemanticsContext :=
  context (fun s => match s with
                    | 3%nat => dataObject "a" [] 4 4 3
                    | _ => dataObject "b" [] 8 8 s
                    end)
    (fun _ => mkCommonBlockInfo "c" [3%nat; 4%nat]).

Definition inCommonIntegerReal : Program :=
  mkProgram {[ 3%nat := mkSymbolState 0 0 (Some 7%nat);
               4%nat := mkSymbolState 0 0 (Some 7%nat) ]} ∅ [] [].

(** [COMMON /c/ a] where [a] is equivalenced to [b], outside the block, at
    the offset [edge] of [b]: the symbols 3 and 4, the block 7. *)
Definition equivalencedMember (edge : Z) : CommonBlockLoop :=
  mkCommonBlockLoop
    (mkHelper 8 4
       {[ 3%nat := mkSymbolAndOffset 4 edge (whole 3 "a") ]}
       {[ 4%nat := mkSizeAndAlignment 12 8 ]})
    (mkProgram {[ 3%nat := mkSymbolState 0 0 (Some 7%nat) ]} ∅ [] [])
    0 0 ∅.

(** A scope of one four-byte scalar, the symbol 1, not yet laid out. *)
Definition leafScope : Scope :=
  mkScope Subprogram None false 0 None [1%nat] [] [] [].

(** A scope that has its alignment, over a child that has none. *)
Definition alignedParent : Scope :=
  mkScope Module None false 0 (Some 1) [] [] [] [leafScope].

(** A target whose maximum alignment, 8, is below the alignment 16 of the
    eight-byte symbols. *)
Definition overaligned : SemanticsContext :=
  mkSemanticsContext (mkTargetCharacteristics 8 8 8 8)
    (fun s => dataObject "q" [] 8 16 s) noBlocks 1 (fun _ _ _ => 48)
    (fun _ _ => None) false.

(** [INTEGER a(2), b(2), x, y]: the arrays are the symbols 1 and 3, the
    scalars the symbols 2 and 4. *)
Definition interleaved : SemanticsContext :=
  context (fun s => match s with
                    | 1%nat => dataObject "a" [(1, 2)] 4 4 1
                    | 3%nat => dataObject "b" [(1, 2)] 4 4 3
                    | _ => dataObject "x" [] 4 4 s
                    end) noBlocks.

(** A scope of the symbols 1 to 4 with the given equivalence sets. *)
Definition equivalencing (sets : list (list EquivalenceObject)) : Scope :=
  mkScope Subprogram None false 0 None [1; 2; 3; 4]%nat sets [] [].

(** [EQUIVALENCE (y, x), (a(1), b(1)), (b(2), a(2))] and the same with the
    last two sets exchanged. *)
Definition tiedSets : list (list EquivalenceObject) :=
  [[whole 4 "y"; whole 2 "x"];
   [element 1 "a(1)" [1]; element 3 "b(1)" [1]];
   [element 3 "b(2)" [2]; element 1 "a(2)" [2]]].
Definition tiedSetsExchanged : list (list EquivalenceObject) :=
  [[whole 4 "y"; whole 2 "x"];
   [element 3 "b(2)" [2]; element 1 "a(2)" [2]];
   [element 1 "a(1)" [1]; element 3 "b(1)" [1]]].

(** [EQUIVALENCE (y, x), (a(2), b(1))] and [EQUIVALENCE (a(2), b(1)), (y, x)]. *)
Definition separateSets : list (list EquivalenceObject) :=
  [[whole 4 "y"; whole 2 "x"]; [element 1 "a(2)" [2]; element 3 "b(1)" [1]]].
Definition separateSetsExchanged : list (list EquivalenceObject) :=
  [[element 1 "a(2)" [2]; element 3 "b(1)" [1]]; [whole 4 "y"; whole 2 "x"]].
(** [EQUIVALENCE (a(2), b(1)), (b(2), x)] and the same with the two sets
    exchanged: [b] is named by both sets. *)
Definition chainedSets : list (list EquivalenceObject) :=
  [[element 1 "a(2)" [2]; element 3 "b(1)" [1]];
   [element 3 "b(2)" [2]; whole 2 "x"]].
Definition chainedSetsExchanged : list (list EquivalenceObject) :=
  [[element 3 "b(2)" [2]; whole 2 "x"];
   [element 1 "a(2)" [2]; element 3 "b(1)" [1]]].

(** Where the chained sets put [a], [b] and [x]: one after the other. *)
Definition chainedAddress (s : Symbol) : Z :=
  match s with
  | 2%nat => 8
  | 3%nat => 4
  | _ => 0
  end.




(** A scope whose only content is the COMMON block 7, named [c]. *)
Definition commonScope : Scope :=
  mkScope Subprogram None false 0 None [] [] [("c"%string, 7%nat)] [].

(** The helper that holds the one edge from the symbol 1 to the symbol 2,
    four bytes further. *)
Definition oneEdge : Helper :=
  mkHelper 0 1 {[ 1%nat := mkSymbolAndOffset 2 4 (whole 1 "x") ]} ∅.


(** [COMMON /c/ a] where [a], the symbol 3, is equivalenced to the symbol
    4, which is in the COMMON block 9. *)
Definition acrossBlocks : CommonBlockLoop :=
  mkCommonBlockLoop
    (mkHelper 0 0 {[ 3%nat := mkSymbolAndOffset 4 0 (whole 3 "a") ]} ∅)
    (mkProgram {[ 3%nat := mkSymbolState 0 0 (Some 7%nat);
                  4%nat := mkSymbolState 8 0 (Some 9%nat) ]} ∅ [] [])
    0 0 ∅.
End Sample.

(** * Properties *)

(** ** Arithmetic of [std::size_t] and of [Align] *)

Lemma size_t_modulus_eq : size_t_modulus = 2 ^ 64.
Proof. reflexivity. Qed.

Lemma wrap_range z : is_size_t (wrap z).
Proof. unfold is_size_t, wrap. apply Z.mod_pos_bound. reflexivity. Qed.

Lemma wrap_small z : is_size_t z -> wrap z = z.
Proof. unfold is_size_t, wrap. intros. by apply Z.mod_small. Qed.

(** The mask [-2^k] of [Align] keeps the bits from [k] up to the width. *)
Lemma testbit_size_neg_pow2 k i :
  0 <= k -> 0 <= i ->
  Z.testbit (size_neg (2 ^ k)) i = bool_decide (k <= i < 64).
Proof.
  intros Hk Hi. unfold size_neg, wrap. rewrite size_t_modulus_eq.
  destruct (decide (i < 64)) as [Hlt|Hge].
  - rewrite Z.mod_pow2_bits_low by lia.
    rewrite Z.bits_opp by lia.
    replace (Z.pred (2 ^ k)) with (Z.ones k) by (rewrite Z.ones_equiv; lia).
    destruct (decide (i < k)).
    + rewrite Z.ones_spec_low by lia. rewrite bool_decide_eq_false_2 by lia. done.
    + rewrite Z.ones_spec_high by lia. rewrite bool_decide_eq_true_2 by lia. done.
  - rewrite Z.mod_pow2_bits_high by lia.
    rewrite bool_decide_eq_false_2 by lia. done.
Qed.

Lemma land_size_neg_pow2 y k :
  is_size_t y -> 0 <= k ->
  Z.land y (size_neg (2 ^ k)) = y / 2 ^ k * 2 ^ k.
Proof.
  intros [Hy0 Hy] Hk.
  rewrite <- Z.shiftr_div_pow2, <- Z.shiftl_mul_pow2 by lia.
  apply Z.bits_inj'. intros i Hi.
  rewrite Z.land_spec, testbit_size_neg_pow2 by lia.
  destruct (decide (i < k)).
  - rewrite Z.shiftl_spec_low by lia. rewrite bool_decide_eq_false_2 by lia.
    apply andb_false_r.
  - rewrite Z.shiftl_spec_high by lia. rewrite Z.shiftr_spec by lia.
    replace (i - k + k) with i by lia.
    destruct (decide (i < 64)).
    + rewrite bool_decide_eq_true_2 by lia. apply andb_true_r.
    + rewrite bool_decide_eq_false_2 by lia. rewrite andb_false_r.
      symmetry. apply Z.bits_above_log2; [lia|].
      destruct (decide (y = 0)) as [->|]; [simpl; lia|].
      apply Z.log2_lt_pow2; [lia|]. rewrite size_t_modulus_eq in Hy.
      eapply Z.lt_le_trans; [exact Hy|]. apply Z.pow_le_mono_r; lia.
Qed.

(** Whatever the operands, the result of [Align] is a multiple of the
    effective alignment when that is a power of two. *)
Lemma Align_divide maxA x a :
  power_of_two (Z.min a maxA) -> (Z.min a maxA | Align maxA x a).
Proof.
  intros (k & Hk & Hm). unfold Align. rewrite Hm.
  rewrite land_size_neg_pow2 by (first [apply wrap_range | lia]).
  apply Z.divide_factor_r.
Qed.

Lemma Align_roundUp maxA x a :
  0 <= x -> power_of_two (Z.min a maxA) ->
  x + Z.min a maxA - 1 < size_t_modulus ->
  Align maxA x a = roundUp x (Z.min a maxA).
Proof.
  intros Hx (k & Hk & Hm) Hfit. unfold Align, roundUp. rewrite Hm in *.
  assert (0 < 2 ^ k) by (apply Z.pow_pos_nonneg; lia).
  rewrite land_size_neg_pow2 by (first [apply wrap_range | lia]).
  unfold size_sub, size_add.
  destruct (decide (x + 2 ^ k < size_t_modulus)) as [Hlt|Hge].
  - rewrite (wrap_small (x + 2 ^ k)) by (unfold is_size_t; lia).
    rewrite wrap_small by (unfold is_size_t; lia). done.
  - assert (x + 2 ^ k = size_t_modulus) as Heq by lia.
    rewrite Heq. unfold wrap at 2. rewrite Z.mod_same by done.
    replace (0 - 1) with (-1) by lia.
    replace (wrap (-1)) with (size_t_modulus - 1) by reflexivity. done.
Qed.

Lemma roundUp_bounds x m : 0 < m -> x <= roundUp x m < x + m.
Proof.
  intros Hm. unfold roundUp.
  pose proof (Z.div_mod (x + m - 1) m ltac:(lia)).
  pose proof (Z.mod_pos_bound (x + m - 1) m Hm). lia.
Qed.

Lemma roundUp_multiple x m : 0 < m -> (m | x) -> roundUp x m = x.
Proof.
  intros Hm [q ->]. unfold roundUp.
  replace (q * m + m - 1) with ((m - 1) + q * m) by lia.
  rewrite Z.div_add by lia. rewrite Z.div_small by lia. lia.
Qed.

(** C6, as the code has it: when the effective alignment
    [min(a, maxAlignment)] is a power of two and [x + min(a, maxAlignment) - 1]
    fits a [std::size_t], [Align(x, a)] is [x] rounded up to a multiple of the
    effective alignment; hence it is idempotent, at least [x], a multiple of
    the effective alignment, and the effective alignment does not exceed the
    target's maximum. *)
Theorem Align_rounds_up_power_of_two maxA x a :
  0 <= x ->
  power_of_two (Z.min a maxA) ->
  x + Z.min a maxA - 1 < size_t_modulus ->
  Align maxA x a = roundUp x (Z.min a maxA)
  /\ Align maxA (Align maxA x a) a = Align maxA x a
  /\ x <= Align maxA x a
  /\ (Z.min a maxA | Align maxA x a)
  /\ Z.min a maxA <= maxA.
Proof.
  intros Hx Hpow Hfit.
  pose proof (Align_roundUp maxA x a Hx Hpow Hfit) as Hr.
  pose proof (Align_divide maxA x a Hpow) as Hdiv.
  destruct Hpow as (k & Hk & Hm).
  assert (0 < Z.min a maxA) as Hpos by (rewrite Hm; apply Z.pow_pos_nonneg; lia).
  pose proof (roundUp_bounds x _ Hpos) as Hb.
  split; [done|]. split; [|split; [lia|split; [done|lia]]].
  assert (k <= 64) as Hk64.
  { apply (Z.pow_le_mono_r_iff 2); [lia|lia|].
    rewrite <- Hm. rewrite size_t_modulus_eq in Hfit. lia. }
  assert (Align maxA x a + Z.min a maxA <= size_t_modulus) as Hroom.
  { destruct Hdiv as [q Hq]. rewrite Hq, Hm, size_t_modulus_eq.
    replace 64 with ((64 - k) + k) by lia. rewrite Z.pow_add_r by lia.
    assert (q < 2 ^ (64 - k)); [|nia].
    assert (q * 2 ^ k < 2 ^ (64 - k) * 2 ^ k); [|nia].
    rewrite <- Z.pow_add_r by lia. replace (64 - k + k) with 64 by lia.
    rewrite <- Hm, <- Hq, <- size_t_modulus_eq. lia. }
  rewrite (Align_roundUp maxA (Align maxA x a) a); [|lia|by exists k|lia].
  by apply roundUp_multiple.
Qed.

Lemma Align_rounds_up_power_of_two_witness :
  Align 16 13 8 = 16 /\ Align 16 (Align 16 13 8) 8 = Align 16 13 8.
Proof.
  destruct (Align_rounds_up_power_of_two 16 13 8) as (H1 & H2 & _).
  - lia.
  - exists 3. split; [lia | reflexivity].
  - reflexivity.
  - split; [rewrite H1; reflexivity | exact H2].
Defined.

(** C6 as stated fails for an alignment that is not a power of two: the mask
    of [Align] does not round to its multiples; and for the alignment zero
    the result falls below [x]. *)
Lemma Align_not_rounding_for_every_alignment :
  Align 8 1 3 = 1
  /\ roundUp 1 (Z.min 3 8) = 3
  /\ ¬ (Z.min 3 8 | Align 8 1 3)
  /\ Align 8 5 0 = 0
  /\ ¬ (5 <= Align 8 5 0).
Proof.
  assert (Align 8 1 3 = 1) as H1 by reflexivity.
  assert (Align 8 5 0 = 0) as H2 by reflexivity.
  rewrite H1, H2. change (Z.min 3 8) with 3.
  repeat split; try reflexivity; try lia.
  intros [q Hq]. lia.
Qed.

(** ** ComputeOffset *)

Lemma wrap_add_l a b : wrap (wrap a + b) = wrap (a + b).
Proof. unfold wrap. apply Zplus_mod_idemp_l. Qed.
Lemma wrap_add_r a b : wrap (a + wrap b) = wrap (a + b).
Proof. unfold wrap. apply Zplus_mod_idemp_r. Qed.
Lemma wrap_mul_l a b : wrap (wrap a * b) = wrap (a * b).
Proof. unfold wrap. apply Zmult_mod_idemp_l. Qed.
Lemma wrap_wrap a : wrap (wrap a) = wrap a.
Proof. unfold wrap. apply Zmod_mod. Qed.

Lemma flatIndex_take_S shape subscripts i subscript lbound ubound :
  subscripts !! i = Some subscript ->
  shape !! i = Some (lbound, ubound) ->
  flatIndex shape (take (S i) subscripts)
  = flatIndex shape (take i subscripts)
    + (subscript - lbound) * extentProduct shape i.
Proof.
  revert shape subscripts.
  induction i as [|i IH]; intros [|[lb ub] shape] [|s subscripts] Hs Hb;
    try discriminate.
  - simpl in *. injection Hs as ->. injection Hb as -> ->.
    rewrite take_0. destruct shape as [|[]]; simpl; lia.
  - simpl in Hs, Hb.
    change (take (S (S i)) (s :: subscripts)) with (s :: take (S i) subscripts).
    change (take (S i) (s :: subscripts)) with (s :: take i subscripts).
    cbn [flatIndex extentProduct]. rewrite (IH _ _ Hs Hb). lia.
Qed.

Lemma extentProduct_S shape i lbound ubound :
  shape !! i = Some (lbound, ubound) ->
  extentProduct shape (S i) = extentProduct shape i * (ubound - lbound + 1).
Proof.
  revert shape. induction i as [|i IH]; intros [|[lb ub] shape] Hb;
    try discriminate.
  - simpl in *. injection Hb as -> ->. destruct shape as [|[]]; simpl; lia.
  - simpl in Hb. cbn [extentProduct]. rewrite (IH _ Hb).
    cbn [extentProduct]. lia.
Qed.

Lemma linearize_flatIndex shape subscripts i acc :
  (i < length subscripts)%nat -> (i < length shape)%nat ->
  linearize shape subscripts i acc
  = Done (wrap (flatIndex shape (take (S i) subscripts)
                + acc * extentProduct shape i)).
Proof.
  revert acc. induction i as [|i IH]; intros acc Hs Hb.
  - destruct subscripts as [|s subscripts]; [simpl in Hs; lia|].
    destruct shape as [|[lb ub] shape]; [simpl in Hb; lia|].
    simpl. rewrite take_0. unfold size_add. do 2 f_equal.
    destruct shape as [|[]]; simpl; lia.
  - destruct (lookup_lt_is_Some_2 subscripts (S i) Hs) as [s Hsi].
    destruct (lookup_lt_is_Some_2 shape (S i) Hb) as [[lb ub] Hbi].
    destruct (lookup_lt_is_Some_2 shape i ltac:(lia)) as [[lb' ub'] Hbi'].
    cbn [linearize]. rewrite Hsi, Hbi, Hbi'.
    rewrite IH by lia.
    rewrite (flatIndex_take_S _ _ (S i) _ _ _ Hsi Hbi).
    rewrite (extentProduct_S _ i _ _ Hbi').
    unfold size_mul, size_add. f_equal.
    rewrite <- wrap_add_r, wrap_mul_l, <- Z.mul_assoc, wrap_mul_l, wrap_add_r.
    f_equal. lia.
Qed.

Lemma to_int_small z : is_int z -> to_int z = z.
Proof.
  unfold is_int, to_int. intros Hz.
  rewrite Z.mod_small by lia. lia.
Qed.

Section ComputeOffsetProperties.
Context (ctx : SemanticsContext).

(** C3: for an equivalence object that names an array element (a data object
    with at least as many dimensions as subscripts) and whose character kind
    is the value of an [int], as every kind of a Fortran type is,
    [ComputeOffset] returns the flat element index times the element size
    of the symbol, plus [(substringStart - 1)] times the character kind's
    width when a substring start is given; as a [std::size_t], and exactly
    when that fits one. *)
Theorem ComputeOffset_array_element object :
  hasObjectEntityDetails (symbolInfo ctx (eo_symbol object)) = true ->
  eo_subscripts object ≠ [] ->
  (length (eo_subscripts object)
   <= length (sym_shape (symbolInfo ctx (eo_symbol object))))%nat ->
  is_int (characterKind ctx (eo_symbol object)) ->
  ComputeOffset ctx object = Done (wrap (byteOffset ctx object))
  /\ (is_size_t (byteOffset ctx object) ->
      ComputeOffset ctx object = Done (byteOffset ctx object)).
Proof.
  intros Hobj Hne Hlen Hkind.
  assert (ComputeOffset ctx object = Done (wrap (byteOffset ctx object))) as H.
  { unfold characterKind in Hkind.
    unfold ComputeOffset, byteOffset, characterKind.
    destruct (eo_subscripts object) as [|s subscripts] eqn:Hsubs; [done|].
    rewrite Hobj. rewrite <- Hsubs in Hlen |- *.
    assert (0 < length (eo_subscripts object))%nat
      by (rewrite Hsubs; simpl; lia).
    rewrite linearize_flatIndex by lia.
    replace (S (length (eo_subscripts object) - 1))
      with (length (eo_subscripts object)) by lia.
    rewrite firstn_all. cbn [mbind Result_bind].
    unfold size_mul, size_add. rewrite Z.mul_0_l, Z.add_0_r, wrap_mul_l.
    destruct (eo_substringStart object) as [start|].
    - rewrite wrap_add_l. do 2 f_equal.
      destruct (GetType (symbolInfo ctx (eo_symbol object))),
        (intrinsicKind (symbolInfo ctx (eo_symbol object))) as [[]|];
        cbn [default from_option id] in *;
        rewrite ?to_int_small by done; lia.
    - by rewrite Z.add_0_r. }
  split; [done|]. intros Hfit. by rewrite H, wrap_small.
Qed.
End ComputeOffsetProperties.

Lemma ComputeOffset_array_element_witness :
  ComputeOffset Sample.arrays (Sample.element 1 "a(3)" [3]) = Done 8.
Proof.
  destruct (ComputeOffset_array_element Sample.arrays
              (Sample.element 1 "a(3)" [3])) as [_ H].
  - reflexivity.
  - discriminate.
  - simpl. lia.
  - vm_compute. split; [discriminate|reflexivity].
  - apply H. vm_compute. split; [discriminate|reflexivity].
Defined.

(** ** Resolve and the dependency chains *)

Lemma ChainLength_unique dependents s n m :
  ChainLength dependents s n -> ChainLength dependents s m -> n = m.
Proof.
  intros Hn. revert m. induction Hn as [s Hs|s dep n Hs _ IH]; intros m Hm.
  - inversion Hm; [done|congruence].
  - inversion Hm as [|? dep' m' Hs' Hm']; subst; [congruence|].
    rewrite Hs in Hs'. injection Hs' as <-. f_equal. by apply IH.
Qed.

Lemma ChainLength_delete dependents s d n m :
  ChainLength dependents d n ->
  ChainLength dependents s m -> (n < m)%nat ->
  ChainLength (delete s dependents) d n.
Proof.
  intros Hd Hs. induction Hd as [d Hd|d dep n Hd Hn IH]; intros Hlt.
  - apply ChainLength_base. rewrite lookup_delete_None. by right.
  - assert (d ≠ s) as Hne.
    { intros ->. pose proof (ChainLength_unique _ _ _ _ Hs
                               (ChainLength_edge _ _ _ _ Hd Hn)). lia. }
    eapply ChainLength_edge.
    + rewrite lookup_delete_ne by done. exact Hd.
    + apply IH. lia.
Qed.

Lemma ChainLength_le_size dependents s n :
  ChainLength dependents s n -> (n <= size dependents)%nat.
Proof.
  revert dependents s. induction n as [|n IH]; intros dependents s Hn; [lia|].
  inversion Hn as [|? dep ? Hs Hd]; subst.
  pose proof (ChainLength_delete _ s _ _ _ Hd Hn ltac:(lia)) as Hdel.
  apply IH in Hdel.
  rewrite map_size_delete, Hs in Hdel.
  assert (size dependents ≠ 0%nat); [|lia].
  intros Hz. apply map_size_empty_inv in Hz. subst. by rewrite lookup_empty in Hs.
Qed.

(** What [Resolve] returns, as a relation: the end of the chain, with the
    offsets along it added up. *)
Lemma Resolve_fuel_enough dependents dep n fuel :
  ChainLength dependents (so_symbol dep) n -> (n <= fuel)%nat ->
  exists r, Resolve_fuel fuel dependents dep = Done r
            /\ dependents !! so_symbol r = None
            /\ so_object r = so_object dep
            /\ (is_size_t (so_offset dep) -> is_size_t (so_offset r)).
Proof.
  revert dep n. induction fuel as [|fuel IH]; intros dep n Hn Hle.
  - inversion Hn; subst; [|lia]. exists dep. simpl.
    by destruct (dependents !! so_symbol dep).
  - inversion Hn as [? Hs|? next m Hs Hm]; subst.
    + exists dep. simpl. by rewrite Hs.
    + destruct (IH next m Hm ltac:(lia)) as (r & Hr & Hroot & _ & _).
      eexists. simpl. rewrite Hs, Hr. simpl.
      split; [done|]. split; [done|]. split; [done|].
      intros _. apply wrap_range.
Qed.

Lemma Resolve_total dependents dep :
  Acyclic dependents ->
  exists r, Resolve dependents dep = Done r
            /\ dependents !! so_symbol r = None
            /\ so_object r = so_object dep
            /\ (is_size_t (so_offset dep) -> is_size_t (so_offset r)).
Proof.
  intros Hacyclic. destruct (Hacyclic (so_symbol dep)) as [n Hn].
  eapply Resolve_fuel_enough; [done|]. by eapply ChainLength_le_size.
Qed.

Lemma Resolve_fuel_Done_root fuel dependents dep r :
  Resolve_fuel fuel dependents dep = Done r ->
  dependents !! so_symbol r = None.
Proof.
  revert dep r. induction fuel as [|fuel IH]; intros dep r; simpl.
  - destruct (dependents !! so_symbol dep) eqn:Hs; [done|]. by intros [= <-].
  - destruct (dependents !! so_symbol dep) as [next|] eqn:Hs.
    + destruct (Resolve_fuel fuel dependents next) as [r'|] eqn:Hr; [|done].
      simpl. intros [= <-]. simpl. eauto.
    + by intros [= <-].
Qed.

Lemma Resolve_root dependents dep :
  dependents !! so_symbol dep = None -> Resolve dependents dep = Done dep.
Proof.
  intros Hs. unfold Resolve. destruct (size dependents); simpl; by rewrite Hs.
Qed.

Lemma Acyclic_empty : Acyclic ∅.
Proof. intros s. exists 0%nat. by apply ChainLength_base. Qed.

(** A new edge from a symbol without edges to another such symbol keeps the
    map acyclic. *)
Lemma Acyclic_insert dependents k e :
  Acyclic dependents ->
  dependents !! k = None -> dependents !! so_symbol e = None ->
  so_symbol e ≠ k ->
  Acyclic (<[k := e]> dependents).
Proof.
  intros Hacyclic Hk He Hne s. destruct (Hacyclic s) as [n Hn].
  induction Hn as [s Hs|s dep n Hs _ [m IH]].
  - destruct (decide (s = k)) as [->|].
    + exists 1%nat. eapply ChainLength_edge; [apply lookup_insert_eq|].
      apply ChainLength_base. by rewrite lookup_insert_ne.
    + exists 0%nat. apply ChainLength_base. by rewrite lookup_insert_ne.
  - exists (S m). eapply ChainLength_edge; [|exact IH].
    rewrite lookup_insert_ne; [done|congruence].
Qed.

(** ** DoEquivalenceSet *)

Section DoEquivalenceSetProperties.
Context (ctx : SemanticsContext).

Lemma ComputeOffset_size_t object offset :
  ComputeOffset ctx object = Done offset -> is_size_t offset.
Proof.
  unfold ComputeOffset.
  destruct (match eo_subscripts object with [] => _ | _ => _ end) as [o|];
    [|done].
  cbn [mbind Result_bind].
  destruct (eo_substringStart object); intros [= <-]; apply wrap_range.
Qed.

Lemma linearize_total shape subscripts i acc :
  (i < length subscripts)%nat -> (i < length shape)%nat ->
  exists offset, linearize shape subscripts i acc = Done offset.
Proof. intros. rewrite linearize_flatIndex by done. eauto. Qed.

Lemma ComputeOffset_total object :
  subscriptsInShape ctx object ->
  exists offset, ComputeOffset ctx object = Done offset.
Proof.
  unfold subscriptsInShape, ComputeOffset. intros Hin.
  assert (exists o,
    match eo_subscripts object with
    | [] => Done 0
    | _ :: _ =>
        if hasObjectEntityDetails (symbolInfo ctx (eo_symbol object))
        then linearize (sym_shape (symbolInfo ctx (eo_symbol object)))
               (eo_subscripts object) (length (eo_subscripts object) - 1) 0
        else Done 0
    end = Done o) as [o ->].
  { destruct (eo_subscripts object) as [|s l] eqn:Hs; [eauto|].
    destruct (hasObjectEntityDetails _); [|eauto].
    rewrite <- Hs in *. specialize (Hin eq_refl).
    assert (0 < length (eo_subscripts object))%nat by (rewrite Hs; simpl; lia).
    apply linearize_total; lia. }
  cbn [mbind Result_bind]. destruct (eo_substringStart object); eauto.
Qed.


Lemma noteResolved_representativeOf acc x :
  representativeOf acc -> representativeOf (noteResolved acc x).
Proof.
  destruct acc as [rs [r|]]; unfold representativeOf; simpl.
  - intros (base & Hr & Hmax & Hlast).
    pose proof (lookup_lt_Some _ _ _ Hr) as Hlt.
    rewrite lookup_app_l, Hr by done.
    rewrite length_app. simpl.
    case_bool_decide as Hle; simpl.
    + exists x. split; [|split].
      * replace (length rs + 1 - 1)%nat with (length rs) by lia.
        rewrite lookup_app_r by lia. by rewrite Nat.sub_diag.
      * intros i y Hy. apply lookup_app_Some in Hy as [Hy|[_ Hy]].
        -- specialize (Hmax _ _ Hy). lia.
        -- apply list_lookup_singleton_Some in Hy as [_ <-]. lia.
      * intros i y Hy Hi. apply lookup_lt_Some in Hy.
        rewrite length_app in Hy. simpl in Hy. lia.
    + exists base. split; [|split].
      * by rewrite lookup_app_l.
      * intros i y Hy. apply lookup_app_Some in Hy as [Hy|[_ Hy]].
        -- eauto.
        -- apply list_lookup_singleton_Some in Hy as [_ <-]. lia.
      * intros i y Hy Hi. apply lookup_app_Some in Hy as [Hy|[_ Hy]].
        -- eauto.
        -- apply list_lookup_singleton_Some in Hy as [_ <-]. lia.
  - intros ->. simpl. exists x. split; [done|]. split.
    + intros [|i] y Hy; simpl in Hy; [|done]. injection Hy as <-. lia.
    + intros [|i] y Hy Hi; [lia|done].
Qed.

Lemma noteResolved_fst acc x : (noteResolved acc x).1 = acc.1 ++ [x].
Proof. by destruct acc as [rs [r|]]. Qed.

Lemma resolveObjects_Done dependents set acc rs rep :
  resolveObjects ctx dependents set acc = Done (rs, rep) ->
  representativeOf acc ->
  exists new, rs = acc.1 ++ new
              /\ Forall2 (resolvesTo ctx dependents) set new
              /\ representativeOf (rs, rep).
Proof.
  revert acc. induction set as [|object set IH]; intros acc; simpl.
  - intros [= ->] Hinv. exists []. simpl. rewrite app_nil_r.
    split; [done|]. split; [constructor|done].
  - destruct (ComputeOffset ctx object) as [offset|] eqn:Hoffset; [|done].
    cbn [mbind Result_bind].
    destruct (Resolve dependents _) as [x|] eqn:Hx; [|done].
    cbn [mbind Result_bind]. intros Hrest Hinv.
    destruct (IH _ Hrest (noteResolved_representativeOf _ x Hinv))
      as (new & -> & Hall & Hrep).
    exists (x :: new). rewrite noteResolved_fst, <- app_assoc in Hrep |- *.
    split; [reflexivity|]. split; [|exact Hrep].
    constructor; [|exact Hall]. by exists offset.
Qed.

Lemma resolveObjects_total dependents set acc :
  Acyclic dependents -> Forall (subscriptsInShape ctx) set ->
  exists res, resolveObjects ctx dependents set acc = Done res.
Proof.
  intros Hacyclic Hall. revert acc.
  induction Hall as [|object set Hobject _ IH]; intros acc; simpl; [eauto|].
  destruct (ComputeOffset_total _ Hobject) as [offset ->].
  cbn [mbind Result_bind].
  destruct (Resolve_total dependents
              (mkSymbolAndOffset (eo_symbol object) offset object) Hacyclic)
    as (x & -> & _).
  cbn [mbind Result_bind]. apply IH.
Qed.

Lemma resolvesTo_root dependents object x :
  resolvesTo ctx dependents object x ->
  dependents !! so_symbol x = None
  /\ is_size_t (so_offset x) /\ so_object x = object.
Proof.
  intros (offset & Hoffset & Hx).
  pose proof (Resolve_fuel_Done_root _ _ _ _ Hx) as Hroot.
  split; [done|].
  apply ComputeOffset_size_t in Hoffset.
  unfold Resolve in Hx. destruct (size dependents) as [|fuel]; simpl in Hx.
  - destruct (dependents !! eo_symbol object); [done|]. by injection Hx as <-.
  - destruct (dependents !! eo_symbol object) as [next|].
    + destruct (Resolve_fuel fuel dependents next); [|done].
      injection Hx as <-. simpl. split; [apply wrap_range|done].
    + by injection Hx as <-.
Qed.

Lemma emplace_lookup_old {A} k (v : A) (m : gmap nat A) j w :
  m !! j = Some w -> emplace k v m !! j = Some w.
Proof.
  intros Hj. unfold emplace. destruct (m !! k) eqn:Hk; [done|].
  rewrite lookup_insert_ne; [done|congruence].
Qed.

Lemma emplace_lookup_ne {A} k (v : A) (m : gmap nat A) j :
  k ≠ j -> emplace k v m !! j = m !! j.
Proof.
  intros Hne. unfold emplace. destruct (m !! k); [done|].
  by rewrite lookup_insert_ne.
Qed.

Lemma emplace_lookup_new {A} k (v : A) (m : gmap nat A) :
  m !! k = None -> emplace k v m !! k = Some v.
Proof. intros Hk. unfold emplace. rewrite Hk. apply lookup_insert_eq. Qed.


Lemma recordedEdge_edgeTo base x :
  is_size_t (so_offset base) -> is_size_t (so_offset x) ->
  so_offset x <= so_offset base ->
  recordedEdge base x = edgeTo base x.
Proof.
  intros Hb Hx Hle. unfold recordedEdge, edgeTo, size_sub. f_equal.
  apply wrap_small. unfold is_size_t in *. lia.
Qed.

Lemma recordObjects_old base rs dependents said k v :
  dependents !! k = Some v ->
  (foldl (recordObject ctx base) (dependents, said) rs).1 !! k = Some v.
Proof.
  revert dependents said. induction rs as [|x rs IH]; intros dependents said Hk;
    [done|].
  simpl. repeat case_decide; try by apply IH.
  apply IH. by apply emplace_lookup_old.
Qed.

Lemma recordObjects_base base rs dependents said :
  dependents !! so_symbol base = None ->
  (foldl (recordObject ctx base) (dependents, said) rs).1 !! so_symbol base
  = None.
Proof.
  revert dependents said. induction rs as [|x rs IH]; intros dependents said Hk;
    [done|].
  simpl. repeat case_decide; try by apply IH.
  apply IH. by rewrite emplace_lookup_ne.
Qed.

Lemma recordObjects_first base l1 x l2 dependents said :
  dependents !! so_symbol x = None ->
  so_symbol x ≠ so_symbol base ->
  Forall (fun y => so_symbol y ≠ so_symbol x) l1 ->
  (foldl (recordObject ctx base) (dependents, said) (l1 ++ x :: l2)).1
    !! so_symbol x
  = Some (recordedEdge base x).
Proof.
  intros Hk Hne Hl1. revert dependents said Hk.
  induction Hl1 as [|y l1 Hy _ IH]; intros dependents said Hk; simpl.
  - rewrite decide_False by done.
    apply recordObjects_old. by apply emplace_lookup_new.
  - repeat case_decide; try by apply IH.
    apply IH. by rewrite emplace_lookup_ne.
Qed.

Lemma recordObjects_new base rs dependents said k e :
  (foldl (recordObject ctx base) (dependents, said) rs).1 !! k = Some e ->
  dependents !! k = Some e
  \/ (dependents !! k = None /\ k ≠ so_symbol base
      /\ exists x, x ∈ rs /\ so_symbol x = k /\ e = recordedEdge base x).
Proof.
  revert dependents said. induction rs as [|x rs IH]; intros dependents said;
    simpl; [by left|].
  assert (forall said',
    (foldl (recordObject ctx base) (dependents, said') rs).1 !! k = Some e ->
    dependents !! k = Some e
    \/ (dependents !! k = None /\ k ≠ so_symbol base
        /\ exists y, y ∈ x :: rs /\ so_symbol y = k /\ e = recordedEdge base y))
    as Hskip.
  { intros said' H. destruct (IH _ _ H) as [|(? & ? & y & ? & ? & ?)];
      [by left|right].
    split; [done|]. split; [done|]. exists y. by rewrite elem_of_cons; eauto. }
  repeat case_decide; try by apply Hskip.
  intros Hfold.
  destruct (IH _ _ Hfold) as [Hin|(Hnone & Hk & y & Hy & Hsym & He)].
  - destruct (decide (so_symbol x = k)) as [Hxk|Hxk].
    + destruct (dependents !! k) as [v|] eqn:Hdk.
      * left. rewrite <- Hxk in *.
        by erewrite emplace_lookup_old in Hin by done.
      * right. rewrite <- Hxk in *.
        rewrite emplace_lookup_new in Hin by done. injection Hin as <-.
        split; [done|]. split; [done|].
        exists x. split; [apply list_elem_of_here|done].
    + left. by rewrite emplace_lookup_ne in Hin.
  - right. destruct (decide (so_symbol x = k)) as [Hxk|Hxk].
    + rewrite <- Hxk in *. unfold emplace in Hnone.
      destruct (dependents !! so_symbol x) eqn:Hd; [congruence|].
      by rewrite lookup_insert_eq in Hnone.
    + rewrite emplace_lookup_ne in Hnone by done.
      split; [done|]. split; [done|]. exists y. rewrite elem_of_cons. eauto.
Qed.

Lemma recordObjects_said base rs dependents said :
  (foldl (recordObject ctx base) (dependents, said) rs).2
  = said ++ (conflictMessage ctx base <$> filter (conflicting base) rs).
Proof.
  revert dependents said. induction rs as [|x rs IH]; intros dependents said;
    simpl; [by rewrite app_nil_r|].
  destruct (decide (conflicting base x)) as [[Hsym Hoff]|Hno].
  - rewrite filter_cons_True by done.
    rewrite decide_True, decide_False by done.
    rewrite IH, <- app_assoc. done.
  - rewrite filter_cons_False by done.
    unfold conflicting in Hno.
    repeat case_decide; rewrite IH; try done. tauto.
Qed.

Lemma DoEquivalenceSet_Done set h p h' p' :
  DoEquivalenceSet ctx set h p = Done (h', p') ->
  exists rs r base,
    Forall2 (resolvesTo ctx (dependents_ h)) set rs
    /\ lastMaximal rs r base
    /\ dependents_ h'
       = (foldl (recordObject ctx base) (dependents_ h, []) rs).1
    /\ messages p'
       = messages p ++ (foldl (recordObject ctx base) (dependents_ h, []) rs).2
    /\ offset_ h' = offset_ h /\ alignment_ h' = alignment_ h
    /\ equivalenceBlock_ h' = equivalenceBlock_ h
    /\ symbols p' = symbols p /\ commonBlocks p' = commonBlocks p
    /\ mappedCommonBlocks p' = mappedCommonBlocks p.
Proof.
  unfold DoEquivalenceSet.
  destruct (resolveObjects ctx (dependents_ h) set ([], None))
    as [[rs rep]|] eqn:Hres; [|done].
  cbn [mbind Result_bind].
  destruct (resolveObjects_Done _ _ _ _ _ Hres eq_refl)
    as (new & Hrs & Hall & Hrep).
  simpl in Hrs. subst new.
  destruct rep as [r|]; simpl; [|done].
  destruct Hrep as (base & Hbase). simpl in Hbase.
  pose proof Hbase as (Hr & _). rewrite Hr.
  destruct (foldl _ _ rs) as [dependents said] eqn:Hfold.
  intros [= <- <-]. exists rs, r, base.
  split; [done|]. split; [done|]. rewrite Hfold. by repeat split.
Qed.

Lemma DoEquivalenceSet_total set h p :
  set ≠ [] -> Acyclic (dependents_ h) ->
  Forall (subscriptsInShape ctx) set ->
  exists st, DoEquivalenceSet ctx set h p = Done st.
Proof.
  intros Hne Hacyclic Hall. unfold DoEquivalenceSet.
  destruct (resolveObjects_total (dependents_ h) set ([], None) Hacyclic Hall)
    as [[rs rep] Hres].
  rewrite Hres. cbn [mbind Result_bind].
  destruct (resolveObjects_Done _ _ _ _ _ Hres eq_refl)
    as (new & Hrs & Hall2 & Hrep).
  simpl in Hrs. subst new.
  destruct rep as [r|]; simpl in *.
  - destruct Hrep as (base & Hr & _). simpl in Hr. rewrite Hr.
    destruct (foldl _ _ rs). eauto.
  - unfold representativeOf in Hrep. simpl in Hrep. subst rs.
    apply Forall2_nil_inv_r in Hall2. done.
Qed.

(** What a call of [DoEquivalenceSet] that returns has done. *)
Lemma DoEquivalenceSet_spec set h p h' p' :
  DoEquivalenceSet ctx set h p = Done (h', p') ->
  exists rs r base,
    Forall2 (resolvesTo ctx (dependents_ h)) set rs
    /\ lastMaximal rs r base
    /\ messages p'
       = messages p ++ (conflictMessage ctx base <$> filter (conflicting base) rs)
    /\ (forall k v, dependents_ h !! k = Some v -> dependents_ h' !! k = Some v)
    /\ dependents_ h' !! so_symbol base = None
    /\ (forall i x, rs !! i = Some x ->
          so_symbol x ≠ so_symbol base ->
          (forall j y, (j < i)%nat -> rs !! j = Some y ->
             so_symbol y ≠ so_symbol x) ->
          dependents_ h' !! so_symbol x = Some (edgeTo base x)
          /\ 0 <= so_offset base - so_offset x)
    /\ (forall k e, dependents_ h !! k = None ->
          dependents_ h' !! k = Some e ->
          k ≠ so_symbol base /\ so_symbol e = so_symbol base /\ 0 <= so_offset e).
Proof.
  intros Hdone.
  destruct (DoEquivalenceSet_Done _ _ _ _ _ Hdone)
    as (rs & r & base & Hall & Hbase & Hdeps & Hsaid & _).
  exists rs, r, base.
  assert (forall i x, rs !! i = Some x ->
            dependents_ h !! so_symbol x = None /\ is_size_t (so_offset x))
    as Hroots.
  { intros i x Hx. destruct (Forall2_lookup_r _ _ _ _ _ Hall Hx) as (o & _ & Ho).
    apply resolvesTo_root in Ho. tauto. }
  pose proof Hbase as (Hr & Hmax & _).
  destruct (Hroots _ _ Hr) as [Hbroot Hbsize].
  split; [done|]. split; [done|].
  split; [by rewrite Hsaid, recordObjects_said|].
  rewrite Hdeps. split; [intros k v; apply recordObjects_old|].
  split; [by apply recordObjects_base|]. split.
  - intros i x Hx Hne Hfirst.
    destruct (Hroots _ _ Hx) as [Hxroot Hxsize]. specialize (Hmax _ _ Hx).
    split; [|lia].
    rewrite <- recordedEdge_edgeTo by done.
    rewrite <- (take_drop_middle _ _ _ Hx).
    apply recordObjects_first; [done|done|].
    apply Forall_forall. intros y Hy.
    apply list_elem_of_lookup in Hy as [j Hj].
    pose proof (lookup_lt_Some _ _ _ Hj) as Hlt. rewrite length_take in Hlt.
    rewrite lookup_take_lt in Hj by lia. eapply Hfirst; [|done]. lia.
  - intros k e Hnone He.
    apply recordObjects_new in He as [He|(_ & Hk & x & Hx & _ & ->)];
      [congruence|].
    split; [done|]. split; [done|]. simpl. apply wrap_range.
Qed.

(** C1, as the code has it: for a non-empty equivalence set, the
    representative is the member with the greatest resolved offset, the one
    seen last among those that share it; and every other member that
    resolves to a symbol other than the representative's, and is the first of
    the set to resolve to that symbol, is recorded in the dependency map as
    aliasing the representative's symbol at the representative's offset minus
    its own, which is never negative. *)
Theorem DoEquivalenceSet_representative set h p :
  set ≠ [] -> Acyclic (dependents_ h) ->
  Forall (subscriptsInShape ctx) set ->
  exists rs r base h' p',
    DoEquivalenceSet ctx set h p = Done (h', p')
    /\ Forall2 (resolvesTo ctx (dependents_ h)) set rs
    /\ rs !! r = Some base
    /\ (forall i x, rs !! i = Some x -> so_offset x <= so_offset base)
    /\ (forall i x, rs !! i = Some x -> (r < i)%nat ->
          so_offset x < so_offset base)
    /\ forall i x, rs !! i = Some x ->
         so_symbol x ≠ so_symbol base ->
         (forall j y, (j < i)%nat -> rs !! j = Some y ->
            so_symbol y ≠ so_symbol x) ->
         dependents_ h' !! so_symbol x
         = Some (mkSymbolAndOffset (so_symbol base)
                   (so_offset base - so_offset x) (so_object x))
         /\ 0 <= so_offset base - so_offset x.
Proof.
  intros Hne Hacyclic Hall.
  destruct (DoEquivalenceSet_total set h p Hne Hacyclic Hall) as [[h' p'] Hdone].
  destruct (DoEquivalenceSet_spec _ _ _ _ _ Hdone)
    as (rs & r & base & Hrs & (Hr & Hmax & Hlast) & _ & _ & _ & Hedges & _).
  exists rs, r, base, h', p'.
  split; [done|]. split; [done|]. split; [done|]. split; [done|].
  split; [done|]. exact Hedges.
Qed.

(** C2, as the code has it: whenever a member of an equivalence set resolves
    to the symbol of the set's representative at another offset, an error is
    reported, with the designators of both references when they can be
    derived and the symbol name with the two byte offsets otherwise; no edge
    is recorded for that member; the edges recorded before and the sizes and
    offsets of all symbols stay as they were; and the call goes on: each such
    member has its message and the other members their edges. *)
Theorem DoEquivalenceSet_conflict set h p :
  set ≠ [] -> Acyclic (dependents_ h) ->
  Forall (subscriptsInShape ctx) set ->
  exists rs r base h' p' said,
    DoEquivalenceSet ctx set h p = Done (h', p')
    /\ Forall2 (resolvesTo ctx (dependents_ h)) set rs
    /\ lastMaximal rs r base
    /\ messages p' = messages p ++ said
    /\ (forall x, x ∈ rs ->
          so_symbol x = so_symbol base -> so_offset x ≠ so_offset base ->
          dependents_ h' !! so_symbol x = None
          /\ match OffsetToDesignator ctx (so_symbol x) (so_offset base),
                   OffsetToDesignator ctx (so_symbol x) (so_offset x) with
             | Some dx, Some dy =>
                 ErrSameFirstStorageUnit (eo_source (so_object base)) dx dy
                   (eo_source (so_object x)) ∈ said
             | _, _ =>
                 ErrSameFirstStorageUnitOffsets (eo_source (so_object base))
                   (sym_name (symbolInfo ctx (so_symbol x)))
                   (so_offset base) (so_offset x)
                   (eo_source (so_object x)) ∈ said
             end)
    /\ (forall k v, dependents_ h !! k = Some v -> dependents_ h' !! k = Some v)
    /\ symbols p' = symbols p
    /\ commonBlocks p' = commonBlocks p
    /\ (forall i x, rs !! i = Some x ->
          so_symbol x ≠ so_symbol base ->
          (forall j y, (j < i)%nat -> rs !! j = Some y ->
             so_symbol y ≠ so_symbol x) ->
          dependents_ h' !! so_symbol x = Some (edgeTo base x)).
Proof.
  intros Hne Hacyclic Hall.
  destruct (DoEquivalenceSet_total set h p Hne Hacyclic Hall) as [[h' p'] Hdone].
  destruct (DoEquivalenceSet_spec _ _ _ _ _ Hdone)
    as (rs & r & base & Hrs & Hbase & Hsaid & Hold & Hnobase & Hedges & _).
  destruct (DoEquivalenceSet_Done _ _ _ _ _ Hdone)
    as (_ & _ & _ & _ & _ & _ & _ & _ & _ & _ & Hsymbols & Hblocks & _).
  exists rs, r, base, h', p', (conflictMessage ctx base <$>
                                filter (conflicting base) rs).
  split; [done|]. split; [done|]. split; [done|]. split; [done|].
  split; [|split; [done|split; [done|split; [done|]]]].
  - intros x Hx Hsym Hoff. split; [by rewrite Hsym|].
    assert (conflictMessage ctx base x
            ∈ conflictMessage ctx base <$> filter (conflicting base) rs) as Hin.
    { apply list_elem_of_fmap_2, list_elem_of_filter. by split. }
    unfold conflictMessage in Hin at 1.
    by destruct (OffsetToDesignator ctx (so_symbol x) (so_offset base)),
         (OffsetToDesignator ctx (so_symbol x) (so_offset x)).
  - intros i x Hx Hsym Hfirst. by apply (Hedges i).
Qed.
End DoEquivalenceSetProperties.

Lemma DoEquivalenceSet_representative_witness :
  exists rs r base h' p',
    DoEquivalenceSet Sample.arrays
      [Sample.element 1 "a(3)" [3]; Sample.element 2 "b(1)" [1]]
      newHelper Sample.emptyProgram = Done (h', p')
    /\ Forall2 (resolvesTo Sample.arrays ∅)
         [Sample.element 1 "a(3)" [3]; Sample.element 2 "b(1)" [1]] rs
    /\ rs !! r = Some base
    /\ (forall i x, rs !! i = Some x -> so_offset x <= so_offset base)
    /\ (forall i x, rs !! i = Some x -> (r < i)%nat ->
          so_offset x < so_offset base)
    /\ forall i x, rs !! i = Some x ->
         so_symbol x ≠ so_symbol base ->
         (forall j y, (j < i)%nat -> rs !! j = Some y ->
            so_symbol y ≠ so_symbol x) ->
         dependents_ h' !! so_symbol x
         = Some (mkSymbolAndOffset (so_symbol base)
                   (so_offset base - so_offset x) (so_object x))
         /\ 0 <= so_offset base - so_offset x.
Proof.
  apply (DoEquivalenceSet_representative Sample.arrays
           [Sample.element 1 "a(3)" [3]; Sample.element 2 "b(1)" [1]]
           newHelper Sample.emptyProgram).
  - discriminate.
  - apply Acyclic_empty.
  - repeat constructor; intros _; simpl; lia.
Defined.

(** C1 as stated fails on a tie: of [x] and [y], both at offset 0, the code
    keeps [y], seen last, as the representative and records [x] as its
    alias; the first-seen [x] is not the representative and [y] has no
    edge.  It also fails for a second member that resolves to a symbol
    already recorded: of [a(1)], [a(2)] and the representative [b(3)] at
    offset 8, [a] is recorded at 8 from [a(1)], and not at 4 from [a(2)]. *)
Lemma DoEquivalenceSet_tie_keeps_later :
  resolveObjects Sample.scalars ∅
    [Sample.whole 1 "x"; Sample.whole 2 "y"] ([], None)
  = Done ([mkSymbolAndOffset 1 0 (Sample.whole 1 "x");
           mkSymbolAndOffset 2 0 (Sample.whole 2 "y")], Some 1%nat)
  /\ match DoEquivalenceSet Sample.scalars
             [Sample.whole 1 "x"; Sample.whole 2 "y"]
             newHelper Sample.emptyProgram with
     | Done (h', _) =>
         dependents_ h' !! 2%nat = None
         /\ dependents_ h' !! 1%nat
            = Some (mkSymbolAndOffset 2 0 (Sample.whole 1 "x"))
     | Abort _ => False
     end
  /\ resolveObjects Sample.arrays ∅
       [Sample.element 1 "a(1)" [1]; Sample.element 1 "a(2)" [2];
        Sample.element 2 "b(3)" [3]] ([], None)
     = Done ([mkSymbolAndOffset 1 0 (Sample.element 1 "a(1)" [1]);
              mkSymbolAndOffset 1 4 (Sample.element 1 "a(2)" [2]);
              mkSymbolAndOffset 2 8 (Sample.element 2 "b(3)" [3])],
             Some 2%nat)
  /\ match DoEquivalenceSet Sample.arrays
             [Sample.element 1 "a(1)" [1]; Sample.element 1 "a(2)" [2];
              Sample.element 2 "b(3)" [3]]
             newHelper Sample.emptyProgram with
     | Done (h', _) =>
         dependents_ h' !! 1%nat
         = Some (mkSymbolAndOffset 2 8 (Sample.element 1 "a(1)" [1]))
     | Abort _ => False
     end.
Proof.
  split; [reflexivity|]. split; [vm_compute; split; reflexivity|].
  split; [reflexivity|]. vm_compute. reflexivity.
Qed.

Lemma DoEquivalenceSet_conflict_witness :
  exists rs r base h' p' said,
    DoEquivalenceSet Sample.arrays
      [Sample.element 1 "a(3)" [3]; Sample.element 1 "a(1)" [1]]
      newHelper Sample.emptyProgram = Done (h', p')
    /\ Forall2 (resolvesTo Sample.arrays ∅)
         [Sample.element 1 "a(3)" [3]; Sample.element 1 "a(1)" [1]] rs
    /\ lastMaximal rs r base
    /\ messages p' = said.
Proof.
  destruct (DoEquivalenceSet_conflict Sample.arrays
              [Sample.element 1 "a(3)" [3]; Sample.element 1 "a(1)" [1]]
              newHelper Sample.emptyProgram)
    as (rs & r & base & h' & p' & said & H1 & H2 & H3 & H4 & _).
  - discriminate.
  - apply Acyclic_empty.
  - repeat constructor; intros _; simpl; lia.
  - exists rs, r, base, h', p', said. repeat split; try done; apply H3.
Defined.

(** C2 as stated fails when the two members are not the representative:
    [a(1)] and [a(2)] name [a] at the offsets 0 and 4, the representative is
    [b(3)] at 8; no error is reported and [a] is recorded from [a(1)]
    alone. *)
Lemma DoEquivalenceSet_conflict_off_representative :
  resolveObjects Sample.arrays ∅
    [Sample.element 1 "a(1)" [1]; Sample.element 1 "a(2)" [2];
     Sample.element 2 "b(3)" [3]] ([], None)
  = Done ([mkSymbolAndOffset 1 0 (Sample.element 1 "a(1)" [1]);
           mkSymbolAndOffset 1 4 (Sample.element 1 "a(2)" [2]);
           mkSymbolAndOffset 2 8 (Sample.element 2 "b(3)" [3])], Some 2%nat)
  /\ match DoEquivalenceSet Sample.arrays
             [Sample.element 1 "a(1)" [1]; Sample.element 1 "a(2)" [2];
              Sample.element 2 "b(3)" [3]]
             newHelper Sample.emptyProgram with
     | Done (h', p') =>
         messages p' = []
         /\ dependents_ h' !! 1%nat
            = Some (mkSymbolAndOffset 2 8 (Sample.element 1 "a(1)" [1]))
     | Abort _ => False
     end.
Proof. split; [reflexivity|]. vm_compute. split; reflexivity. Qed.

(** ** The dependency map is acyclic *)

Lemma Acyclic_no_self_edge dependents k dep :
  Acyclic dependents -> dependents !! k = Some dep -> so_symbol dep ≠ k.
Proof.
  intros Hacyclic Hk Heq. destruct (Hacyclic k) as [n Hn].
  pose proof Hn as Hn'.
  inversion Hn' as [? Hnone|? dep' m Hk' Hm Hs Hm']; [congruence|].
  rewrite Hk in Hk'. injection Hk' as <-. rewrite Heq in Hm.
  pose proof (ChainLength_unique _ _ _ _ Hn Hm). lia.
Qed.

(** Edges added at symbols that had none, each to a symbol that has none
    afterwards, keep the map acyclic. *)
Lemma Acyclic_extend dependents dependents' :
  (forall k v, dependents !! k = Some v -> dependents' !! k = Some v) ->
  (forall k e, dependents !! k = None -> dependents' !! k = Some e ->
     dependents' !! so_symbol e = None) ->
  Acyclic dependents -> Acyclic dependents'.
Proof.
  intros Hold Hnew Hacyclic s. destruct (Hacyclic s) as [n Hn].
  induction Hn as [s Hs|s dep n Hs _ [m IH]].
  - destruct (dependents' !! s) as [e|] eqn:Hs'.
    + exists 1%nat. eapply ChainLength_edge; [done|].
      apply ChainLength_base. eauto.
    + exists 0%nat. by apply ChainLength_base.
  - exists (S m). eapply ChainLength_edge; [|done]. eauto.
Qed.

(** Redirecting the edge of [k] to the end of its chain keeps the map
    acyclic. *)
Lemma Acyclic_redirect dependents k r :
  Acyclic dependents ->
  is_Some (dependents !! k) -> dependents !! so_symbol r = None ->
  Acyclic (<[k := r]> dependents).
Proof.
  intros Hacyclic [old Hk] Hr s. destruct (Hacyclic s) as [n Hn].
  assert (so_symbol r ≠ k) as Hne by congruence.
  induction Hn as [s Hs|s dep n Hs _ [m IH]].
  - exists 0%nat. apply ChainLength_base.
    rewrite lookup_insert_ne; [done|congruence].
  - destruct (decide (s = k)) as [->|].
    + exists 1%nat. eapply ChainLength_edge; [apply lookup_insert_eq|].
      apply ChainLength_base. by rewrite lookup_insert_ne.
    + exists (S m). eapply ChainLength_edge; [|done].
      by rewrite lookup_insert_ne.
Qed.

Lemma orderedKeys_elem_of {A} (m : gmap nat A) k :
  k ∈ orderedKeys m <-> is_Some (m !! k).
Proof.
  unfold orderedKeys. rewrite merge_sort_Permutation, elem_of_elements.
  apply elem_of_dom.
Qed.

Lemma orderedKeys_NoDup {A} (m : gmap nat A) : NoDup (orderedKeys m).
Proof.
  unfold orderedKeys. rewrite merge_sort_Permutation. apply NoDup_elements.
Qed.

Section DependentsProperties.
Context (ctx : SemanticsContext).

Lemma linearize_Abort shape subscripts i acc f :
  linearize shape subscripts i acc = Abort f -> f = UndefinedBehaviour.
Proof.
  revert acc. induction i as [|i IH]; intros acc; simpl.
  - destruct (subscripts !! 0%nat), (shape !! 0%nat) as [[]|]; congruence.
  - destruct (subscripts !! S i), (shape !! S i) as [[]|]; try congruence.
    destruct (shape !! i) as [[]|]; [apply IH|congruence].
Qed.

Lemma ComputeOffset_Abort object f :
  ComputeOffset ctx object = Abort f -> f = UndefinedBehaviour.
Proof.
  unfold ComputeOffset.
  destruct (eo_subscripts object) as [|s l] eqn:Hs; cbn [mbind Result_bind].
  - by destruct (eo_substringStart object).
  - destruct (hasObjectEntityDetails _); cbn [mbind Result_bind].
    + destruct (linearize _ _ _ _) as [o|f'] eqn:Hlin; cbn [mbind Result_bind].
      * by destruct (eo_substringStart object).
      * intros [= <-]. by eapply linearize_Abort.
    + by destruct (eo_substringStart object).
Qed.

Lemma resolveObjects_Abort dependents set acc f :
  Acyclic dependents ->
  resolveObjects ctx dependents set acc = Abort f -> f = UndefinedBehaviour.
Proof.
  intros Hacyclic. revert acc. induction set as [|object set IH]; intros acc;
    simpl; [done|].
  destruct (ComputeOffset ctx object) as [offset|f'] eqn:Hoffset;
    cbn [mbind Result_bind].
  - destruct (Resolve_total dependents
                (mkSymbolAndOffset (eo_symbol object) offset object) Hacyclic)
      as (x & -> & _).
    cbn [mbind Result_bind]. apply IH.
  - intros [= <-]. by eapply ComputeOffset_Abort.
Qed.

Lemma DoEquivalenceSet_Abort set h p f :
  Acyclic (dependents_ h) ->
  DoEquivalenceSet ctx set h p = Abort f -> f ≠ NoTermination.
Proof.
  intros Hacyclic. unfold DoEquivalenceSet.
  destruct (resolveObjects ctx (dependents_ h) set ([], None))
    as [[rs rep]|f'] eqn:Hres; cbn [mbind Result_bind].
  - destruct (rep ≫= _); [by destruct (foldl _ _ rs)|]. by intros [= <-].
  - intros [= <-]. by rewrite (resolveObjects_Abort _ _ _ _ Hacyclic Hres).
Qed.

Lemma DoEquivalenceSet_Acyclic set h p h' p' :
  Acyclic (dependents_ h) ->
  DoEquivalenceSet ctx set h p = Done (h', p') ->
  Acyclic (dependents_ h').
Proof.
  intros Hacyclic Hdone.
  destruct (DoEquivalenceSet_spec _ _ _ _ _ _ Hdone)
    as (rs & r & base & _ & _ & _ & Hold & Hbase & _ & Hnew).
  eapply Acyclic_extend; [exact Hold| |exact Hacyclic].
  intros k e Hk He. destruct (Hnew k e Hk He) as (_ & -> & _). done.
Qed.


Lemma DoEquivalenceSets_Acyclic sets st :
  Acyclic (dependents_ st.1) ->
  match DoEquivalenceSets ctx sets st with
  | Done st' => Acyclic (dependents_ st'.1)
  | Abort f => f ≠ NoTermination
  end.
Proof.
  unfold DoEquivalenceSets.
  revert st. induction sets as [|set sets IH]; intros [h p] Hacyclic;
    simpl; [done|].
  destruct (DoEquivalenceSet ctx set h p) as [[h' p']|f] eqn:Hset;
    cbn [mbind Result_bind].
  - apply IH. simpl. by eapply DoEquivalenceSet_Acyclic.
  - by eapply DoEquivalenceSet_Abort.
Qed.

Lemma symbolState_set_size_ne p k v j :
  j ≠ k -> symbolState (set_size k v p) j = symbolState p j.
Proof.
  intros Hne. unfold symbolState, set_size, with_symbols. simpl.
  by rewrite lookup_insert_ne.
Qed.

Lemma resolveDependent_step k h p :
  Acyclic (dependents_ h) -> is_Some (dependents_ h !! k) ->
  match resolveDependent ctx k (h, p) with
  | Done (h', p') =>
      (exists r, dependents_ h' = <[k := r]> (dependents_ h)
                 /\ dependents_ h !! so_symbol r = None)
      /\ forall j, j ≠ k -> symbol_size p' j = symbol_size p j
  | Abort f => f = CheckFailed /\ symbol_size p k ≠ 0
  end.
Proof.
  intros Hacyclic [dep Hk]. unfold resolveDependent. rewrite Hk.
  destruct (Resolve_total _ dep Hacyclic) as (r & -> & Hroot & _).
  cbn [mbind Result_bind]. case_decide as Hsize; [|done].
  split; [by exists r|].
  intros j Hj. unfold symbol_size. by rewrite symbolState_set_size_ne.
Qed.

Lemma resolveDependents_direct ks h p :
  NoDup ks -> (forall k, k ∈ ks -> is_Some (dependents_ h !! k)) ->
  Acyclic (dependents_ h) ->
  match forEach (resolveDependent ctx) ks (h, p) with
  | Done (h', p') =>
      dom (dependents_ h') = dom (dependents_ h)
      /\ Acyclic (dependents_ h')
      /\ forall k, k ∈ ks \/ Direct (dependents_ h) k ->
           Direct (dependents_ h') k
  | Abort f => f = CheckFailed /\ exists k, k ∈ ks /\ symbol_size p k ≠ 0
  end.
Proof.
  revert h p. induction ks as [|k ks IH]; intros h p Hnodup Hkeys Hacyclic.
  - simpl. split; [done|]. split; [done|]. intros k [Hk|Hk]; [|done].
    by apply elem_of_nil in Hk.
  - apply NoDup_cons in Hnodup as [Hk Hnodup]. cbn [forEach].
    pose proof (resolveDependent_step k h p Hacyclic
                  (Hkeys k ltac:(left))) as Hstep.
    destruct (resolveDependent ctx k (h, p)) as [[h1 p1]|f];
      cbn [mbind Result_bind].
    + destruct Hstep as [(r & Hdeps & Hroot) Hsizes].
      assert (is_Some (dependents_ h !! k)) as Hisk by (apply Hkeys; left).
      assert (so_symbol r ≠ k) as Hne.
      { intros Heq. rewrite Heq in Hroot. rewrite Hroot in Hisk.
        by destruct Hisk. }
      assert (forall j, Direct (dependents_ h) j \/ j = k ->
                Direct (dependents_ h1) j) as Hdirect.
      { intros j Hj dep. rewrite Hdeps.
        destruct (decide (j = k)) as [->|Hjk].
        - rewrite lookup_insert_eq. intros [= <-]. by rewrite lookup_insert_ne.
        - rewrite lookup_insert_ne by done. intros Hdep.
          destruct Hj as [Hj|]; [|done]. specialize (Hj _ Hdep).
          rewrite lookup_insert_ne; [done|].
          intros Heq. rewrite <- Heq in Hj. rewrite Hj in Hisk.
          by destruct Hisk. }
      specialize (IH h1 p1 Hnodup). revert IH.
      destruct (forEach (resolveDependent ctx) ks (h1, p1)) as [[h' p']|f];
        intros IH.
      * destruct IH as (Hdom & Hacyclic' & Hall).
        -- intros j Hj. rewrite Hdeps.
           destruct (decide (j = k)) as [->|]; [by rewrite lookup_insert_eq|].
           rewrite lookup_insert_ne by done. apply Hkeys. by right.
        -- rewrite Hdeps. by apply Acyclic_redirect.
        -- split; [|split; [done|]].
           ++ rewrite Hdom, Hdeps. apply dom_insert_lookup_L. done.
           ++ intros j [Hj|Hj].
              ** apply elem_of_cons in Hj as [->|Hj]; apply Hall; auto.
              ** apply Hall. auto.
      * destruct IH as (-> & j & Hj & Hsize).
        -- intros j Hj. rewrite Hdeps.
           destruct (decide (j = k)) as [->|]; [by rewrite lookup_insert_eq|].
           rewrite lookup_insert_ne by done. apply Hkeys. by right.
        -- rewrite Hdeps. by apply Acyclic_redirect.
        -- split; [done|]. exists j. split; [by right|].
           rewrite <- Hsizes; [done|]. intros ->. done.
    + destruct Hstep as [-> Hsize]. split; [done|]. exists k. split; [left|done].
Qed.

(** C10: the dependency map built from the equivalence sets of a scope is
    acyclic.  Each edge [DoEquivalenceSet] records leads from a symbol to a
    different symbol that is not a dependent, before or after the set; so,
    starting from the empty map, the loop over the sets never fails to
    terminate, no symbol depends on itself, every chain of edges ends,
    [Resolve] returns on every entry with a symbol that is not a dependent;
    and the resolution pass of [Compute], which cannot run forever either,
    leaves every dependent mapped directly to a symbol that is not one. *)
Theorem dependents_acyclic sets p :
  (forall set h0 p0 h1 p1 k e,
     DoEquivalenceSet ctx set h0 p0 = Done (h1, p1) ->
     dependents_ h0 !! k = None -> dependents_ h1 !! k = Some e ->
     so_symbol e ≠ k
     /\ dependents_ h0 !! so_symbol e = None
     /\ dependents_ h1 !! so_symbol e = None)
  /\ match DoEquivalenceSets ctx sets (newHelper, p) with
     | Abort f => f ≠ NoTermination
     | Done (h, p') =>
         (forall k dep, dependents_ h !! k = Some dep -> so_symbol dep ≠ k)
         /\ Acyclic (dependents_ h)
         /\ (forall k dep, dependents_ h !! k = Some dep ->
               exists r, Resolve (dependents_ h) dep = Done r
                         /\ dependents_ h !! so_symbol r = None)
         /\ match forEach (resolveDependent ctx)
                    (orderedKeys (dependents_ h)) (h, p') with
            | Abort f =>
                f = CheckFailed
                /\ exists k, is_Some (dependents_ h !! k) /\ symbol_size p' k ≠ 0
            | Done (h', _) =>
                dom (dependents_ h') = dom (dependents_ h)
                /\ forall k dep, dependents_ h' !! k = Some dep ->
                     dependents_ h' !! so_symbol dep = None
            end
     end.
Proof.
  split.
  - intros set h0 p0 h1 p1 k e Hdone Hk He.
    destruct (DoEquivalenceSet_spec _ _ _ _ _ _ Hdone)
      as (rs & r & base & Hrs & (Hr & _) & _ & Hold & Hbase & _ & Hnew).
    destruct (Hnew k e Hk He) as (Hne & Hsym & _). rewrite Hsym.
    split; [done|]. split; [|done].
    destruct (dependents_ h0 !! so_symbol base) eqn:H0; [|done].
    apply Hold in H0. congruence.
  - pose proof (DoEquivalenceSets_Acyclic sets (newHelper, p) Acyclic_empty)
      as Hsets.
    destruct (DoEquivalenceSets ctx sets (newHelper, p)) as [[h p']|f]; [|done].
    simpl in Hsets.
    split; [intros k dep; by apply Acyclic_no_self_edge|].
    split; [done|]. split.
    + intros k dep _. destruct (Resolve_total _ dep Hsets) as (r & ? & ? & _).
      eauto.
    + pose proof (resolveDependents_direct (orderedKeys (dependents_ h)) h p'
                    (orderedKeys_NoDup _)
                    (fun k => proj1 (orderedKeys_elem_of _ k)) Hsets) as Hpass.
      revert Hpass. destruct (forEach _ _ _) as [[h' p'']|f]; intros Hpass.
      * destruct Hpass as (Hdom & _ & Hall). split; [done|].
        intros k dep Hk. apply (Hall k); [|done]. left.
        apply orderedKeys_elem_of. apply elem_of_dom. rewrite <- Hdom.
        apply elem_of_dom. eauto.
      * destruct Hpass as (-> & k & Hk & Hsize). split; [done|].
        exists k. split; [|done]. by apply orderedKeys_elem_of.
Qed.
End DependentsProperties.

(** ** DoCommonBlock *)

Lemma symbolState_set_size p k v j :
  symbolState (set_size k v p) j
  = if decide (k = j)
    then mkSymbolState v (sym_offset (symbolState p k))
           (sym_commonBlock (symbolState p k))
    else symbolState p j.
Proof.
  unfold symbolState, set_size, with_symbols. simpl.
  rewrite lookup_insert. by case_decide.
Qed.

Lemma symbolState_set_offset p k v j :
  symbolState (set_offset k v p) j
  = if decide (k = j)
    then mkSymbolState (sym_size (symbolState p k)) v
           (sym_commonBlock (symbolState p k))
    else symbolState p j.
Proof.
  unfold symbolState, set_offset, with_symbols. simpl.
  rewrite lookup_insert. by case_decide.
Qed.

Lemma symbolState_set_commonBlock p k c j :
  symbolState (set_commonBlock k c p) j
  = if decide (k = j)
    then mkSymbolState (sym_size (symbolState p k))
           (sym_offset (symbolState p k)) (Some c)
    else symbolState p j.
Proof.
  unfold symbolState, set_commonBlock, with_symbols. simpl.
  rewrite lookup_insert. by case_decide.
Qed.

Lemma symbolState_Say p m j : symbolState (Say m p) j = symbolState p j.
Proof. done. Qed.

Lemma symbolState_set_commonBlockLayout p c bytes alignment j :
  symbolState (set_commonBlockLayout c bytes alignment p) j = symbolState p j.
Proof. done. Qed.

Lemma symbolState_MapCommonBlockAndCheckConflicts p c j :
  symbolState (MapCommonBlockAndCheckConflicts c p) j = symbolState p j.
Proof. done. Qed.

Section DoCommonBlockProperties.
Context (ctx : SemanticsContext).

Lemma DoSymbol_dependents symbol newAlign h p :
  dependents_ (DoSymbol ctx symbol newAlign h p).1.2 = dependents_ h
  /\ equivalenceBlock_ (DoSymbol ctx symbol newAlign h p).1.2
     = equivalenceBlock_ h
  /\ messages (DoSymbol ctx symbol newAlign h p).2 = messages p
  /\ commonBlocks (DoSymbol ctx symbol newAlign h p).2 = commonBlocks p
  /\ mappedCommonBlocks (DoSymbol ctx symbol newAlign h p).2
     = mappedCommonBlocks p.
Proof.
  unfold DoSymbol. destruct (_ && _); [done|]. by case_decide.
Qed.

(** C4: a member of a COMMON block whose dependency edge leads to a base
    symbol [B] that is a data object in no COMMON block.  When the offset of
    the edge exceeds the offset the member was given (the offset [B] would
    need, the member's minus the edge's, is negative), the
    cannot-backward-extend error is reported and [B] is not adopted.
    Otherwise [B] joins this block at the member's offset minus the edge's,
    is marked as placed ([previous]), nothing is reported, and the extent of
    the EQUIVALENCE block of [B], if it has one, goes into the minimum size
    and alignment of the COMMON block. *)
Theorem DoCommonBlock_equivalenced_base commonBlock st symbol dep padding h p :
  DoSymbol ctx (GetUltimate (symbolInfo ctx symbol)) None
    (cl_helper st) (cl_program st) = (padding, h, p) ->
  let p1 :=
    if decide (padding = 0) then p
    else Say (WarnCommonBlockPadding (errorSite ctx commonBlock symbol)
                (cb_name (commonBlockInfo ctx commonBlock)) padding
                (sym_name (symbolInfo ctx symbol))) p in
  let base := so_symbol dep in
  dependents_ (cl_helper st) !! symbol = Some dep ->
  FindCommonBlockContaining ctx p1 base = None ->
  hasObjectEntityDetails (symbolInfo ctx base) = true ->
  is_size_t (so_offset dep) -> is_size_t (symbol_offset p1 symbol) ->
  exists st', DoCommonBlock_object ctx commonBlock st symbol = Done st'
    /\ cl_helper st' = h
    /\ if decide (symbol_offset p1 symbol - so_offset dep < 0) then
         cl_program st'
         = Say (ErrBackwardExtend (errorSite ctx commonBlock symbol)
                  (sym_name (symbolInfo ctx symbol))
                  (cb_name (commonBlockInfo ctx commonBlock))
                  (sym_name (symbolInfo ctx base))) p1
         /\ FindCommonBlockContaining ctx (cl_program st') base = None
         /\ previous st' = previous st ∪ {[symbol]}
         /\ minSize st' = minSize st /\ minAlignment st' = minAlignment st
       else
         FindCommonBlockContaining ctx (cl_program st') base = Some commonBlock
         /\ symbol_offset (cl_program st') base
            = symbol_offset p1 symbol - so_offset dep
         /\ messages (cl_program st') = messages p1
         /\ previous st' = previous st ∪ {[symbol]} ∪ {[base]}
         /\ match equivalenceBlock_ h !! base with
            | Some blockInfo =>
                minSize st'
                = Z.max (minSize st)
                    (Z.max (offset_ h)
                       (size_add (symbol_offset (cl_program st') base)
                          (sa_size blockInfo)))
                /\ minAlignment st'
                   = Z.max (minAlignment st) (sa_alignment blockInfo)
            | None =>
                minSize st' = minSize st /\ minAlignment st' = minAlignment st
            end.
Proof.
  intros Hsym p1 base Hdep Hnone Hobj Hdepsize Hsymsize.
  pose proof (DoSymbol_dependents (GetUltimate (symbolInfo ctx symbol)) None
                (cl_helper st) (cl_program st)) as (Hd & _).
  rewrite Hsym in Hd. simpl in Hd.
  unfold DoCommonBlock_object. rewrite Hsym.
  fold (errorSite ctx commonBlock symbol). fold p1.
  rewrite Hd, Hdep. fold base. rewrite Hnone.
  destruct (decide (symbol_offset p1 symbol < so_offset dep)) as [Hlt|Hge].
  - cbn [mbind Result_bind]. unfold foldEquivalenceBlock. simpl.
    eexists. split; [done|]. simpl. split; [done|].
    rewrite decide_True by lia. by repeat split.
  - rewrite Hobj. cbn [mbind Result_bind].
    assert (size_sub (symbol_offset p1 symbol) (so_offset dep)
            = symbol_offset p1 symbol - so_offset dep) as Hsub.
    { apply wrap_small. unfold is_size_t in *. lia. }
    rewrite Hsub.
    set (p2 := set_offset base _ _).
    assert (symbol_offset p2 base = symbol_offset p1 symbol - so_offset dep)
      as Hoff.
    { unfold symbol_offset, p2. rewrite symbolState_set_offset.
      by rewrite decide_True. }
    assert (FindCommonBlockContaining ctx p2 base = Some commonBlock) as Hfind.
    { unfold FindCommonBlockContaining, p2. rewrite Hobj.
      rewrite symbolState_set_offset, decide_True by done. simpl.
      rewrite symbolState_set_commonBlock, decide_True by done. done. }
    unfold foldEquivalenceBlock.
    destruct (equivalenceBlock_ h !! base) as [blockInfo|] eqn:Heq; simpl;
      rewrite ?Heq; simpl; eexists; (split; [done|]); simpl;
      (split; [done|]); rewrite decide_False by lia; by repeat split.
Qed.

Lemma DoSymbol_storedObject symbol bytes alignment h p :
  storedObject ctx symbol bytes alignment -> bytes ≠ 0 ->
  DoSymbol ctx symbol None h p
  = let aligned :=
      Align (maxAlignment (targetCharacteristics ctx)) (offset_ h) alignment in
    (size_sub aligned (offset_ h),
     with_alignment_ (Z.max (alignment_ h) alignment)
       (with_offset_ (size_add aligned bytes) h),
     set_offset symbol aligned (set_size symbol bytes p)).
Proof.
  intros (_ & Hobj & Hsize) Hbytes. unfold DoSymbol.
  rewrite Hobj, Hsize. simpl. by rewrite decide_False.
Qed.

(** A member of a COMMON block that is in no EQUIVALENCE is placed by
    [DoSymbol], with a warning when that took padding. *)
Lemma DoCommonBlock_object_not_equivalenced commonBlock st symbol bytes
    alignment :
  storedObject ctx symbol bytes alignment -> bytes ≠ 0 ->
  dependents_ (cl_helper st) !! symbol = None ->
  equivalenceBlock_ (cl_helper st) !! symbol = None ->
  DoCommonBlock_object ctx commonBlock st symbol
  = let h := cl_helper st in
    let aligned :=
      Align (maxAlignment (targetCharacteristics ctx)) (offset_ h) alignment in
    let padding := size_sub aligned (offset_ h) in
    let p := set_offset symbol aligned (set_size symbol bytes (cl_program st)) in
    Done (mkCommonBlockLoop
            (with_alignment_ (Z.max (alignment_ h) alignment)
               (with_offset_ (size_add aligned bytes) h))
            (if decide (padding = 0) then p
             else Say (WarnCommonBlockPadding (errorSite ctx commonBlock symbol)
                         (cb_name (commonBlockInfo ctx commonBlock)) padding
                         (sym_name (symbolInfo ctx symbol))) p)
            (minSize st) (minAlignment st) (previous st ∪ {[symbol]})).
Proof.
  intros Hstored Hbytes Hd He. unfold DoCommonBlock_object.
  rewrite (proj1 Hstored), (DoSymbol_storedObject symbol bytes alignment)
    by done.
  cbn [dependents_ equivalenceBlock_ with_alignment_ with_offset_].
  rewrite Hd, He. reflexivity.
Qed.

(** C5: a COMMON block of a 4-byte integer [A] of alignment 4 followed by an
    8-byte real [B] of alignment 8, neither in an EQUIVALENCE, on a target
    whose maximum alignment is at least 8: [A] is at offset 0 with size 4,
    one warning tells of 4 bytes of padding before [B], [B] is at offset 8
    with size 8, and the block has size 16 and alignment 8. *)
Theorem DoCommonBlock_integer_then_real commonBlock A B h p :
  cb_objects (commonBlockInfo ctx commonBlock) = [A; B] ->
  A ≠ B ->
  storedObject ctx A 4 4 -> storedObject ctx B 8 8 ->
  8 <= maxAlignment (targetCharacteristics ctx) ->
  dependents_ h !! A = None -> dependents_ h !! B = None ->
  equivalenceBlock_ h !! A = None -> equivalenceBlock_ h !! B = None ->
  exists h' p',
    DoCommonBlock ctx commonBlock h p = Done (h', p')
    /\ symbol_offset p' A = 0 /\ symbol_size p' A = 4
    /\ symbol_offset p' B = 8 /\ symbol_size p' B = 8
    /\ messages p'
       = messages p
         ++ [WarnCommonBlockPadding (errorSite ctx commonBlock B)
               (cb_name (commonBlockInfo ctx commonBlock)) 4
               (sym_name (symbolInfo ctx B))]
    /\ commonBlocks p' !! commonBlock = Some (mkCommonBlockState 16 8).
Proof.
  intros Hobjects Hne HA HB Hmax HdA HdB HeA HeB.
  assert (Align (maxAlignment (targetCharacteristics ctx)) 0 4 = 0) as Halign0.
  { unfold Align. by rewrite Z.min_l by lia. }
  assert (Align (maxAlignment (targetCharacteristics ctx)) 4 8 = 8) as Halign4.
  { unfold Align. by rewrite Z.min_l by lia. }
  unfold DoCommonBlock. rewrite Hobjects. cbn [DoCommonBlock_objects].
  rewrite (DoCommonBlock_object_not_equivalenced _ _ A 4 4) by done.
  cbn [mbind Result_bind cl_helper cl_program offset_ with_offset_
       with_alignment_ alignment_ dependents_ equivalenceBlock_ minSize
       minAlignment previous].
  rewrite Halign0. change (size_sub 0 0) with 0. change (size_add 0 4) with 4.
  rewrite decide_True by done.
  rewrite (DoCommonBlock_object_not_equivalenced _ _ B 8 8) by done.
  cbn [mbind Result_bind cl_helper cl_program offset_ with_offset_
       with_alignment_ alignment_ dependents_ equivalenceBlock_ minSize
       minAlignment previous].
  rewrite Halign4. change (size_sub 8 4) with 4. change (size_add 8 8) with 16.
  rewrite decide_False by done.
  eexists _, _. split; [reflexivity|].
  unfold symbol_offset, symbol_size.
  rewrite !symbolState_MapCommonBlockAndCheckConflicts,
    !symbolState_set_commonBlockLayout, !symbolState_Say,
    !symbolState_set_offset, !symbolState_set_size.
  rewrite !(decide_False (P := B = A)), !decide_True by done.
  cbn [sym_offset sym_size].
  rewrite !symbolState_set_offset, !symbolState_set_size.
  rewrite !decide_True by done. cbn [sym_offset sym_size].
  split; [done|]. split; [done|]. split; [done|]. split; [done|].
  split; [done|]. cbn. apply lookup_insert_eq.
Qed.
End DoCommonBlockProperties.

Lemma DoCommonBlock_equivalenced_base_witness :
  exists st',
    DoCommonBlock_object Sample.commonIntegerReal 7
      (Sample.equivalencedMember 4) 3 = Done st'
    /\ FindCommonBlockContaining Sample.commonIntegerReal (cl_program st') 4
       = Some 7%nat
    /\ symbol_offset (cl_program st') 4 = 4
    /\ minSize st' = 16.
Proof.
  destruct (DoCommonBlock_equivalenced_base Sample.commonIntegerReal 7
              (Sample.equivalencedMember 4) 3
              (mkSymbolAndOffset 4 4 (Sample.whole 3 "a"))
              0
              (mkHelper 12 4
                 {[ 3%nat := mkSymbolAndOffset 4 4 (Sample.whole 3 "a") ]}
                 {[ 4%nat := mkSizeAndAlignment 12 8 ]})
              (mkProgram {[ 3%nat := mkSymbolState 4 8 (Some 7%nat) ]} ∅ [] []))
    as (st' & Hdone & _ & Hthen).
  - reflexivity.
  - reflexivity.
  - reflexivity.
  - reflexivity.
  - split; [discriminate|reflexivity].
  - split; [discriminate|reflexivity].
  - exists st'. split; [exact Hdone|].
    destruct Hthen as (Hfind & Hoff & _ & _ & Hmin & _).
    split; [exact Hfind|]. split; [exact Hoff|].
    rewrite Hmin, Hoff. reflexivity.
Defined.

Lemma DoCommonBlock_integer_then_real_witness :
  exists h' p',
    DoCommonBlock Sample.commonIntegerReal 7 newHelper
      Sample.inCommonIntegerReal = Done (h', p')
    /\ symbol_offset p' 3 = 0 /\ symbol_size p' 3 = 4
    /\ symbol_offset p' 4 = 8 /\ symbol_size p' 4 = 8
    /\ messages p' = [WarnCommonBlockPadding "c" "c" 4 "b"]
    /\ commonBlocks p' !! 7%nat = Some (mkCommonBlockState 16 8).
Proof.
  apply (DoCommonBlock_integer_then_real Sample.commonIntegerReal 7 3 4
           newHelper Sample.inCommonIntegerReal).
  - reflexivity.
  - discriminate.
  - repeat split.
  - repeat split.
  - simpl. lia.
  - reflexivity.
  - reflexivity.
  - reflexivity.
  - reflexivity.
Defined.

(** ** Compute *)

(** Induction on the scope tree. *)
Lemma Scope_tree_ind (P : Scope -> Prop) :
  (forall scope, Forall P (scope_children scope) -> P scope) ->
  forall scope, P scope.
Proof.
  intros Hstep. fix IH 1. intros scope. apply Hstep.
  destruct scope as [? ? ? ? ? ? ? ? children]. simpl.
  induction children as [|child children IHchildren]; constructor.
  - apply IH.
  - apply IHchildren.
Qed.

Section ComputeProperties.
Context (ctx : SemanticsContext).

Lemma Compute_unfold scope p :
  Compute ctx scope p
  = '(children, p) ← ComputeChildren ctx (scope_children scope) p;
    let scope := with_children children scope in
    if bool_decide (is_Some (scope_symbol scope))
       && IsDerivedTypeWithKindParameter scope
    then Done (scope, p)
    else if bool_decide (is_Some (scope_alignment scope))
    then Done (scope, p)
    else layoutScope ctx scope p.
Proof. by destruct scope. Qed.

Lemma layoutScope_Done scope p scope' p' :
  layoutScope ctx scope p = Done (scope', p') ->
  exists cursor alignment,
    scope'
    = with_layout
        (Align (maxAlignment (targetCharacteristics ctx)) cursor alignment)
        alignment scope.
Proof.
  unfold layoutScope.
  destruct (DoEquivalenceSets _ _ _) as [st1|]; [|done].
  cbn [mbind Result_bind].
  destruct (forEach (resolveDependent ctx) _ _) as [st2|]; [|done].
  cbn [mbind Result_bind].
  destruct (foldl _ (foldl _ _ _) _) as [h p1].
  cbn [offset_ alignment_ with_offset_].
  destruct (if decide _ then _ else _) as [st3|]; [|done].
  cbn [mbind Result_bind].
  destruct (forEach (commitDependent ctx) _ _) as [[h4 p4]|]; [|done].
  cbn [mbind Result_bind]. intros [= <- <-]. eauto.
Qed.

Lemma with_children_same scope : with_children (scope_children scope) scope = scope.
Proof. by destruct scope. Qed.

Lemma returnsEarly_with_children children scope :
  returnsEarly (with_children children scope) = returnsEarly scope.
Proof. done. Qed.

Lemma Compute_returnsEarly scope p :
  returnsEarly scope = true ->
  Compute ctx scope p
  = '(children, p) ← ComputeChildren ctx (scope_children scope) p;
    Done (with_children children scope, p).
Proof.
  intros Hearly. rewrite Compute_unfold.
  destruct (ComputeChildren ctx (scope_children scope) p) as [[children p']|];
    [|done].
  cbn [mbind Result_bind]. cbv zeta.
  unfold returnsEarly in Hearly.
  change (scope_symbol (with_children children scope)) with (scope_symbol scope).
  change (IsDerivedTypeWithKindParameter (with_children children scope))
    with (IsDerivedTypeWithKindParameter scope).
  change (scope_alignment (with_children children scope))
    with (scope_alignment scope).
  destruct (_ && _); [done|]. simpl in Hearly. by rewrite Hearly.
Qed.

Lemma Compute_lays_out scope p :
  returnsEarly scope = false ->
  Compute ctx scope p
  = '(children, p) ← ComputeChildren ctx (scope_children scope) p;
    layoutScope ctx (with_children children scope) p.
Proof.
  intros Hearly. rewrite Compute_unfold.
  destruct (ComputeChildren ctx (scope_children scope) p) as [[children p']|];
    [|done].
  cbn [mbind Result_bind]. cbv zeta.
  unfold returnsEarly in Hearly. apply orb_false_elim in Hearly as [Hk Ha].
  change (scope_symbol (with_children children scope)) with (scope_symbol scope).
  change (IsDerivedTypeWithKindParameter (with_children children scope))
    with (IsDerivedTypeWithKindParameter scope).
  change (scope_alignment (with_children children scope))
    with (scope_alignment scope).
  by rewrite Hk, Ha.
Qed.

(** A tree whose scopes all return early is left as it is. *)
Lemma Compute_Processed scope p :
  Processed scope -> Compute ctx scope p = Done (scope, p).
Proof.
  revert p. induction scope as [scope IH] using Scope_tree_ind.
  intros p Hprocessed. inversion Hprocessed as [? Hearly Hchildren]; subst.
  rewrite Compute_returnsEarly by done.
  assert (ComputeChildren ctx (scope_children scope) p
          = Done (scope_children scope, p)) as ->.
  { clear Hprocessed Hearly. revert p.
    induction (scope_children scope) as [|child children IHchildren];
      intros p; [done|].
    apply Forall_cons in IH as [IHchild IH].
    apply Forall_cons in Hchildren as [Hchild Hchildren].
    cbn [ComputeChildren]. rewrite IHchild by done. cbn [mbind Result_bind].
    rewrite IHchildren by done. done. }
  cbn [mbind Result_bind]. by rewrite with_children_same.
Qed.

(** After [Compute] every scope of the tree returns early. *)
Lemma Compute_makes_Processed scope p scope' p' :
  Compute ctx scope p = Done (scope', p') -> Processed scope'.
Proof.
  revert p scope' p'. induction scope as [scope IH] using Scope_tree_ind.
  intros p scope' p'. rewrite Compute_unfold.
  destruct (ComputeChildren ctx (scope_children scope) p)
    as [[children p1]|] eqn:Hchildren; [|done].
  cbn [mbind Result_bind]. cbv zeta.
  assert (Forall Processed children) as Hall.
  { clear scope'. revert p children p1 Hchildren.
    induction (scope_children scope) as [|child rest IHrest];
      intros p children p1; cbn [ComputeChildren].
    - intros [= <- <-]. constructor.
    - apply Forall_cons in IH as [IHchild IH].
      destruct (Compute ctx child p) as [[child' p2]|] eqn:Hchild; [|done].
      cbn [mbind Result_bind].
      destruct (ComputeChildren ctx rest p2) as [[rest' p3]|] eqn:Hrest;
        [|done].
      cbn [mbind Result_bind]. intros [= <- <-].
      constructor; [by eapply IHchild|by eapply IHrest]. }
  destruct (_ && _) eqn:Hkind.
  { intros [= <- <-]. constructor; [|done].
    unfold returnsEarly. cbn in Hkind |- *. by rewrite Hkind. }
  destruct (bool_decide (is_Some (scope_alignment _))) eqn:Halign.
  { intros [= <- <-]. constructor; [|done].
    unfold returnsEarly. cbn in Halign |- *. rewrite Halign.
    apply orb_true_r. }
  intros Hlayout. apply layoutScope_Done in Hlayout as (cursor & a & ->).
  constructor; [|done]. unfold returnsEarly. cbn. apply orb_true_r.
Qed.

(** C7, as the code has it: a second call of the computation on a scope
    that a first call has processed changes nothing, neither the sizes and
    alignments of the scopes nor the symbols, the COMMON blocks or the
    messages.  On a scope that has an alignment recorded, or is a derived
    type with kind parameters, the computation still visits the children
    first, and then returns without touching the scope itself; it is without
    effect when the scope has no children. *)
Theorem Compute_twice scope p :
  (forall scope' p',
     Compute ctx scope p = Done (scope', p') ->
     Compute ctx scope' p' = Done (scope', p'))
  /\ (returnsEarly scope = true ->
      Compute ctx scope p
      = '(children, p) ← ComputeChildren ctx (scope_children scope) p;
        Done (with_children children scope, p))
  /\ (returnsEarly scope = true -> scope_children scope = [] ->
      Compute ctx scope p = Done (scope, p)).
Proof.
  split; [|split].
  - intros scope' p' Hdone. apply Compute_Processed.
    by eapply Compute_makes_Processed.
  - apply Compute_returnsEarly.
  - intros Hearly Hnone. apply Compute_Processed. constructor; [done|].
    rewrite Hnone. constructor.
Qed.

(** What [Align] gives the size of a scope that is laid out: a multiple of
    the alignment recorded for the scope clamped to the maximum alignment of
    the target, provided that is a power of two; so a multiple of the
    recorded alignment itself when this is a power of two that does not
    exceed the maximum alignment of the target. *)
Theorem Compute_size_multiple_of_alignment scope p scope' p' alignment :
  returnsEarly scope = false ->
  Compute ctx scope p = Done (scope', p') ->
  scope_alignment scope' = Some alignment ->
  power_of_two (Z.min alignment (maxAlignment (targetCharacteristics ctx))) ->
  (Z.min alignment (maxAlignment (targetCharacteristics ctx))
   | scope_size scope')
  /\ (alignment <= maxAlignment (targetCharacteristics ctx) ->
      (alignment | scope_size scope')).
Proof.
  intros Hearly Hdone Halign Hpow.
  rewrite Compute_lays_out in Hdone by done.
  destruct (ComputeChildren ctx (scope_children scope) p)
    as [[children p1]|]; [|done].
  cbn [mbind Result_bind] in Hdone.
  apply layoutScope_Done in Hdone as (cursor & a & ->).
  cbn in Halign |- *. injection Halign as ->.
  pose proof (Align_divide _ cursor _ Hpow) as Hdiv.
  split; [done|]. intros Hmax. by rewrite Z.min_l in Hdiv by lia.
Qed.
End ComputeProperties.

Lemma Compute_twice_witness :
  match Compute Sample.scalars Sample.leafScope Sample.emptyProgram with
  | Done (scope', p') => Compute Sample.scalars scope' p' = Done (scope', p')
  | Abort _ => True
  end.
Proof.
  pose proof (proj1 (Compute_twice Sample.scalars Sample.leafScope
                       Sample.emptyProgram)) as H.
  destruct (Compute Sample.scalars Sample.leafScope Sample.emptyProgram)
    as [[scope' p']|]; [|exact I].
  apply H. reflexivity.
Defined.

(** C7 as stated fails on a scope that has an alignment recorded and a child
    that has none: the call lays the child out, which gives the symbol of
    the child its size. *)
Lemma Compute_aligned_scope_has_effects :
  returnsEarly Sample.alignedParent = true
  /\ symbol_size Sample.emptyProgram 1 = 0
  /\ match Compute Sample.scalars Sample.alignedParent Sample.emptyProgram with
     | Done (scope', p') =>
         symbol_size p' 1 = 4
         /\ scope_children scope'
            = [mkScope Subprogram None false 4 (Some 4) [1%nat] [] [] []]
     | Abort _ => False
     end.
Proof. split; [reflexivity|]. split; [reflexivity|]. vm_compute. done. Qed.

Lemma Compute_size_multiple_of_alignment_witness :
  match Compute Sample.scalars Sample.leafScope Sample.emptyProgram with
  | Done (scope', _) => (4 | scope_size scope')
  | Abort _ => True
  end.
Proof.
  destruct (Compute Sample.scalars Sample.leafScope Sample.emptyProgram)
    as [[scope' p']|] eqn:H; [|exact I].
  refine (proj1 (Compute_size_multiple_of_alignment Sample.scalars
                   Sample.leafScope Sample.emptyProgram scope' p' 4
                   eq_refl H _ _)).
  - vm_compute in H. injection H as <- _. reflexivity.
  - exists 2. split; [lia|reflexivity].
Defined.

(** C8: the size recorded for a scope is to be a multiple of the alignment
    recorded for it, and the comment before the last [Align] of [Compute]
    says so (ensure that the size is a multiple of the alignment).  The code
    misses it when the alignment of a symbol exceeds the maximum alignment
    of the target: [Align] clamps the alignment to the maximum, 8, and
    rounds the size to it, while [SetAlignment] records [alignment_]
    unclamped, 16.  The scope of one symbol of size 8 and alignment 16 gets
    the size 8 and the alignment 16. *)
Lemma Compute_size_not_multiple_when_overaligned :
  match Compute Sample.overaligned Sample.leafScope Sample.emptyProgram with
  | Done (scope', _) =>
      scope_size scope' = 8 /\ scope_alignment scope' = Some 16
      /\ ¬ (16 | scope_size scope')
  | Abort _ => False
  end.
Proof.
  destruct (Compute Sample.overaligned Sample.leafScope Sample.emptyProgram)
    as [[scope' p']|] eqn:H; vm_compute in H; [|discriminate].
  injection H as <- _. cbn [scope_size scope_alignment].
  split; [done|]. split; [done|]. intros [q Hq]. lia.
Qed.

(** ** The order of the equivalence sets *)

Section PermutationProperties.
Context (ctx : SemanticsContext).

Lemma resolveObjects_roots dependents set acc :
  (forall o, o ∈ set -> dependents !! eo_symbol o = None) ->
  resolveObjects ctx dependents set acc = resolveObjects ctx ∅ set acc.
Proof.
  revert acc. induction set as [|object set IH]; intros acc Hroots; [done|].
  simpl. destruct (ComputeOffset ctx object) as [offset|]; [|done].
  cbn [mbind Result_bind].
  rewrite !Resolve_root; [|done|apply Hroots; left].
  cbn [mbind Result_bind]. apply IH. intros o Ho. apply Hroots. by right.
Qed.

Lemma resolveObjects_empty_symbols set acc rs rep :
  resolveObjects ctx ∅ set acc = Done (rs, rep) ->
  so_symbol <$> rs = (so_symbol <$> acc.1) ++ (eo_symbol <$> set).
Proof.
  revert acc. induction set as [|object set IH]; intros acc; simpl.
  - intros [= ->]. by rewrite app_nil_r.
  - destruct (ComputeOffset ctx object) as [offset|]; [|done].
    cbn [mbind Result_bind]. rewrite Resolve_root by done.
    cbn [mbind Result_bind]. intros Hrest. rewrite (IH _ Hrest).
    rewrite noteResolved_fst, fmap_app, <- app_assoc. done.
Qed.

Lemma recordObjects_union base rs dependents edges said :
  (forall x, x ∈ rs -> dependents !! so_symbol x = None) ->
  foldl (recordObject ctx base) (edges ∪ dependents, said) rs
  = ((foldl (recordObject ctx base) (edges, said) rs).1 ∪ dependents,
     (foldl (recordObject ctx base) (edges, said) rs).2).
Proof.
  revert edges said. induction rs as [|x rs IH]; intros edges said Hroots;
    [done|].
  assert (forall x, x ∈ rs -> dependents !! so_symbol x = None) as Hrest
    by (intros y Hy; apply Hroots; by right).
  simpl. repeat case_decide; try by apply IH.
  rewrite <- IH by done. f_equal. f_equal. unfold emplace.
  rewrite lookup_union_l by (apply Hroots; left).
  destruct (edges !! so_symbol x); [done|]. by rewrite insert_union_l.
Qed.

Lemma NoDup_fmap_lookup {A B} (f : A -> B) (l : list A) i j x y :
  NoDup (f <$> l) -> l !! i = Some x -> l !! j = Some y -> f x = f y -> i = j.
Proof.
  intros Hnodup Hi Hj Heq.
  eapply NoDup_lookup; [exact Hnodup| |].
  - rewrite list_lookup_fmap, Hi. done.
  - rewrite list_lookup_fmap, Hj. simpl. by rewrite Heq.
Qed.

Lemma no_conflicting base rs r :
  NoDup (so_symbol <$> rs) -> rs !! r = Some base ->
  filter (conflicting base) rs = [].
Proof.
  intros Hnodup Hr. apply elem_of_nil_inv. intros x Hx.
  apply list_elem_of_filter in Hx as [[Hsym Hoff] Hx].
  apply list_elem_of_lookup in Hx as [i Hi].
  pose proof (NoDup_fmap_lookup _ _ _ _ _ _ Hnodup Hi Hr Hsym) as ->.
  congruence.
Qed.

Lemma Program_say_nothing p :
  mkProgram (symbols p) (commonBlocks p) (messages p ++ [])
    (mappedCommonBlocks p) = p.
Proof. destruct p. simpl. by rewrite app_nil_r. Qed.

(** On symbols that have no edge and are named once, [DoEquivalenceSet]
    adds the edges of the set to the map and says nothing. *)
Lemma DoEquivalenceSet_fresh set h p :
  (forall o, o ∈ set -> dependents_ h !! eo_symbol o = None) ->
  NoDup (eo_symbol <$> set) ->
  DoEquivalenceSet ctx set h p
  = edges ← edgesOf ctx set;
    Done (with_dependents_ (edges ∪ dependents_ h) h, p).
Proof.
  intros Hroots Hnodup. unfold DoEquivalenceSet, edgesOf.
  rewrite resolveObjects_roots by done.
  destruct (resolveObjects ctx ∅ set ([], None)) as [[rs rep]|] eqn:Hres;
    [|done].
  cbn [mbind Result_bind].
  destruct (rep ≫= _) as [base|] eqn:Hbase; [|done].
  cbn [mbind Result_bind].
  pose proof (resolveObjects_empty_symbols _ _ _ _ Hres) as Hsyms.
  simpl in Hsyms.
  rewrite <- (left_id_L ∅ (∪) (dependents_ h)) at 1.
  rewrite recordObjects_union.
  - rewrite recordObjects_said.
    destruct rep as [r|]; [|done]. simpl in Hbase.
    rewrite (no_conflicting base rs r) by (by rewrite ?Hsyms).
    simpl. by rewrite Program_say_nothing.
  - intros x Hx.
    assert (so_symbol x ∈ eo_symbol <$> set) as Hin
      by (rewrite <- Hsyms; by apply list_elem_of_fmap_2).
    apply list_elem_of_fmap in Hin as (o & -> & Ho). by apply Hroots.
Qed.

Lemma edgesOf_dom set edges k :
  edgesOf ctx set = Done edges -> is_Some (edges !! k) ->
  k ∈ eo_symbol <$> set.
Proof.
  unfold edgesOf.
  destruct (resolveObjects ctx ∅ set ([], None)) as [[rs rep]|] eqn:Hres;
    [|done].
  cbn [mbind Result_bind].
  destruct (rep ≫= _) as [base|]; [|done].
  intros [= <-] [e He].
  apply recordObjects_new in He as [He|(_ & _ & x & Hx & <- & _)].
  - by rewrite lookup_empty in He.
  - pose proof (resolveObjects_empty_symbols _ _ _ _ Hres) as Hsyms.
    simpl in Hsyms. rewrite <- Hsyms. by apply list_elem_of_fmap_2.
Qed.

Lemma namedSymbols_cons set sets :
  namedSymbols (set :: sets) = (eo_symbol <$> set) ++ namedSymbols sets.
Proof. done. Qed.

Lemma DoEquivalenceSets_cons set sets st :
  DoEquivalenceSets ctx (set :: sets) st
  = st ← DoEquivalenceSet ctx set st.1 st.2; DoEquivalenceSets ctx sets st.
Proof. by destruct st. Qed.

Lemma DoEquivalenceSets_Permutation sets sets' :
  Permutation sets sets' ->
  forall h p st,
    NoDup (namedSymbols sets) ->
    (forall k, k ∈ namedSymbols sets -> dependents_ h !! k = None) ->
    DoEquivalenceSets ctx sets (h, p) = Done st ->
    DoEquivalenceSets ctx sets' (h, p) = Done st.
Proof.
  induction 1 as [|x l l' Hperm IH|x y l|l l' l'' Hperm1 IH1 Hperm2 IH2];
    intros h p st Hnodup Hroots.
  - done.
  - rewrite !DoEquivalenceSets_cons. cbn [fst snd].
    rewrite namedSymbols_cons in Hnodup, Hroots.
    apply NoDup_app in Hnodup as (Hx & Hdisjoint & Hl).
    rewrite DoEquivalenceSet_fresh;
      [|intros o Ho; apply Hroots, elem_of_app; left;
        by apply list_elem_of_fmap_2|done].
    destruct (edgesOf ctx x) as [edges|] eqn:Hedges; [|done].
    cbn [mbind Result_bind]. apply IH; [done|].
    intros k Hk. cbn [dependents_ with_dependents_].
    apply lookup_union_None. split.
    + destruct (edges !! k) eqn:Hek; [|done].
      exfalso. eapply Hdisjoint; [|exact Hk].
      eapply edgesOf_dom; eauto.
    + apply Hroots, elem_of_app. by right.
  - rewrite !namedSymbols_cons in Hnodup, Hroots.
    apply NoDup_app in Hnodup as (Hy & Hdisjoint & Hnodup).
    apply NoDup_app in Hnodup as (Hx & Hdisjoint' & Hl).
    assert (forall o, o ∈ y -> dependents_ h !! eo_symbol o = None) as Hry.
    { intros o Ho. apply Hroots, elem_of_app. left.
      by apply list_elem_of_fmap_2. }
    assert (forall o, o ∈ x -> dependents_ h !! eo_symbol o = None) as Hrx.
    { intros o Ho. apply Hroots, elem_of_app. right. apply elem_of_app. left.
      by apply list_elem_of_fmap_2. }
    assert (forall k, k ∈ eo_symbol <$> y -> k ∈ eo_symbol <$> x -> False)
      as Hyx.
    { intros k Hky Hkx. eapply (Hdisjoint k); [done|].
      apply elem_of_app. by left. }
    intros Hdone.
    rewrite DoEquivalenceSets_cons in Hdone. cbn [fst snd] in Hdone.
    rewrite (DoEquivalenceSet_fresh y) in Hdone by done.
    destruct (edgesOf ctx y) as [ey|] eqn:Hey; [|done].
    cbn [mbind Result_bind] in Hdone.
    rewrite DoEquivalenceSets_cons in Hdone. cbn [fst snd] in Hdone.
    rewrite (DoEquivalenceSet_fresh x) in Hdone; [| |done].
    2:{ intros o Ho. cbn [dependents_ with_dependents_].
        apply lookup_union_None. split; [|by apply Hrx].
        destruct (ey !! eo_symbol o) eqn:Hk; [|done]. exfalso.
        eapply (Hyx (eo_symbol o)); [eapply edgesOf_dom; eauto|].
        by apply list_elem_of_fmap_2. }
    destruct (edgesOf ctx x) as [ex|] eqn:Hex; [|done].
    cbn [mbind Result_bind dependents_ with_dependents_] in Hdone.
    assert (ey ##ₘ ex) as Hdisj.
    { apply map_disjoint_spec. intros k e1 e2 H1 H2.
      eapply (Hyx k); eapply edgesOf_dom; eauto. }
    rewrite DoEquivalenceSets_cons. cbn [fst snd].
    rewrite (DoEquivalenceSet_fresh x), Hex by done.
    cbn [mbind Result_bind].
    rewrite DoEquivalenceSets_cons. cbn [fst snd].
    rewrite (DoEquivalenceSet_fresh y), Hey; [| |done].
    2:{ intros o Ho. cbn [dependents_ with_dependents_].
        apply lookup_union_None. split; [|by apply Hry].
        destruct (ex !! eo_symbol o) eqn:Hk; [|done]. exfalso.
        eapply (Hyx (eo_symbol o)); [by apply list_elem_of_fmap_2|].
        eapply edgesOf_dom; eauto. }
    cbn [mbind Result_bind dependents_ with_dependents_].
    rewrite <- Hdone. f_equal. f_equal. unfold with_dependents_. simpl. f_equal.
    rewrite !(assoc_L (∪)). f_equal. by apply map_union_comm.
  - intros Hdone. apply IH2.
    + unfold namedSymbols in *. by rewrite <- Hperm1.
    + intros k Hk. apply Hroots. unfold namedSymbols in *. by rewrite Hperm1.
    + by apply IH1.
Qed.

Lemma layoutScope_permuted scope sets' p scope' p' :
  Permutation (scope_equivalenceSets scope) sets' ->
  NoDup (namedSymbols (scope_equivalenceSets scope)) ->
  layoutScope ctx scope p = Done (scope', p') ->
  layoutScope ctx (with_equivalenceSets sets' scope) p
  = Done (with_equivalenceSets sets' scope', p').
Proof.
  intros Hperm Hnodup. unfold layoutScope.
  cbn [with_equivalenceSets scope_equivalenceSets scope_symbols scope_kind
       scope_commonBlocks].
  destruct (DoEquivalenceSets ctx (scope_equivalenceSets scope) _)
    as [st1|] eqn:Hsets; [|done].
  rewrite (DoEquivalenceSets_Permutation _ _ Hperm _ _ _ Hnodup
             (fun k _ => lookup_empty k) Hsets).
  cbn [mbind Result_bind].
  destruct (forEach (resolveDependent ctx) _ _) as [st2|]; [|done].
  cbn [mbind Result_bind].
  destruct (foldl _ (foldl _ _ _) _) as [h p1].
  cbn [with_layout scope_kind].
  destruct (if decide _ then _ else _) as [st3|]; [|done].
  cbn [mbind Result_bind].
  destruct (forEach (commitDependent ctx) _ _) as [[h4 p4]|]; [|done].
  cbn [mbind Result_bind]. by intros [= <- <-].
Qed.

(** When no symbol is named by more than one object of the equivalence sets
    of a scope, the computation on the scope with its sets in another order
    returns the same program and the same size and alignment of the scope. *)
Lemma Compute_permuted_disjoint scope sets' p scope' p' :
  Permutation (scope_equivalenceSets scope) sets' ->
  NoDup (namedSymbols (scope_equivalenceSets scope)) ->
  Compute ctx scope p = Done (scope', p') ->
  Compute ctx (with_equivalenceSets sets' scope) p
  = Done (with_equivalenceSets sets' scope', p').
Proof.
  intros Hperm Hnodup. rewrite !Compute_unfold.
  change (scope_children (with_equivalenceSets sets' scope))
    with (scope_children scope).
  destruct (ComputeChildren ctx (scope_children scope) p) as [[children p1]|];
    [|done].
  cbn [mbind Result_bind]. cbv zeta.
  change (scope_symbol (with_children children
                          (with_equivalenceSets sets' scope)))
    with (scope_symbol (with_children children scope)).
  change (IsDerivedTypeWithKindParameter
            (with_children children (with_equivalenceSets sets' scope)))
    with (IsDerivedTypeWithKindParameter (with_children children scope)).
  change (scope_alignment (with_children children
                             (with_equivalenceSets sets' scope)))
    with (scope_alignment (with_children children scope)).
  destruct (_ && _); [by intros [= <- <-]|].
  destruct (bool_decide (is_Some (scope_alignment _)));
    [by intros [= <- <-]|].
  intros Hlayout.
  apply (layoutScope_permuted _ sets') in Hlayout; [|done|done].
  exact Hlayout.
Qed.
End PermutationProperties.

(** ** The order of sets that share symbols *)

Lemma RootAt_root dependents s r d :
  RootAt dependents s r d -> dependents !! r = None.
Proof. induction 1; done. Qed.

Lemma RootAt_unique dependents s r d r' d' :
  RootAt dependents s r d -> RootAt dependents s r' d' -> r = r' /\ d = d'.
Proof.
  intros H. revert r' d'. induction H as [s Hs|s e r d Hs _ IH]; intros r' d' H'.
  - inversion H'; [done|congruence].
  - inversion H' as [|? e' ? d'' Hs' H'']; subst; [congruence|].
    rewrite Hs in Hs'. injection Hs' as <-.
    destruct (IH _ _ H'') as [-> ->]. done.
Qed.

Lemma RootAt_exists dependents s :
  Acyclic dependents -> exists r d, RootAt dependents s r d.
Proof.
  intros Hacyclic. destruct (Hacyclic s) as [n Hn].
  induction Hn as [s Hs|s e n Hs _ (r & d & IH)].
  - exists s, 0. by constructor.
  - exists r, (d + so_offset e). by econstructor.
Qed.

Lemma RootAt_ChainLength dependents s r d :
  RootAt dependents s r d -> exists n, ChainLength dependents s n.
Proof.
  induction 1 as [s Hs|s e r d Hs _ [n IH]].
  - exists 0%nat. by constructor.
  - exists (S n). by econstructor.
Qed.

Lemma RootAt_self dependents s d :
  RootAt dependents s s d -> dependents !! s = None /\ d = 0.
Proof.
  intros H. pose proof (RootAt_root _ _ _ _ H) as Hroot.
  inversion H; [done|congruence].
Qed.

(** [Resolve] follows the chain and adds the offsets as [std::size_t]. *)
Lemma Resolve_fuel_RootAt dependents s r d fuel n c o :
  (forall k e, dependents !! k = Some e -> is_size_t (so_offset e)) ->
  RootAt dependents s r d -> ChainLength dependents s n -> (n <= fuel)%nat ->
  is_size_t c ->
  Resolve_fuel fuel dependents (mkSymbolAndOffset s c o)
  = Done (mkSymbolAndOffset r (wrap (d + c)) o).
Proof.
  intros Hrange Hroot. revert fuel n c o.
  induction Hroot as [s Hs|s e r d Hs Hroot IH]; intros fuel n c o Hn Hle Hc.
  - rewrite Z.add_0_l, wrap_small by done. destruct fuel; simpl; by rewrite Hs.
  - inversion Hn as [|? e' m Hs' Hm]; subst; [congruence|].
    rewrite Hs in Hs'. injection Hs' as <-.
    destruct fuel as [|fuel]; [lia|]. simpl. rewrite Hs.
    pose proof (Hrange _ _ Hs) as He.
    destruct e as [b eo obj]. simpl in *.
    rewrite (IH fuel m eo obj) by (done || lia). simpl.
    unfold size_add. rewrite wrap_add_l. do 2 f_equal; lia.
Qed.

Lemma Resolve_RootAt dependents s r d c o :
  (forall k e, dependents !! k = Some e -> is_size_t (so_offset e)) ->
  RootAt dependents s r d -> is_size_t c ->
  Resolve dependents (mkSymbolAndOffset s c o)
  = Done (mkSymbolAndOffset r (wrap (d + c)) o).
Proof.
  intros Hrange Hroot Hc.
  destruct (RootAt_ChainLength _ _ _ _ Hroot) as [n Hn].
  eapply Resolve_fuel_RootAt; eauto. by eapply ChainLength_le_size.
Qed.

Lemma sameSet_sym sets s t : sameSet sets s t -> sameSet sets t s.
Proof. intros (set & o1 & o2 & ? & ? & ? & ? & ?). by exists set, o2, o1. Qed.

Lemma Associated_sym sets s t : Associated sets s t -> Associated sets t s.
Proof.
  induction 1 as [|s t u Hst _ IH]; [constructor|].
  eapply rtc_r; [exact IH|]. by apply sameSet_sym.
Qed.

Lemma Associated_Permutation sets sets' s t :
  Permutation sets sets' -> Associated sets s t -> Associated sets' s t.
Proof.
  intros Hperm. apply rtc_subrel.
  intros x y (set & o1 & o2 & Hset & ?). exists set, o1, o2.
  split; [by rewrite <- Hperm|done].
Qed.

Lemma Placed_Satisfied ctx addr sets :
  Placed ctx addr sets -> Satisfied ctx addr sets.
Proof. intros (Hpos & Hsets & _). by split. Qed.

Section PlacementProperties.
Context (ctx : SemanticsContext) (addr : Symbol -> Z)
  (sets : list (list EquivalenceObject)).
Hypothesis Hsatisfied : Satisfied ctx addr sets.

Lemma named_inv s :
  s ∈ namedSymbols sets <->
  exists set o, set ∈ sets /\ o ∈ set /\ eo_symbol o = s.
Proof.
  clear Hsatisfied. induction sets as [|set0 sets0 IH].
  - split; [by intros ?%elem_of_nil|].
    by intros (set & _ & ?%elem_of_nil & _).
  - rewrite namedSymbols_cons, elem_of_app, IH. split.
    + intros [(o & -> & Ho)%list_elem_of_fmap|(set & o & Hset & Ho & Hs)].
      * exists set0, o. split; [left|done].
      * exists set, o. split; [by right|done].
    + intros (set & o & Hset & Ho & <-).
      apply elem_of_cons in Hset as [->|Hset].
      * left. by apply list_elem_of_fmap_2.
      * right. eauto.
Qed.

Lemma named_elem_of set o :
  set ∈ sets -> o ∈ set -> eo_symbol o ∈ namedSymbols sets.
Proof. intros Hset Ho. apply named_inv. eauto. Qed.

Lemma named_addr_range s :
  s ∈ namedSymbols sets -> 0 <= addr s < size_t_modulus.
Proof.
  intros (set & o & Hset & Ho & <-)%named_inv.
  destruct Hsatisfied as (Hpos & Hsets).
  destruct (Hsets _ Hset) as (v & Hv & Hobjects).
  destruct (Hobjects _ Ho) as (c & Hc & Hsum).
  apply ComputeOffset_size_t in Hc. unfold is_size_t in Hc.
  specialize (Hpos (eo_symbol o)). lia.
Qed.

Lemma Consistent_range dependents k e :
  Consistent addr sets dependents -> dependents !! k = Some e ->
  is_size_t (so_offset e).
Proof.
  intros [_ Hedges] Hk. destruct (Hedges _ _ Hk) as (Hnk & Hne & Hoff & Hpos & _).
  pose proof (named_addr_range _ Hnk). pose proof (named_addr_range _ Hne).
  unfold is_size_t. lia.
Qed.

(** Along a chain the offsets add up to the difference of the places. *)
Lemma RootAt_exact dependents s r d :
  Consistent addr sets dependents -> RootAt dependents s r d ->
  d = addr s - addr r /\ 0 <= d /\ Associated sets s r
  /\ (s ∈ namedSymbols sets -> r ∈ namedSymbols sets).
Proof.
  intros [_ Hedges]. induction 1 as [s Hs|s e r d Hs _ IH].
  - split; [lia|]. split; [lia|]. split; [constructor|done].
  - destruct (Hedges _ _ Hs) as (Hnk & Hne & Hoff & Hpos & Hassoc).
    destruct IH as (-> & Hd & Hassoc' & Hnamed).
    split; [lia|]. split; [lia|]. split; [by etrans|auto].
Qed.

Lemma resolveObjects_total_computed dependents set acc :
  Acyclic dependents ->
  (forall o, o ∈ set -> exists c, ComputeOffset ctx o = Done c) ->
  exists res, resolveObjects ctx dependents set acc = Done res.
Proof.
  intros Hacyclic. revert acc.
  induction set as [|object set IH]; intros acc Hall; simpl; [eauto|].
  destruct (Hall object ltac:(left)) as [offset ->].
  cbn [mbind Result_bind].
  destruct (Resolve_total dependents
              (mkSymbolAndOffset (eo_symbol object) offset object) Hacyclic)
    as (x & -> & _).
  cbn [mbind Result_bind]. apply IH. intros o Ho. apply Hall. by right.
Qed.

Lemma recordObjects_covers base rs dependents said x :
  x ∈ rs -> so_symbol x ≠ so_symbol base ->
  exists e,
    (foldl (recordObject ctx base) (dependents, said) rs).1 !! so_symbol x
    = Some e
    /\ (dependents !! so_symbol x = Some e \/ so_symbol e = so_symbol base).
Proof.
  revert dependents said. induction rs as [|y rs IH]; intros dependents said
    Hx Hne; [by apply elem_of_nil in Hx|].
  apply elem_of_cons in Hx as [<-|Hx].
  - simpl. rewrite decide_False by done.
    destruct (dependents !! so_symbol x) as [e|] eqn:Hd.
    + exists e. split; [|by left].
      apply recordObjects_old. by apply emplace_lookup_old.
    + exists (recordedEdge base x). split; [|by right].
      apply recordObjects_old. by apply emplace_lookup_new.
  - simpl.
    assert (forall dependents' said',
      (forall e, dependents' !! so_symbol x = Some e ->
         dependents !! so_symbol x = Some e \/ so_symbol e = so_symbol base) ->
      exists e,
        (foldl (recordObject ctx base) (dependents', said') rs).1
          !! so_symbol x = Some e
        /\ (dependents !! so_symbol x = Some e
            \/ so_symbol e = so_symbol base)) as Hgo.
    { intros dependents' said' Hsub.
      destruct (IH dependents' said' Hx Hne) as (e & He & [Hin|Hbase]).
      - exists e. split; [done|]. by apply Hsub.
      - exists e. split; [done|]. by right. }
    repeat case_decide; try (apply Hgo; by left).
    apply Hgo. intros e He. unfold emplace in He.
    destruct (dependents !! so_symbol y) eqn:Hy; [by left|].
    apply lookup_insert_Some in He as [[_ <-]|[_ He]]; [by right|by left].
Qed.

(** Edges kept, and a root given an edge to a symbol without one: the
    chains go on to the new root. *)
Lemma RootAt_extend dependents dependents' s r d :
  (forall k e, dependents !! k = Some e -> dependents' !! k = Some e) ->
  RootAt dependents s r d ->
  match dependents' !! r with
  | None => RootAt dependents' s r d
  | Some e =>
      dependents' !! so_symbol e = None ->
      exists d', RootAt dependents' s (so_symbol e) d'
  end.
Proof.
  intros Hold. induction 1 as [s Hs|s e0 r d Hs _ IH].
  - destruct (dependents' !! s) as [e|] eqn:Hs'.
    + intros He. exists (0 + so_offset e). econstructor; [done|].
      by constructor.
    + by constructor.
  - destruct (dependents' !! r) as [e|].
    + intros He. destruct (IH He) as [d' Hd']. exists (d' + so_offset e0).
      econstructor; [by apply Hold|done].
    + econstructor; [by apply Hold|done].
Qed.

Lemma DoEquivalenceSet_total_computed set h p :
  set ≠ [] -> Acyclic (dependents_ h) ->
  (forall o, o ∈ set -> exists c, ComputeOffset ctx o = Done c) ->
  exists st, DoEquivalenceSet ctx set h p = Done st.
Proof.
  intros Hne Hacyclic Hall. unfold DoEquivalenceSet.
  destruct (resolveObjects_total_computed (dependents_ h) set ([], None)
              Hacyclic Hall) as [[rs rep] Hres].
  rewrite Hres. cbn [mbind Result_bind].
  destruct (resolveObjects_Done _ _ _ _ _ _ Hres eq_refl)
    as (new & Hrs & Hall2 & Hrep).
  simpl in Hrs. subst new.
  destruct rep as [r|]; simpl in *.
  - destruct Hrep as (base & Hr & _). simpl in Hr. rewrite Hr.
    destruct (foldl _ _ rs). eauto.
  - unfold representativeOf in Hrep. simpl in Hrep. subst rs.
    apply Forall2_nil_inv_r in Hall2. done.
Qed.

(** An object of a set placed at [v], resolved through a consistent map:
    the chain of its symbol ends at the resolved symbol, and the resolved
    offset is the distance of [v] from the place of that symbol. *)
Lemma resolvesTo_placed dependents set v o x :
  Consistent addr sets dependents ->
  set ∈ sets -> v < size_t_modulus ->
  (forall o, o ∈ set ->
     exists c, ComputeOffset ctx o = Done c /\ addr (eo_symbol o) + c = v) ->
  o ∈ set -> resolvesTo ctx dependents o x ->
  (exists d, RootAt dependents (eo_symbol o) (so_symbol x) d)
  /\ so_offset x = v - addr (so_symbol x)
  /\ so_symbol x ∈ namedSymbols sets
  /\ Associated sets (eo_symbol o) (so_symbol x)
  /\ dependents !! so_symbol x = None.
Proof.
  intros Hcons Hset Hv Hobjects Ho (c & Hc & Hx).
  destruct (Hobjects _ Ho) as (c' & Hc' & Hsum).
  rewrite Hc in Hc'. injection Hc' as <-.
  destruct (RootAt_exists dependents (eo_symbol o) (proj1 Hcons))
    as (r & d & Hroot).
  destruct (RootAt_exact _ _ _ _ Hcons Hroot) as (Hd & Hpos & Hassoc & Hnamed).
  pose proof (ComputeOffset_size_t _ _ _ Hc) as Hcrange.
  rewrite (Resolve_RootAt _ _ _ _ _ _
             (fun k e => Consistent_range _ k e Hcons) Hroot Hcrange) in Hx.
  injection Hx as <-. simpl.
  pose proof (named_elem_of _ _ Hset Ho) as Hno.
  pose proof (named_addr_range _ (Hnamed Hno)) as Hr.
  split; [eauto|]. split.
  - replace (d + c) with (v - addr r) by lia.
    apply wrap_small. unfold is_size_t in *. lia.
  - split; [auto|]. split; [done|]. by eapply RootAt_root.
Qed.

(** A set of the placement, processed on a consistent map: nothing is
    said, and the map stays consistent and joins the symbols of the set. *)
Lemma DoEquivalenceSet_Consistent set h p done :
  set ∈ sets -> set ≠ [] ->
  Consistent addr sets (dependents_ h) -> Joined (dependents_ h) done ->
  exists h',
    DoEquivalenceSet ctx set h p = Done (h', p)
    /\ offset_ h' = offset_ h /\ alignment_ h' = alignment_ h
    /\ equivalenceBlock_ h' = equivalenceBlock_ h
    /\ Consistent addr sets (dependents_ h')
    /\ Joined (dependents_ h') (set :: done).
Proof.
  intros Hset Hne Hcons Hjoined.
  pose proof Hsatisfied as (Hpos & Hsets).
  destruct (Hsets _ Hset) as (v & Hv & Hobjects).
  destruct (DoEquivalenceSet_total_computed set h p Hne (proj1 Hcons))
    as [[h' p'] Hdone].
  { intros o Ho. destruct (Hobjects _ Ho) as (c & ? & _). eauto. }
  destruct (DoEquivalenceSet_Done _ _ _ _ _ _ Hdone)
    as (rs & r & base & Hrs & Hlast & Hdeps & Hsaid & Ho_ & Ha_ & He_ & Hsym
        & Hblocks & Hmapped).
  pose proof Hlast as (Hr & Hmax & _).
  assert (forall x, x ∈ rs ->
            exists o, o ∈ set /\ resolvesTo ctx (dependents_ h) o x) as Hback.
  { intros x (i & Hi)%list_elem_of_lookup.
    destruct (Forall2_lookup_r _ _ _ _ _ Hrs Hi) as (o & Ho & Hox).
    exists o. split; [by eapply list_elem_of_lookup_2|done]. }
  assert (forall x, x ∈ rs ->
            so_offset x = v - addr (so_symbol x)
            /\ so_symbol x ∈ namedSymbols sets
            /\ dependents_ h !! so_symbol x = None
            /\ exists o, o ∈ set /\ Associated sets (eo_symbol o) (so_symbol x))
    as Hfacts.
  { intros x Hx. destruct (Hback x Hx) as (o & Ho & Hox).
    destruct (resolvesTo_placed _ _ _ _ _ Hcons Hset Hv Hobjects Ho Hox)
      as (_ & ? & ? & ? & ?). eauto 10. }
  assert (base ∈ rs) as Hbase_in by (by eapply list_elem_of_lookup_2).
  destruct (Hfacts _ Hbase_in) as (Hboff & Hbnamed & Hbroot & ob & Hob & Hbassoc).
  (* nothing is said *)
  assert (filter (conflicting base) rs = []) as Hnoconflict.
  { apply elem_of_nil_inv. intros x [[Hxs Hxo] Hx]%list_elem_of_filter.
    destruct (Hfacts _ Hx) as (Hxoff & _). apply Hxo.
    rewrite Hxoff, Hboff, Hxs. done. }
  rewrite recordObjects_said, Hnoconflict in Hsaid. simpl in Hsaid.
  rewrite app_nil_r in Hsaid.
  assert (p' = p) as ->.
  { destruct p', p. simpl in *. by subst. }
  exists h'. split; [done|]. split; [done|]. split; [done|]. split; [done|].
  assert (forall k e, dependents_ h !! k = Some e ->
            dependents_ h' !! k = Some e) as Hold.
  { intros k e. rewrite Hdeps. apply recordObjects_old. }
  assert (dependents_ h' !! so_symbol base = None) as Hbase'.
  { rewrite Hdeps. by apply recordObjects_base. }
  split; [split|].
  - eapply DoEquivalenceSet_Acyclic; [exact (proj1 Hcons)|exact Hdone].
  - intros k e Hk. rewrite Hdeps in Hk.
    apply recordObjects_new in Hk
      as [Hk|(_ & Hkb & x & Hx & <- & ->)]; [by apply Hcons|].
    destruct (Hfacts _ Hx) as (Hxoff & Hxnamed & Hxroot & ox & Hox & Hxassoc).
    pose proof (named_addr_range _ Hxnamed) as Hxr.
    pose proof (named_addr_range _ Hbnamed) as Hbr.
    assert (so_offset x <= so_offset base) as Hle.
    { apply list_elem_of_lookup in Hx as [i Hi]. by eapply Hmax. }
    assert (size_sub (so_offset base) (so_offset x)
            = addr (so_symbol x) - addr (so_symbol base)) as Hsub.
    { unfold size_sub. rewrite wrap_small; unfold is_size_t; lia. }
    simpl. rewrite Hsub.
    split; [done|]. split; [done|]. split; [done|]. split; [lia|].
    etrans; [by apply Associated_sym|]. etrans; [|exact Hbassoc].
    apply rtc_once. exists set, ox, ob. by repeat split.
  - intros T [->|HT]%elem_of_cons.
    + exists (so_symbol base). intros o Ho.
      apply list_elem_of_lookup in Ho as [i Hi].
      destruct (Forall2_lookup_l _ _ _ _ _ Hrs Hi) as (x & Hxi & Hox).
      destruct (resolvesTo_placed _ _ _ _ _ Hcons Hset Hv Hobjects
                  (list_elem_of_lookup_2 _ _ _ Hi) Hox)
        as ((d & Hroot) & _ & _ & _ & Hxroot).
      pose proof (RootAt_extend _ _ _ _ _ Hold Hroot) as Hext.
      destruct (decide (so_symbol x = so_symbol base)) as [Heq|Hneq].
      * rewrite Heq, Hbase' in Hext. eauto.
      * destruct (recordObjects_covers base rs (dependents_ h) [] x
                    (list_elem_of_lookup_2 _ _ _ Hxi) Hneq)
          as (e & He & [Hin|Hto]); [congruence|].
        rewrite <- Hdeps in He. rewrite He, Hto in Hext. by apply Hext.
    + destruct (Hjoined _ HT) as [rT HrT].
      exists (match dependents_ h' !! rT with
              | Some e => so_symbol e
              | None => rT
              end).
      intros o Ho. destruct (HrT _ Ho) as [d Hroot].
      pose proof (RootAt_extend _ _ _ _ _ Hold Hroot) as Hext.
      destruct (dependents_ h' !! rT) as [e|] eqn:HrT'; [|eauto].
      apply Hext. rewrite Hdeps in HrT'.
      apply recordObjects_new in HrT'
        as [Hin|(_ & _ & x & _ & _ & ->)]; [|done].
      apply RootAt_root in Hroot. congruence.
Qed.

Lemma DoEquivalenceSets_Consistent l h p done :
  (forall set, set ∈ l -> set ∈ sets /\ set ≠ []) ->
  Consistent addr sets (dependents_ h) -> Joined (dependents_ h) done ->
  exists h',
    DoEquivalenceSets ctx l (h, p) = Done (h', p)
    /\ offset_ h' = offset_ h /\ alignment_ h' = alignment_ h
    /\ equivalenceBlock_ h' = equivalenceBlock_ h
    /\ Consistent addr sets (dependents_ h')
    /\ Joined (dependents_ h') (l ++ done).
Proof.
  revert h done. induction l as [|set l IH]; intros h done Hl Hcons Hjoined.
  - exists h. split; [done|]. split; [done|]. split; [done|].
    split; [done|]. split; [done|]. exact Hjoined.
  - destruct (Hl set ltac:(left)) as [Hset Hne].
    destruct (DoEquivalenceSet_Consistent set h p done Hset Hne Hcons Hjoined)
      as (h1 & Hdone & Ho & Ha & He & Hcons1 & Hjoined1).
    destruct (IH h1 (set :: done)) as (h' & Hrest & Ho' & Ha' & He' & Hcons'
                                       & Hjoined'); [|done|done|].
    { intros T HT. apply Hl. by right. }
    exists h'. rewrite DoEquivalenceSets_cons. cbn [fst snd].
    rewrite Hdone. cbn [mbind Result_bind].
    split; [done|]. split; [congruence|]. split; [congruence|].
    split; [congruence|]. split; [done|].
    intros T HT. apply Hjoined'. rewrite elem_of_app, elem_of_cons.
    apply elem_of_cons in HT as [->|HT]; [by right; left|].
    apply elem_of_app in HT as [HT|HT]; [by left|by right; right].
Qed.

Lemma DoEquivalenceSets_nonempty l st st' :
  DoEquivalenceSets ctx l st = Done st' -> forall set, set ∈ l -> set ≠ [].
Proof.
  revert st. induction l as [|set l IH]; intros st Hdone T HT;
    [by apply elem_of_nil in HT|].
  rewrite DoEquivalenceSets_cons in Hdone.
  destruct (DoEquivalenceSet ctx set st.1 st.2) as [st1|] eqn:Hset; [|done].
  cbn [mbind Result_bind] in Hdone.
  apply elem_of_cons in HT as [->|HT]; [|by eapply IH].
  intros ->. by destruct st.
Qed.

(** In a map that joins the sets, associated symbols have one root. *)
Lemma Joined_Associated dependents s t r d :
  Joined dependents sets -> Acyclic dependents ->
  Associated sets s t -> RootAt dependents s r d ->
  exists d', RootAt dependents t r d'.
Proof.
  intros Hjoined Hacyclic Hassoc. revert r d.
  induction Hassoc as [s|s t u (set & o1 & o2 & Hset & Ho1 & Ho2 & <- & <-) _ IH];
    intros r d Hroot; [eauto|].
  destruct (Hjoined _ Hset) as [r0 Hr0].
  destruct (Hr0 _ Ho1) as [d1 H1]. destruct (Hr0 _ Ho2) as [d2 H2].
  destruct (RootAt_unique _ _ _ _ _ _ Hroot H1) as [-> _]. eauto.
Qed.

(** Two consistent maps that join the sets give every symbol the same root
    at the same distance. *)
Lemma Consistent_same_roots dependents1 dependents2 s r d :
  Placed ctx addr sets ->
  Consistent addr sets dependents1 -> Joined dependents1 sets ->
  Consistent addr sets dependents2 -> Joined dependents2 sets ->
  RootAt dependents1 s r d -> RootAt dependents2 s r d.
Proof.
  intros Hplaced Hcons1 Hjoined1 Hcons2 Hjoined2 Hroot1.
  destruct (RootAt_exists dependents2 s (proj1 Hcons2)) as (r' & d' & Hroot2).
  destruct (RootAt_exact _ _ _ _ Hcons1 Hroot1) as (Hd & _ & Hassoc1 & _).
  destruct (RootAt_exact _ _ _ _ Hcons2 Hroot2) as (Hd' & _ & Hassoc2 & _).
  (* the root of [r] in the second map is [r'], and conversely *)
  destruct (Joined_Associated _ _ _ _ _ Hjoined2 (proj1 Hcons2) Hassoc1 Hroot2)
    as [e2 Hr2].
  destruct (Joined_Associated _ _ _ _ _ Hjoined1 (proj1 Hcons1) Hassoc2 Hroot1)
    as [e1 Hr1].
  destruct (RootAt_exact _ _ _ _ Hcons2 Hr2) as (He2 & Hpos2 & _).
  destruct (RootAt_exact _ _ _ _ Hcons1 Hr1) as (He1 & Hpos1 & _).
  assert (addr r = addr r') as Heq by lia.
  assert (Associated sets r r') as Hassoc
    by (etrans; [by apply Associated_sym|done]).
  destruct Hplaced as (_ & _ & Hties).
  destruct (Hties _ _ Hassoc Heq) as [<-|(u & Hu & Hlt)].
  - by replace d with d' by lia.
  - exfalso.
    assert (RootAt dependents1 r r 0) as Hrr
      by (constructor; by eapply RootAt_root).
    destruct (Joined_Associated _ _ _ _ _ Hjoined1 (proj1 Hcons1) Hu Hrr)
      as [du Hdu].
    destruct (RootAt_exact _ _ _ _ Hcons1 Hdu) as (? & ? & _). lia.
Qed.

(** Redirecting [k] to the end of its chain, at the distance of the chain,
    changes no root and no distance. *)
Lemma RootAt_redirect dependents k e r d object s r' d' :
  dependents !! k = Some e -> RootAt dependents k r d ->
  RootAt (<[k := mkSymbolAndOffset r d object]> dependents) s r' d'
  <-> RootAt dependents s r' d'.
Proof.
  clear Hsatisfied.
  intros Hk Hroot. pose proof (RootAt_root _ _ _ _ Hroot) as Hr.
  assert (r ≠ k) as Hne by congruence.
  split.
  - induction 1 as [s Hs|s e' r' d' Hs _ IH].
    + apply lookup_insert_None in Hs as [Hs _]. by constructor.
    + apply lookup_insert_Some in Hs as [[<- <-]|[Hsk Hs]].
      * simpl in *. destruct (RootAt_unique _ _ _ _ _ _ IH (RootAt_base _ _ Hr))
          as [-> ->]. by rewrite Z.add_0_l.
      * by econstructor.
  - induction 1 as [s Hs|s e' r' d' Hs Hnext IH].
    + constructor. rewrite lookup_insert_ne; [done|congruence].
    + destruct (decide (s = k)) as [->|Hsk].
      * destruct (RootAt_unique _ _ _ _ _ _ Hroot
                    (RootAt_edge _ _ _ _ _ Hs Hnext)) as [<- <-].
        replace d with (0 + so_offset (mkSymbolAndOffset r d object))
          by (simpl; lia).
        econstructor; [apply lookup_insert_eq|]. simpl.
        constructor. by rewrite lookup_insert_ne.
      * econstructor; [by rewrite lookup_insert_ne|done].
Qed.

Lemma Consistent_redirect dependents k e r d object :
  Consistent addr sets dependents ->
  dependents !! k = Some e -> RootAt dependents k r d ->
  Consistent addr sets (<[k := mkSymbolAndOffset r d object]> dependents).
Proof.
  intros Hcons Hk Hroot.
  destruct (RootAt_exact _ _ _ _ Hcons Hroot) as (Hd & Hpos & Hassoc & Hnamed).
  destruct Hcons as [Hacyclic Hedges]. split.
  - apply Acyclic_redirect; [done|eauto|by eapply RootAt_root].
  - intros j ej Hj. apply lookup_insert_Some in Hj as [[<- <-]|[_ Hj]]; [|eauto].
    destruct (Hedges _ _ Hk) as (Hnk & _). simpl. auto.
Qed.

Lemma resolveDependent_RootAt k h p e r d :
  Consistent addr sets (dependents_ h) ->
  dependents_ h !! k = Some e -> RootAt (dependents_ h) k r d ->
  resolveDependent ctx k (h, p)
  = if decide (symbol_size p k = 0)
    then Done (resolvedHelper ctx k r d (so_object e) h,
               set_size k (sa_size (GetSizeAndAlignment ctx k true)) p)
    else Abort CheckFailed.
Proof.
  intros Hcons Hk Hroot. unfold resolveDependent. rewrite Hk.
  pose proof (Consistent_range _ _ _ Hcons Hk) as He.
  destruct (RootAt_exact _ _ _ _ Hcons Hroot) as (Hd & Hpos & _ & Hnamed).
  destruct (proj2 Hcons _ _ Hk) as (Hnk & _).
  pose proof (named_addr_range _ Hnk) as Hkr.
  pose proof (named_addr_range _ (Hnamed Hnk)) as Hrr.
  inversion Hroot as [? Hnone|? e' ? d0 Hk' Hnext]; subst; [congruence|].
  rewrite Hk in Hk'. injection Hk' as <-.
  destruct e as [b eo obj]. simpl in *.
  rewrite (Resolve_RootAt _ _ _ _ _ _
             (fun j ej => Consistent_range _ j ej Hcons) Hnext He).
  rewrite wrap_small by (unfold is_size_t; lia).
  cbn [mbind Result_bind]. by case_decide.
Qed.

Lemma RootAt_None dependents k :
  dependents !! k = None <-> RootAt dependents k k 0.
Proof.
  split; [by constructor|]. intros H. by eapply RootAt_root.
Qed.

Lemma sameRoots_None dependents1 dependents2 k :
  sameRoots dependents1 dependents2 ->
  dependents1 !! k = None <-> dependents2 !! k = None.
Proof. intros Hsame. rewrite !RootAt_None. apply Hsame. Qed.

Lemma sameRoots_orderedKeys dependents1 dependents2 :
  sameRoots dependents1 dependents2 ->
  orderedKeys dependents1 = orderedKeys dependents2.
Proof.
  intros Hsame. unfold orderedKeys. f_equal. f_equal. apply set_eq. intros k.
  rewrite !elem_of_dom, <- !not_eq_None_Some.
  by rewrite (sameRoots_None _ _ k Hsame).
Qed.

(** The resolution pass on two consistent maps with the same roots: the
    same program, the same blocks, and every entry met has the same symbol
    and offset in both. *)
Lemma resolveDependents_sameRoots ks h1 h2 p h1' p' :
  NoDup ks -> (forall k, k ∈ ks -> is_Some (dependents_ h1 !! k)) ->
  Consistent addr sets (dependents_ h1) ->
  Consistent addr sets (dependents_ h2) ->
  sameRoots (dependents_ h1) (dependents_ h2) ->
  offset_ h1 = offset_ h2 -> alignment_ h1 = alignment_ h2 ->
  equivalenceBlock_ h1 = equivalenceBlock_ h2 ->
  forEach (resolveDependent ctx) ks (h1, p) = Done (h1', p') ->
  exists h2',
    forEach (resolveDependent ctx) ks (h2, p) = Done (h2', p')
    /\ offset_ h1' = offset_ h2' /\ alignment_ h1' = alignment_ h2'
    /\ equivalenceBlock_ h1' = equivalenceBlock_ h2'
    /\ forall k,
         k ∈ ks
         \/ withoutObject <$> dependents_ h1 !! k = withoutObject <$> dependents_ h2 !! k ->
         withoutObject <$> dependents_ h1' !! k = withoutObject <$> dependents_ h2' !! k.
Proof.
  revert h1 h2 p.
  induction ks as [|k ks IH];
    intros h1 h2 p Hnodup Hkeys Hcons1 Hcons2 Hsame Ho Ha He.
  - intros [= <- <-]. exists h2. split; [done|]. split; [done|].
    split; [done|]. split; [done|].
    intros k [Hk|Hk]; [by apply elem_of_nil in Hk|done].
  - apply NoDup_cons in Hnodup as [Hk Hnodup]. cbn [forEach].
    destruct (Hkeys k ltac:(left)) as [e1 He1].
    destruct (dependents_ h2 !! k) as [e2|] eqn:He2.
    2:{ apply (sameRoots_None _ _ k Hsame) in He2. congruence. }
    destruct (RootAt_exists (dependents_ h1) k (proj1 Hcons1))
      as (r & d & Hroot1).
    pose proof (proj1 (Hsame _ _ _) Hroot1) as Hroot2.
    rewrite (resolveDependent_RootAt k h1 p e1 r d) by done.
    rewrite (resolveDependent_RootAt k h2 p e2 r d) by done.
    case_decide as Hsize; [|done]. cbn [mbind Result_bind].
    intros Hrest.
    set (h1n := resolvedHelper ctx k r d (so_object e1) h1) in *.
    set (h2n := resolvedHelper ctx k r d (so_object e2) h2).
    assert (dependents_ h1n
            = <[k := mkSymbolAndOffset r d (so_object e1)]> (dependents_ h1))
      as Hd1 by done.
    assert (dependents_ h2n
            = <[k := mkSymbolAndOffset r d (so_object e2)]> (dependents_ h2))
      as Hd2 by done.
    assert (forall j, j ∈ ks -> is_Some (dependents_ h1n !! j)) as Hkeys'.
    { intros j Hj. rewrite Hd1.
      destruct (decide (j = k)) as [->|]; [by rewrite lookup_insert_eq|].
      rewrite lookup_insert_ne by done. apply Hkeys. by right. }
    assert (Consistent addr sets (dependents_ h1n)) as Hc1
      by (rewrite Hd1; by eapply Consistent_redirect).
    assert (Consistent addr sets (dependents_ h2n)) as Hc2
      by (rewrite Hd2; by eapply Consistent_redirect).
    assert (sameRoots (dependents_ h1n) (dependents_ h2n)) as Hsame'.
    { intros s r' d'. rewrite Hd1, Hd2.
      rewrite (RootAt_redirect _ _ _ _ _ _ _ _ _ He1 Hroot1).
      rewrite (RootAt_redirect _ _ _ _ _ _ _ _ _ He2 Hroot2). apply Hsame. }
    assert (equivalenceBlock_ h1n = equivalenceBlock_ h2n) as He'.
    { unfold h1n, h2n, resolvedHelper.
      cbn [equivalenceBlock_ with_dependents_ with_equivalenceBlock_].
      by rewrite He. }
    destruct (IH h1n h2n _ Hnodup Hkeys' Hc1 Hc2 Hsame' Ho Ha He' Hrest)
      as (h2' & Hrest2 & Ho' & Ha' & He'' & Hloc).
    exists h2'. split; [done|]. split; [done|]. split; [done|].
    split; [done|]. intros j Hj. apply Hloc. rewrite Hd1, Hd2.
    destruct (decide (j = k)) as [->|Hjk].
    + right. by rewrite !lookup_insert_eq.
    + rewrite !lookup_insert_ne by done.
      destruct Hj as [Hj|Hj]; [|by right].
      apply elem_of_cons in Hj as [->|Hj]; [done|by left].
Qed.
End PlacementProperties.

(** *** The objects of the edges *)

Section ObjectsProperties.
Context (ctx : SemanticsContext).

Lemma layoutScope_placeAndCommit scope p :
  layoutScope ctx scope p
  = st ← DoEquivalenceSets ctx (scope_equivalenceSets scope) (newHelper, p);
    st ← forEach (resolveDependent ctx) (orderedKeys (dependents_ st.1)) st;
    placeAndCommit ctx scope st.
Proof. reflexivity. Qed.

Lemma orderedKeys_withoutObjects h :
  orderedKeys (dependents_ (withoutObjects h)) = orderedKeys (dependents_ h).
Proof.
  unfold orderedKeys, withoutObjects. cbn [dependents_ with_dependents_].
  by rewrite dom_fmap_L.
Qed.

Lemma DoSymbol_withoutObjects symbol newAlign h p :
  DoSymbol ctx symbol newAlign (withoutObjects h) p
  = let '(padding, h', p') := DoSymbol ctx symbol newAlign h p in
    (padding, withoutObjects h', p').
Proof.
  unfold DoSymbol. destruct (_ && _); [done|]. by case_decide.
Qed.

Lemma placeEquivalenceBlock_withoutObjects symbol h p :
  placeEquivalenceBlock ctx symbol (withoutObjects h, p)
  = let '(h', p') := placeEquivalenceBlock ctx symbol (h, p) in
    (withoutObjects h', p').
Proof.
  unfold placeEquivalenceBlock.
  change (equivalenceBlock_ (withoutObjects h)) with (equivalenceBlock_ h).
  destruct (equivalenceBlock_ h !! symbol); [|done].
  destruct (FindCommonBlockContaining ctx p symbol); [done|].
  rewrite DoSymbol_withoutObjects.
  by destruct (DoSymbol ctx symbol None h p) as [[padding h'] p'].
Qed.

Lemma placeSymbol_withoutObjects scopeSymbols symbol h p :
  placeSymbol ctx scopeSymbols symbol (withoutObjects h, p)
  = let '(h', p') := placeSymbol ctx scopeSymbols symbol (h, p) in
    (withoutObjects h', p').
Proof.
  unfold placeSymbol.
  change (equivalenceBlock_ (withoutObjects h)) with (equivalenceBlock_ h).
  change (dependents_ (withoutObjects h))
    with (withoutObject <$> dependents_ h).
  rewrite lookup_fmap.
  destruct (FindCommonBlockContaining ctx p symbol); [done|].
  destruct (dependents_ h !! symbol); [done|]. simpl.
  destruct (equivalenceBlock_ h !! symbol); [done|].
  rewrite DoSymbol_withoutObjects.
  destruct (DoSymbol ctx symbol _ h p) as [[padding h'] p'].
  destruct (genericSpecific _) as [[specific|]|]; try done.
  destruct (FindCommonBlockContaining ctx p' specific); [done|].
  rewrite DoSymbol_withoutObjects.
  by destruct (DoSymbol ctx specific None h' p') as [[padding' h''] p''].
Qed.

Lemma commitDependent_withoutObjects symbol h p :
  commitDependent ctx symbol (withoutObjects h, p)
  = '(h', p') ← commitDependent ctx symbol (h, p);
    Done (withoutObjects h', p').
Proof.
  unfold commitDependent.
  change (dependents_ (withoutObjects h))
    with (withoutObject <$> dependents_ h).
  rewrite lookup_fmap.
  destruct (dependents_ h !! symbol) as [dep|]; [|done]. simpl.
  destruct (FindCommonBlockContaining ctx _ (so_symbol dep)); [|done].
  by destruct (hasObjectEntityDetails _).
Qed.

Lemma foldEquivalenceBlock_withoutObjects eqIter h p size alignment :
  foldEquivalenceBlock eqIter (withoutObjects h) p size alignment
  = foldEquivalenceBlock eqIter h p size alignment.
Proof. reflexivity. Qed.

Local Ltac fold_block :=
  first
    [ done
    | match goal with
      | |- context [foldEquivalenceBlock ?e ?h ?p ?a ?b] =>
          by destruct (foldEquivalenceBlock e h p a b)
      end ].

Lemma DoCommonBlock_object_withoutObjects commonBlock st symbol :
  DoCommonBlock_object ctx commonBlock (loopWithoutObjects st) symbol
  = st' ← DoCommonBlock_object ctx commonBlock st symbol;
    Done (loopWithoutObjects st').
Proof.
  unfold DoCommonBlock_object.
  cbn [loopWithoutObjects cl_helper cl_program previous minSize minAlignment].
  rewrite DoSymbol_withoutObjects.
  destruct (DoSymbol ctx _ None (cl_helper st) (cl_program st))
    as [[padding h] p].
  change (equivalenceBlock_ (withoutObjects h)) with (equivalenceBlock_ h).
  change (dependents_ (withoutObjects h))
    with (withoutObject <$> dependents_ h).
  rewrite lookup_fmap.
  destruct (dependents_ h !! symbol) as [dep|]; simpl.
  - destruct (FindCommonBlockContaining ctx _ (so_symbol dep)) as [block|].
    + repeat case_decide; simpl; fold_block.
    + case_decide; simpl; [fold_block|].
      destruct (hasObjectEntityDetails _); [|done]. simpl.
      rewrite foldEquivalenceBlock_withoutObjects. fold_block.
  - destruct (equivalenceBlock_ h !! symbol); simpl.
    + match goal with
      | |- context [foldEquivalenceBlock ?e
                      (with_equivalenceBlock_ ?eb (withoutObjects h)) ?q ?a ?b] =>
          change (foldEquivalenceBlock e
                    (with_equivalenceBlock_ eb (withoutObjects h)) q a b)
            with (foldEquivalenceBlock e (with_equivalenceBlock_ eb h) q a b)
      end.
      fold_block.
    + rewrite ?foldEquivalenceBlock_withoutObjects. fold_block.
Qed.

Lemma DoCommonBlock_objects_withoutObjects commonBlock objects st :
  DoCommonBlock_objects ctx commonBlock objects (loopWithoutObjects st)
  = st' ← DoCommonBlock_objects ctx commonBlock objects st;
    Done (loopWithoutObjects st').
Proof.
  revert st. induction objects as [|object rest IH]; intros st; [done|].
  cbn [DoCommonBlock_objects]. rewrite DoCommonBlock_object_withoutObjects.
  destruct (DoCommonBlock_object ctx commonBlock st object) as [st'|f];
    [|done].
  cbn [mbind Result_bind]. apply IH.
Qed.

Lemma DoCommonBlock_withoutObjects commonBlock h p :
  DoCommonBlock ctx commonBlock (withoutObjects h) p
  = '(h', p') ← DoCommonBlock ctx commonBlock h p;
    Done (withoutObjects h', p').
Proof.
  unfold DoCommonBlock.
  change (mkCommonBlockLoop
            (with_alignment_ 0 (with_offset_ 0 (withoutObjects h))) p 0 0 ∅)
    with (loopWithoutObjects
            (mkCommonBlockLoop (with_alignment_ 0 (with_offset_ 0 h)) p 0 0 ∅)).
  rewrite DoCommonBlock_objects_withoutObjects.
  by destruct (DoCommonBlock_objects ctx commonBlock _ _) as [st'|f].
Qed.

Lemma forEach_withoutObjects {A} (f : A -> Helper * Program -> Result (Helper * Program))
    (items : list A) h p :
  (forall x h p, f x (withoutObjects h, p)
     = '(h', p') ← f x (h, p); Done (withoutObjects h', p')) ->
  forEach f items (withoutObjects h, p)
  = '(h', p') ← forEach f items (h, p); Done (withoutObjects h', p').
Proof.
  intros Hf. revert h p. induction items as [|x rest IH]; intros h p; [done|].
  cbn [forEach]. rewrite Hf.
  destruct (f x (h, p)) as [[h' p']|e]; [|done].
  cbn [mbind Result_bind]. apply IH.
Qed.

Lemma foldl_withoutObjects {A} (f : Helper * Program -> A -> Helper * Program)
    (items : list A) h p :
  (forall x h p, f (withoutObjects h, p) x
     = let '(h', p') := f (h, p) x in (withoutObjects h', p')) ->
  foldl f (withoutObjects h, p) items
  = let '(h', p') := foldl f (h, p) items in (withoutObjects h', p').
Proof.
  intros Hf. revert h p. induction items as [|x rest IH]; intros h p.
  - done.
  - cbn [foldl]. rewrite Hf. destruct (f (h, p) x) as [h' p']. apply IH.
Qed.

Lemma placeAndCommit_withoutObjects scope h p :
  placeAndCommit ctx scope (withoutObjects h, p)
  = placeAndCommit ctx scope (h, p).
Proof.
  unfold placeAndCommit. cbn [fst].
  change (equivalenceBlock_ (withoutObjects h)) with (equivalenceBlock_ h).
  rewrite foldl_withoutObjects
    by (intros; apply placeEquivalenceBlock_withoutObjects).
  destruct (foldl _ (h, p) _) as [h1 p1].
  rewrite foldl_withoutObjects
    by (intros; apply placeSymbol_withoutObjects).
  destruct (foldl _ (h1, p1) _) as [h2 p2].
  change (offset_ (withoutObjects h2)) with (offset_ h2).
  change (alignment_ (withoutObjects h2)) with (alignment_ h2).
  set (h3 := with_offset_ _ h2).
  change (with_offset_ _ (withoutObjects h2)) with (withoutObjects h3).
  change (offset_ (withoutObjects h3)) with (offset_ h3).
  change (alignment_ (withoutObjects h3)) with (alignment_ h3).
  case_decide.
  - cbn [mbind Result_bind fst]. rewrite orderedKeys_withoutObjects.
    rewrite forEach_withoutObjects
      by (intros; apply commitDependent_withoutObjects).
    by destruct (forEach _ _ (h3, p2)) as [[h4 p4]|e].
  - rewrite (forEach_withoutObjects
               (fun (pair : string * CommonBlock) '(h, p) => DoCommonBlock ctx pair.2 h p))
      by (intros; apply DoCommonBlock_withoutObjects).
    destruct (forEach _ (scope_commonBlocks _) (h3, p2)) as [[h4 p4]|e];
      [|done].
    cbn [mbind Result_bind fst]. rewrite orderedKeys_withoutObjects.
    rewrite forEach_withoutObjects
      by (intros; apply commitDependent_withoutObjects).
    by destruct (forEach _ _ (h4, p4)) as [[h5 p5]|e].
Qed.
End ObjectsProperties.

Section PlacedPermutation.
Context (ctx : SemanticsContext).

Lemma placeAndCommit_with_equivalenceSets sets' scope st :
  placeAndCommit ctx (with_equivalenceSets sets' scope) st
  = '(scope', p') ← placeAndCommit ctx scope st;
    Done (with_equivalenceSets sets' scope', p').
Proof.
  unfold placeAndCommit.
  cbn [with_equivalenceSets scope_symbols scope_kind scope_commonBlocks].
  destruct (foldl _ (foldl _ _ _) _) as [h p1].
  cbn [with_layout scope_kind].
  destruct (if decide _ then _ else _) as [st3|]; [|done].
  cbn [mbind Result_bind].
  by destruct (forEach (commitDependent ctx) _ _) as [[h4 p4]|].
Qed.

Lemma withoutObjects_eq h1 h2 :
  offset_ h1 = offset_ h2 -> alignment_ h1 = alignment_ h2 ->
  equivalenceBlock_ h1 = equivalenceBlock_ h2 ->
  (forall k, withoutObject <$> dependents_ h1 !! k
             = withoutObject <$> dependents_ h2 !! k) ->
  withoutObjects h1 = withoutObjects h2.
Proof.
  intros Ho Ha He Hd. destruct h1, h2. simpl in *. subst.
  unfold withoutObjects, with_dependents_. simpl. f_equal.
  apply map_eq. intros k. by rewrite !lookup_fmap.
Qed.

Lemma Consistent_empty addr sets : Consistent addr sets ∅.
Proof. split; [apply Acyclic_empty|]. intros k e. by rewrite lookup_empty. Qed.

Lemma Joined_nil dependents : Joined dependents [].
Proof. intros set Hset. by apply elem_of_nil in Hset. Qed.

Lemma layoutScope_placed addr scope sets' p scope' p' :
  Permutation (scope_equivalenceSets scope) sets' ->
  Placed ctx addr (scope_equivalenceSets scope) ->
  layoutScope ctx scope p = Done (scope', p') ->
  layoutScope ctx (with_equivalenceSets sets' scope) p
  = Done (with_equivalenceSets sets' scope', p').
Proof.
  intros Hperm Hplaced. rewrite !layoutScope_placeAndCommit.
  pose proof (Placed_Satisfied _ _ _ Hplaced) as Hsatisfied.
  change (scope_equivalenceSets (with_equivalenceSets sets' scope)) with sets'.
  set (sets := scope_equivalenceSets scope) in *.
  destruct (DoEquivalenceSets ctx sets (newHelper, p)) as [st1|] eqn:Hsets;
    [|done].
  pose proof (DoEquivalenceSets_nonempty ctx _ _ _ Hsets) as Hnonempty.
  destruct (DoEquivalenceSets_Consistent ctx addr sets Hsatisfied sets
              newHelper p [])
    as (h1 & Hrun1 & Ho1 & Ha1 & He1 & Hc1 & Hj1);
    [by intros set Hset; split; [|apply Hnonempty]
    |apply Consistent_empty|apply Joined_nil|].
  destruct (DoEquivalenceSets_Consistent ctx addr sets Hsatisfied sets'
              newHelper p [])
    as (h2 & Hrun2 & Ho2 & Ha2 & He2 & Hc2 & Hj2);
    [|apply Consistent_empty|apply Joined_nil|].
  { intros set Hset. rewrite <- Hperm in Hset. split; [done|].
    by apply Hnonempty. }
  rewrite app_nil_r in Hj1, Hj2.
  assert (Joined (dependents_ h2) sets) as Hj2'.
  { intros set Hset. apply Hj2. by rewrite <- Hperm. }
  assert (sameRoots (dependents_ h1) (dependents_ h2)) as Hsame.
  { intros s r d. split; by apply (Consistent_same_roots ctx addr sets). }
  rewrite Hrun1 in Hsets. injection Hsets as <-. rewrite Hrun2.
  cbn [mbind Result_bind fst].
  rewrite <- (sameRoots_orderedKeys _ _ Hsame).
  destruct (forEach (resolveDependent ctx) (orderedKeys (dependents_ h1))
              (h1, p)) as [[h1' p1]|] eqn:Hpass; [|done].
  destruct (resolveDependents_sameRoots ctx addr sets Hsatisfied
              (orderedKeys (dependents_ h1)) h1 h2 p h1' p1)
    as (h2' & Hpass2 & Ho' & Ha' & He' & Hloc); try done.
  { apply orderedKeys_NoDup. }
  { intros k. apply orderedKeys_elem_of. }
  { congruence. } { congruence. } { congruence. }
  rewrite Hpass2. cbn [mbind Result_bind].
  rewrite placeAndCommit_with_equivalenceSets.
  rewrite <- (placeAndCommit_withoutObjects ctx scope h2').
  rewrite <- (withoutObjects_eq h1' h2'), placeAndCommit_withoutObjects;
    try done.
  - by intros ->.
  - intros k. apply Hloc.
    destruct (dependents_ h1 !! k) as [e|] eqn:Hk.
    + left. apply orderedKeys_elem_of. by rewrite Hk.
    + right.
      apply (sameRoots_None _ _ k Hsame) in Hk. by rewrite Hk.
Qed.

(** With a placement of the symbols that satisfies every set and has no
    tie at the start of a storage sequence, the order of the sets is
    immaterial. *)
Lemma Compute_permuted_placed addr scope sets' p scope' p' :
  Permutation (scope_equivalenceSets scope) sets' ->
  Placed ctx addr (scope_equivalenceSets scope) ->
  Compute ctx scope p = Done (scope', p') ->
  Compute ctx (with_equivalenceSets sets' scope) p
  = Done (with_equivalenceSets sets' scope', p').
Proof.
  intros Hperm Hplaced. rewrite !Compute_unfold.
  change (scope_children (with_equivalenceSets sets' scope))
    with (scope_children scope).
  destruct (ComputeChildren ctx (scope_children scope) p) as [[children p1]|];
    [|done].
  cbn [mbind Result_bind]. cbv zeta.
  change (scope_symbol (with_children children
                          (with_equivalenceSets sets' scope)))
    with (scope_symbol (with_children children scope)).
  change (IsDerivedTypeWithKindParameter
            (with_children children (with_equivalenceSets sets' scope)))
    with (IsDerivedTypeWithKindParameter (with_children children scope)).
  change (scope_alignment (with_children children
                             (with_equivalenceSets sets' scope)))
    with (scope_alignment (with_children children scope)).
  destruct (_ && _); [by intros [= <- <-]|].
  destruct (bool_decide (is_Some (scope_alignment _)));
    [by intros [= <- <-]|].
  intros Hlayout.
  apply (layoutScope_placed addr _ sets') in Hlayout; [|done|done].
  exact Hlayout.
Qed.
End PlacedPermutation.

Lemma Associated_named sets s t :
  Associated sets s t ->
  s = t \/ (s ∈ namedSymbols sets /\ t ∈ namedSymbols sets).
Proof.
  induction 1 as [s|s u t (set & o1 & o2 & Hset & Ho1 & Ho2 & <- & <-) _ IH];
    [by left|].
  right. split; [by eapply named_elem_of|].
  destruct IH as [<-|[_ Ht]]; [by eapply named_elem_of|done].
Qed.

Lemma chainedSets_Placed :
  Placed Sample.interleaved Sample.chainedAddress Sample.chainedSets.
Proof.
  split; [|split].
  - intros s. unfold Sample.chainedAddress.
    do 4 (destruct s as [|s]; [lia|]). lia.
  - intros set Hset. unfold Sample.chainedSets in Hset.
    rewrite !elem_of_cons, elem_of_nil in Hset.
    destruct Hset as [->|[->|[]]].
    + exists 4. split; [done|]. intros o Ho.
      rewrite !elem_of_cons, elem_of_nil in Ho.
      destruct Ho as [->|[->|[]]]; [by exists 4|by exists 0].
    + exists 8. split; [done|]. intros o Ho.
      rewrite !elem_of_cons, elem_of_nil in Ho.
      destruct Ho as [->|[->|[]]]; [by exists 4|by exists 0].
  - intros s t Hassociated Haddr. left.
    destruct (Associated_named _ _ _ Hassociated) as [->|[Hs Ht]]; [done|].
    change (namedSymbols Sample.chainedSets) with [1; 3; 3; 2]%nat in Hs, Ht.
    rewrite !elem_of_cons, elem_of_nil in Hs, Ht.
    destruct Hs as [->|[->|[->|[->|[]]]]], Ht as [->|[->|[->|[->|[]]]]];
      done.
Qed.

(** C9, as the code has it: the computation on a scope with its equivalence
    sets in another order returns the same program, and so the same final
    offset for every symbol, and the same size and alignment of the scope,
    when no symbol is named by more than one object of the sets, or when
    the sets agree on a placement of the symbols (the objects of every set
    at one storage unit) in which no two symbols begin together at the
    start of a storage sequence. *)
Theorem Compute_permuted_equivalenceSets ctx addr scope sets' p scope' p' :
  Permutation (scope_equivalenceSets scope) sets' ->
  NoDup (namedSymbols (scope_equivalenceSets scope))
  \/ Placed ctx addr (scope_equivalenceSets scope) ->
  Compute ctx scope p = Done (scope', p') ->
  Compute ctx (with_equivalenceSets sets' scope) p
  = Done (with_equivalenceSets sets' scope', p').
Proof.
  intros Hperm [Hnodup|Hplaced] Hcompute.
  - by apply Compute_permuted_disjoint.
  - by apply (Compute_permuted_placed ctx addr).
Qed.

Lemma Compute_permuted_equivalenceSets_witness :
  Permutation Sample.chainedSets Sample.chainedSetsExchanged
  /\ Placed Sample.interleaved Sample.chainedAddress Sample.chainedSets
  /\ match Compute Sample.interleaved (Sample.equivalencing Sample.chainedSets)
              Sample.emptyProgram with
     | Done (scope', p') =>
         Compute Sample.interleaved
           (Sample.equivalencing Sample.chainedSetsExchanged)
           Sample.emptyProgram
         = Done (with_equivalenceSets Sample.chainedSetsExchanged scope', p')
     | Abort _ => False
     end.
Proof.
  split; [apply perm_swap|]. split; [apply chainedSets_Placed|].
  destruct (Compute Sample.interleaved (Sample.equivalencing Sample.chainedSets)
              Sample.emptyProgram) as [[scope' p']|] eqn:H;
    [|vm_compute in H; discriminate].
  apply (Compute_permuted_equivalenceSets Sample.interleaved
           Sample.chainedAddress (Sample.equivalencing Sample.chainedSets)
           Sample.chainedSetsExchanged Sample.emptyProgram scope' p').
  - apply perm_swap.
  - right. apply chainedSets_Placed.
  - exact H.
Defined.

(** C9 as stated fails when the sets tie: [a] and [b] begin at the same
    storage unit, and the set met last decides which of them is the base of
    the block.  With [(a(1), b(1))] before [(b(2), a(2))] the base is [b],
    the block of [x] is placed first, and [a] is at offset 4; with the two
    sets exchanged the base is [a], placed first, at offset 0. *)
Lemma Compute_order_of_sets_matters :
  Permutation Sample.tiedSets Sample.tiedSetsExchanged
  /\ match Compute Sample.interleaved (Sample.equivalencing Sample.tiedSets)
             Sample.emptyProgram,
           Compute Sample.interleaved
             (Sample.equivalencing Sample.tiedSetsExchanged)
             Sample.emptyProgram with
     | Done (_, p1), Done (_, p2) =>
         symbol_offset p1 1 = 4 /\ symbol_offset p1 2 = 0
         /\ symbol_offset p2 1 = 0 /\ symbol_offset p2 2 = 8
         /\ messages p1 = [] /\ messages p2 = []
     | _, _ => False
     end.
Proof.
  split; [apply perm_skip, perm_swap|]. vm_compute. by repeat split.
Qed.

(** * Further properties

    Properties of the functions and loops beyond the claims of the
    specification. *)

(** ** Resolve and Align *)

(** ** Resolve along a chain *)

Lemma RootAt_base_inv dependents s r d :
  dependents !! s = None -> RootAt dependents s r d -> r = s /\ d = 0.
Proof. intros Hs Hroot. inversion Hroot; subst; [done|congruence]. Qed.

Lemma Resolve_fuel_chain dependents s r d :
  RootAt dependents s r d ->
  forall fuel n c o,
    ChainLength dependents s n -> (n <= fuel)%nat ->
    Resolve_fuel fuel dependents (mkSymbolAndOffset s c o)
    = Done (mkSymbolAndOffset r
              (match n with O => c | S _ => wrap (d + c) end) o).
Proof.
  induction 1 as [s Hs|s e r d He Hroot IH]; intros fuel n c o Hn Hfuel.
  - inversion Hn; subst; try congruence.
    destruct fuel; simpl; by rewrite Hs.
  - inversion Hn as [|? e' m He' Hm]; subst; try congruence.
    assert (e' = e) as -> by congruence.
    destruct fuel as [|fuel]; [lia|]. simpl. rewrite He.
    destruct e as [s1 c1 o1]. simpl in *.
    rewrite (IH fuel m c1 o1 Hm) by lia. simpl. do 2 f_equal.
    unfold size_add. destruct m.
    + inversion Hm; subst.
      destruct (RootAt_base_inv _ _ _ _ ltac:(eassumption) Hroot) as [_ ->].
      done.
    + by rewrite wrap_add_l.
Qed.

Lemma Resolve_fuel_Done_chain fuel dependents dep r :
  Resolve_fuel fuel dependents dep = Done r ->
  exists n, ChainLength dependents (so_symbol dep) n.
Proof.
  revert dep r. induction fuel as [|fuel IH]; intros dep r; simpl.
  - destruct (dependents !! so_symbol dep) eqn:Hdep; [done|].
    intros _. exists 0%nat. by constructor.
  - destruct (dependents !! so_symbol dep) as [next|] eqn:Hdep.
    + destruct (Resolve_fuel fuel dependents next) as [r'|] eqn:Hnext;
        [|done].
      intros _. destruct (IH _ _ Hnext) as [n Hn].
      exists (S n). by econstructor.
    + intros _. exists 0%nat. by constructor.
Qed.

Lemma Resolve_fuel_endless dependents dep :
  (forall n, ¬ ChainLength dependents (so_symbol dep) n) ->
  forall fuel, Resolve_fuel fuel dependents dep = Abort NoTermination.
Proof.
  intros Hendless fuel. revert dep Hendless.
  induction fuel as [|fuel IH]; intros dep Hendless; simpl.
  - destruct (dependents !! so_symbol dep) eqn:Hdep; [done|].
    exfalso. apply (Hendless 0%nat). by constructor.
  - destruct (dependents !! so_symbol dep) as [next|] eqn:Hdep.
    + rewrite IH; [done|]. intros n Hn. apply (Hendless (S n)).
      by econstructor.
    + exfalso. apply (Hendless 0%nat). by constructor.
Qed.

(** X1: [Resolve] follows the edges from the symbol of its argument to the
    symbol at the end of the chain, adds the offsets of the edges to the
    offset of the argument as [std::size_t], and keeps the object of the
    argument; resolving the result again returns it unchanged. *)
Theorem Resolve_adds_offsets dependents dep r d :
  RootAt dependents (so_symbol dep) r d ->
  is_size_t (so_offset dep) ->
  Resolve dependents dep
  = Done (mkSymbolAndOffset r (wrap (d + so_offset dep)) (so_object dep))
  /\ Resolve dependents
       (mkSymbolAndOffset r (wrap (d + so_offset dep)) (so_object dep))
     = Done (mkSymbolAndOffset r (wrap (d + so_offset dep)) (so_object dep)).
Proof.
  intros Hroot Hrange. split.
  - destruct (RootAt_ChainLength _ _ _ _ Hroot) as [n Hn].
    destruct dep as [s c o]. simpl in *. unfold Resolve.
    rewrite (Resolve_fuel_chain _ _ _ _ Hroot _ n c o Hn)
      by (by eapply ChainLength_le_size).
    do 2 f_equal. destruct n; [|done].
    inversion Hn; subst.
    destruct (RootAt_base_inv _ _ _ _ ltac:(eassumption) Hroot) as [_ ->].
    by rewrite wrap_small.
  - apply Resolve_root. simpl. by eapply RootAt_root.
Qed.

(** X2: [Resolve] returns exactly when the chain of edges from the symbol
    of its argument ends; on a chain that does not end (a cycle in
    [dependents_]) the recursion never returns, whatever its depth. *)
Theorem Resolve_returns_iff_chain_ends dependents dep :
  ((exists r, Resolve dependents dep = Done r)
   <-> exists n, ChainLength dependents (so_symbol dep) n)
  /\ ((forall n, ¬ ChainLength dependents (so_symbol dep) n) ->
      forall fuel, Resolve_fuel fuel dependents dep = Abort NoTermination).
Proof.
  split; [split|].
  - intros [r Hr]. by eapply Resolve_fuel_Done_chain.
  - intros [n Hn].
    destruct (Resolve_fuel_enough dependents dep n (size dependents) Hn)
      as (r & Hr & _); [by eapply ChainLength_le_size|].
    by exists r.
  - apply Resolve_fuel_endless.
Qed.

Lemma Resolve_adds_offsets_witness :
  Resolve {[1%nat := mkSymbolAndOffset 2 4 (Sample.whole 1 "a")]}
    (mkSymbolAndOffset 1 8 (Sample.whole 1 "b"))
  = Done (mkSymbolAndOffset 2 12 (Sample.whole 1 "b")).
Proof.
  refine (proj1 (Resolve_adds_offsets
                   {[1%nat := mkSymbolAndOffset 2 4 (Sample.whole 1 "a")]}
                   (mkSymbolAndOffset 1 8 (Sample.whole 1 "b")) 2 (0 + 4) _ _)).
  - apply (RootAt_edge _ 1%nat (mkSymbolAndOffset 2 4 (Sample.whole 1 "a"))
             2%nat 0); [reflexivity|].
    apply RootAt_base. reflexivity.
  - unfold is_size_t. simpl. split; [lia|reflexivity].
Defined.

(** ** Align at the edges *)

Lemma testbit_wrap z i :
  0 <= i -> Z.testbit (wrap z) i = bool_decide (i < 64) && Z.testbit z i.
Proof.
  intros Hi. unfold wrap, size_t_modulus, size_t_bits.
  case_bool_decide.
  - by rewrite Z.mod_pow2_bits_low.
  - by rewrite Z.mod_pow2_bits_high by lia.
Qed.

(** X3: [Align] keeps the offset 0 whatever the alignment, and an alignment
    of 0 sends every offset to 0. *)
Theorem Align_zero maxAlignment x alignment :
  Align maxAlignment 0 alignment = 0
  /\ (0 <= maxAlignment -> Align maxAlignment x 0 = 0).
Proof.
  split.
  - unfold Align, size_sub, size_add, size_neg.
    set (a := Z.min alignment maxAlignment).
    rewrite Z.add_0_l, <- (Z.add_opp_r (wrap a)), wrap_add_l.
    set (b := a + - (1)).
    replace (- a) with (Z.lnot b) by (unfold Z.lnot, b; lia).
    apply Z.bits_inj'. intros i Hi.
    rewrite Z.land_spec, !testbit_wrap, Z.bits_0, Z.lnot_spec by done.
    destruct (bool_decide (i < 64)), (Z.testbit b i); done.
  - intros Hmax. unfold Align. rewrite Z.min_l by done.
    unfold size_neg. simpl. apply Z.land_0_r.
Qed.

(** ** ComputeOffset and sets of one object *)

Section EdgeProperties.
Context (ctx : SemanticsContext).

(** X4: [ComputeOffset] returns exactly when the object has no more
    subscripts than its symbol has dimensions (or the symbol is no data
    object, whose subscripts are not read); with more subscripts it reads a
    bound that is not there, which is its only failure. *)
Theorem ComputeOffset_returns_iff_subscripts_fit object :
  ((exists offset, ComputeOffset ctx object = Done offset)
   <-> subscriptsInShape ctx object)
  /\ (¬ subscriptsInShape ctx object ->
      ComputeOffset ctx object = Abort UndefinedBehaviour).
Proof.
  assert (¬ subscriptsInShape ctx object ->
          ComputeOffset ctx object = Abort UndefinedBehaviour) as Hfails.
  { intros Hnot. unfold subscriptsInShape in Hnot. unfold ComputeOffset.
    destruct (hasObjectEntityDetails _) eqn:Hobject;
      [|exfalso; apply Hnot; done].
    assert (length (sym_shape (symbolInfo ctx (eo_symbol object)))
            < length (eo_subscripts object))%nat as Hlen
      by (apply Nat.nle_gt; intros Hle; apply Hnot; intros _; exact Hle).
    destruct (eo_subscripts object) as [|subscript subscripts] eqn:Hsubs;
      [simpl in Hlen; lia|].
    rewrite <- Hsubs in *.
    destruct (length (eo_subscripts object) - 1)%nat as [|i] eqn:Hi; simpl.
    - rewrite (lookup_ge_None_2 (sym_shape _)) by lia.
      by destruct (eo_subscripts object !! 0%nat).
    - rewrite (lookup_ge_None_2 (sym_shape _) (S i)) by lia.
      by destruct (eo_subscripts object !! S i). }
  split; [split|done].
  - intros [offset Hdone].
    destruct (decide (hasObjectEntityDetails
                        (symbolInfo ctx (eo_symbol object)) = true
                      -> (length (eo_subscripts object)
                          <= length (sym_shape
                                       (symbolInfo ctx (eo_symbol object))))%nat))
      as [Hfit|Hnot]; [done|].
    rewrite (Hfails Hnot) in Hdone. done.
  - apply ComputeOffset_total.
Qed.

(** X5: an equivalence set of a single object changes nothing: no edge is
    recorded and nothing is said. *)
Theorem DoEquivalenceSet_single object h p :
  Acyclic (dependents_ h) -> subscriptsInShape ctx object ->
  DoEquivalenceSet ctx [object] h p = Done (h, p).
Proof.
  intros Hacyclic Hfit. unfold DoEquivalenceSet. cbn [resolveObjects].
  destruct (ComputeOffset_total ctx object Hfit) as [offset ->].
  cbn [mbind Result_bind].
  destruct (Resolve_total (dependents_ h)
              (mkSymbolAndOffset (eo_symbol object) offset object) Hacyclic)
    as (r & -> & _).
  cbn [mbind Result_bind noteResolved]. simpl.
  rewrite !decide_True by done. simpl.
  destruct h, p. simpl. by rewrite app_nil_r.
Qed.
End EdgeProperties.

(** ** The AIX alignment rule *)

Section AlignmentProperties.
Context (ctx : SemanticsContext).




End AlignmentProperties.

(** ** DoSymbol *)

Lemma power_of_two_pos m : power_of_two m -> 0 < m.
Proof. intros (k & Hk & ->). by apply Z.pow_pos_nonneg. Qed.

Section DoSymbolProperties.
Context (ctx : SemanticsContext).

Lemma GetSizeAndAlignment_size_t symbol entire :
  is_size_t (sa_size (GetSizeAndAlignment ctx symbol entire))
  /\ is_size_t (sa_alignment (GetSizeAndAlignment ctx symbol entire)).
Proof.
  assert (is_size_t 0) as Hzero by (unfold is_size_t; split; [lia|done]).
  unfold GetSizeAndAlignment.
  repeat first [case_match | case_decide]; simpl; auto using wrap_range.
Qed.

Lemma DoSymbol_occupies symbol newAlign h p :
  occupiesStorage ctx symbol = true ->
  DoSymbol ctx symbol newAlign h p
  = let s := GetSizeAndAlignment ctx symbol true in
    let alignVal := default (sa_alignment s) newAlign in
    let aligned :=
      Align (maxAlignment (targetCharacteristics ctx)) (offset_ h) alignVal in
    (size_sub aligned (offset_ h),
     with_alignment_ (Z.max (alignment_ h) alignVal)
       (with_offset_ (size_add aligned (sa_size s)) h),
     set_offset symbol aligned (set_size symbol (sa_size s) p)).
Proof.
  unfold occupiesStorage, DoSymbol. intros [Hentity Hsize]%andb_prop.
  apply bool_decide_eq_true in Hsize.
  destruct (hasObjectEntityDetails _), (hasProcEntityDetails _);
    simpl in *; try done; by rewrite decide_False.
Qed.

Lemma DoSymbol_skips symbol newAlign h p :
  occupiesStorage ctx symbol = false ->
  DoSymbol ctx symbol newAlign h p = (0, h, p).
Proof.
  unfold occupiesStorage, DoSymbol. intros Hskip.
  destruct (negb _ && negb _) eqn:Hentity; [done|].
  case_decide as Hsize; [done|].
  rewrite (bool_decide_eq_true_2 _ Hsize), andb_true_r in Hskip.
  destruct (hasObjectEntityDetails _), (hasProcEntityDetails _); done.
Qed.

(** X8: [DoSymbol] on an object or procedure entity of non-zero size, when
    the alignment (clamped to the target's maximum) is a power of two and
    the storage fits [std::size_t]: the symbol is placed at the next
    multiple of the alignment at or after [offset_], the padding returned is
    the distance to it and is less than the alignment, the symbol gets its
    size, [offset_] moves to the end of the symbol and [alignment_] becomes
    the greater of its value and the alignment. *)
Theorem DoSymbol_places symbol newAlign h p :
  let s := GetSizeAndAlignment ctx symbol true in
  let m := effectiveAlignment ctx newAlign symbol in
  occupiesStorage ctx symbol = true ->
  power_of_two m ->
  0 <= offset_ h -> offset_ h + m + sa_size s <= size_t_modulus ->
  exists padding h' p',
    DoSymbol ctx symbol newAlign h p = (padding, h', p')
    /\ symbol_offset p' symbol = roundUp (offset_ h) m
    /\ (m | symbol_offset p' symbol)
    /\ offset_ h <= symbol_offset p' symbol < offset_ h + m
    /\ padding = symbol_offset p' symbol - offset_ h
    /\ symbol_size p' symbol = sa_size s
    /\ offset_ h' = symbol_offset p' symbol + sa_size s
    /\ alignment_ h'
       = Z.max (alignment_ h) (default (sa_alignment s) newAlign).
Proof.
  intros s m Hoccupies Hpower Hpos Hfits.
  unfold effectiveAlignment in m. fold s in m.
  pose proof (power_of_two_pos _ Hpower) as Hm.
  destruct (GetSizeAndAlignment_size_t symbol true) as [[Hsize _] _].
  fold s in Hsize.
  rewrite DoSymbol_occupies by done. cbv zeta. fold s.
  assert (Align (maxAlignment (targetCharacteristics ctx)) (offset_ h)
            (default (sa_alignment s) newAlign) = roundUp (offset_ h) m)
    as Haligned by (apply Align_roundUp; [done|done|fold m; unfold is_size_t in Hsize; lia]).
  rewrite Haligned.
  pose proof (roundUp_bounds (offset_ h) m Hm) as Hbounds.
  eexists _, _, _. split; [reflexivity|].
  unfold symbol_offset, symbol_size.
  rewrite symbolState_set_offset, decide_True by done.
  rewrite symbolState_set_size, decide_True by done. simpl.
  split; [done|]. split.
  { rewrite <- Haligned. by apply Align_divide. }
  split; [done|]. split.
  { unfold size_sub. apply wrap_small. unfold is_size_t. lia. }
  split; [done|]. split; [|done].
  unfold size_add. apply wrap_small. unfold is_size_t. lia.
Qed.

(** X9: [DoSymbol] changes nothing but the size and the offset of its
    symbol, [offset_] and [alignment_]: every other symbol, the COMMON
    block of the symbol, the two maps of the helper, the messages and the
    COMMON blocks are as before, and [alignment_] does not decrease.  On a
    symbol that is neither an object nor a procedure entity, or whose size
    is zero, it changes nothing at all and returns no padding. *)
Theorem DoSymbol_frame symbol newAlign h p :
  let '(padding, h', p') := DoSymbol ctx symbol newAlign h p in
  dependents_ h' = dependents_ h
  /\ equivalenceBlock_ h' = equivalenceBlock_ h
  /\ messages p' = messages p
  /\ commonBlocks p' = commonBlocks p
  /\ mappedCommonBlocks p' = mappedCommonBlocks p
  /\ (forall other, other ≠ symbol ->
        symbolState p' other = symbolState p other)
  /\ sym_commonBlock (symbolState p' symbol)
     = sym_commonBlock (symbolState p symbol)
  /\ alignment_ h <= alignment_ h'
  /\ (occupiesStorage ctx symbol = false -> (padding, h', p') = (0, h, p)).
Proof.
  destruct (occupiesStorage ctx symbol) eqn:Hoccupies.
  - rewrite DoSymbol_occupies by done. cbv zeta.
    repeat (split; [done|]). split.
    { intros other Hother.
      rewrite symbolState_set_offset, decide_False by done.
      by rewrite symbolState_set_size, decide_False by done. }
    split.
    { rewrite symbolState_set_offset, decide_True by done. simpl.
      by rewrite symbolState_set_size, decide_True by done. }
    split; [simpl; lia|done].
  - rewrite DoSymbol_skips by done. repeat (split; [done|]). done.
Qed.
End DoSymbolProperties.

(** ** Symbols laid out one after the other *)

Section SequenceProperties.
Context (ctx : SemanticsContext) (newAlign : Symbol -> option Z).



Lemma DoSymbols_cons s rest st :
  DoSymbols ctx newAlign (s :: rest) st
  = DoSymbols ctx newAlign rest
      (let '(_, h, p) := DoSymbol ctx s (newAlign s) st.1 st.2 in (h, p)).
Proof. reflexivity. Qed.


End SequenceProperties.


Section PlainLayoutProperties.
Context (ctx : SemanticsContext).




Lemma DoSymbol_symbols symbol align h p q :
  symbols p = symbols q ->
  (DoSymbol ctx symbol align h p).1 = (DoSymbol ctx symbol align h q).1
  /\ symbols (DoSymbol ctx symbol align h p).2
     = symbols (DoSymbol ctx symbol align h q).2.
Proof.
  intros Hsame.
  destruct (occupiesStorage ctx symbol) eqn:Hoccupies.
  - rewrite !DoSymbol_occupies by done. cbn [fst snd]. split; [done|].
    unfold set_offset, set_size, symbolState. simpl. by rewrite Hsame.
  - by rewrite !DoSymbol_skips.
Qed.

Lemma DoSymbols_symbols newAlign placed h p q :
  symbols p = symbols q ->
  (DoSymbols ctx newAlign placed (h, p)).1
  = (DoSymbols ctx newAlign placed (h, q)).1
  /\ symbols (DoSymbols ctx newAlign placed (h, p)).2
     = symbols (DoSymbols ctx newAlign placed (h, q)).2.
Proof.
  revert h p q. induction placed as [|s rest IH]; intros h p q Hsame;
    [done|].
  rewrite !DoSymbols_cons. cbn [fst snd].
  destruct (DoSymbol_symbols s (newAlign s) h p q Hsame) as [Hh Hp].
  destruct (DoSymbol ctx s (newAlign s) h p) as [[pad1 h1] p1].
  destruct (DoSymbol ctx s (newAlign s) h q) as [[pad2 h2] q1].
  simpl in *. injection Hh as -> ->. by apply IH.
Qed.

End PlainLayoutProperties.


Section SequentialProperties.
Context (ctx : SemanticsContext).




End SequentialProperties.

(** ** Storage shared by EQUIVALENCE *)

Section SharedStorageProperties.
Context (ctx : SemanticsContext).

(** *** What the later loops leave of [dependents_] *)

Lemma placeEquivalenceBlock_dependents symbol st :
  dependents_ (placeEquivalenceBlock ctx symbol st).1 = dependents_ st.1.
Proof.
  destruct st as [h p]. unfold placeEquivalenceBlock.
  destruct (equivalenceBlock_ h !! symbol); [|done].
  destruct (FindCommonBlockContaining ctx p symbol); [done|].
  pose proof (DoSymbol_dependents ctx symbol None h p) as [Hdeps _].
  by destruct (DoSymbol ctx symbol None h p) as [[padding h'] p'].
Qed.

Lemma placeSymbol_dependents scopeSymbols symbol st :
  dependents_ (placeSymbol ctx scopeSymbols symbol st).1 = dependents_ st.1.
Proof.
  destruct st as [h p]. unfold placeSymbol.
  destruct (FindCommonBlockContaining ctx p symbol); [done|].
  destruct (dependents_ h !! symbol); [done|].
  destruct (equivalenceBlock_ h !! symbol); [done|].
  pose proof (DoSymbol_dependents ctx symbol
                (if targetIsAIX ctx
                 then HasSpecialAlign ctx symbol scopeSymbols else None) h p)
    as [Hdeps _].
  destruct (DoSymbol ctx symbol _ h p) as [[padding h'] p'].
  destruct (genericSpecific _) as [[specific|]|]; try done.
  destruct (FindCommonBlockContaining ctx p' specific); [done|].
  pose proof (DoSymbol_dependents ctx specific None h' p') as [Hdeps' _].
  destruct (DoSymbol ctx specific None h' p') as [[padding' h''] p''].
  simpl in *. congruence.
Qed.

Lemma foldl_dependents {A} (f : Helper * Program -> A -> Helper * Program)
    (items : list A) st :
  (forall st x, dependents_ (f st x).1 = dependents_ st.1) ->
  dependents_ (foldl f st items).1 = dependents_ st.1.
Proof.
  intros Hf. revert st. induction items as [|x rest IH]; intros st; [done|].
  cbn [foldl]. by rewrite IH, Hf.
Qed.

Lemma DoCommonBlock_object_dependents commonBlock st symbol st' :
  DoCommonBlock_object ctx commonBlock st symbol = Done st' ->
  dependents_ (cl_helper st') = dependents_ (cl_helper st).
Proof.
  unfold DoCommonBlock_object.
  pose proof (DoSymbol_dependents ctx (GetUltimate (symbolInfo ctx symbol))
                None (cl_helper st) (cl_program st)) as [Hdeps _].
  destruct (DoSymbol ctx _ None (cl_helper st) (cl_program st))
    as [[padding h] p]. simpl in Hdeps.
  destruct (dependents_ h !! symbol) as [dep|].
  - destruct (FindCommonBlockContaining ctx _ (so_symbol dep)) as [block|].
    + repeat case_decide; cbn [mbind Result_bind];
        destruct (foldEquivalenceBlock _ _ _ _ _); by intros [= <-].
    + case_decide; cbn [mbind Result_bind].
      * destruct (foldEquivalenceBlock _ _ _ _ _); by intros [= <-].
      * destruct (hasObjectEntityDetails _); [|done].
        cbn [mbind Result_bind].
        destruct (foldEquivalenceBlock _ _ _ _ _); by intros [= <-].
  - destruct (equivalenceBlock_ h !! symbol); cbn [mbind Result_bind];
      destruct (foldEquivalenceBlock _ _ _ _ _); by intros [= <-].
Qed.

Lemma DoCommonBlock_objects_dependents commonBlock objects st st' :
  DoCommonBlock_objects ctx commonBlock objects st = Done st' ->
  dependents_ (cl_helper st') = dependents_ (cl_helper st).
Proof.
  revert st. induction objects as [|object rest IH]; intros st.
  - by intros [= <-].
  - cbn [DoCommonBlock_objects].
    destruct (DoCommonBlock_object ctx commonBlock st object) as [st1|] eqn:H1;
      [|done].
    cbn [mbind Result_bind]. intros Hrest.
    rewrite (IH _ Hrest). by eapply DoCommonBlock_object_dependents.
Qed.

Lemma DoCommonBlock_dependents commonBlock h p h' p' :
  DoCommonBlock ctx commonBlock h p = Done (h', p') ->
  dependents_ h' = dependents_ h.
Proof.
  unfold DoCommonBlock.
  destruct (DoCommonBlock_objects ctx commonBlock _ _) as [st'|] eqn:Hobjects;
    [|done].
  cbn [mbind Result_bind]. intros [= <- _].
  by rewrite (DoCommonBlock_objects_dependents _ _ _ _ Hobjects).
Qed.

Lemma DoCommonBlocks_dependents (blocks : list (string * nat)) h p h' p' :
  forEach (fun pair '(h, p) => DoCommonBlock ctx pair.2 h p) blocks (h, p)
  = Done (h', p') ->
  dependents_ h' = dependents_ h.
Proof.
  revert h p. induction blocks as [|block rest IH]; intros h p.
  - by intros [= <- _].
  - cbn [forEach].
    destruct (DoCommonBlock ctx block.2 h p) as [[h1 p1]|] eqn:H1; [|done].
    cbn [mbind Result_bind]. intros Hrest.
    rewrite (IH _ _ Hrest). by eapply DoCommonBlock_dependents.
Qed.

(** *** The last loop *)

Lemma commitDependent_step k e h p :
  dependents_ h !! k = Some e -> so_symbol e ≠ k ->
  (exists f, commitDependent ctx k (h, p) = Abort f)
  \/ exists p2,
       commitDependent ctx k (h, p) = Done (h, p2)
       /\ (forall s, s ≠ k -> symbolState p2 s = symbolState p s)
       /\ symbol_offset p2 k
          = size_add (symbol_offset p (so_symbol e)) (so_offset e)
       /\ symbol_size p2 k = symbol_size p k
       /\ (forall block,
             FindCommonBlockContaining ctx p (so_symbol e) = Some block ->
             FindCommonBlockContaining ctx p2 k = Some block)
       /\ messages p2 = messages p /\ commonBlocks p2 = commonBlocks p
       /\ mappedCommonBlocks p2 = mappedCommonBlocks p.
Proof.
  intros He Hbase. unfold commitDependent. rewrite He.
  set (p1 := set_offset k _ p).
  assert (FindCommonBlockContaining ctx p1 (so_symbol e)
          = FindCommonBlockContaining ctx p (so_symbol e)) as ->.
  { unfold FindCommonBlockContaining, p1.
    by rewrite symbolState_set_offset, decide_False. }
  destruct (FindCommonBlockContaining ctx p (so_symbol e)) as [block|].
  - destruct (hasObjectEntityDetails (symbolInfo ctx k)) eqn:Hobject;
      [|left; by eexists].
    right. exists (set_commonBlock k block p1). split; [done|].
    unfold symbol_offset, symbol_size, FindCommonBlockContaining, p1.
    rewrite Hobject. split.
    { intros s Hs. rewrite symbolState_set_commonBlock, decide_False by done.
      by rewrite symbolState_set_offset, decide_False. }
    rewrite symbolState_set_commonBlock, decide_True by done. simpl.
    rewrite symbolState_set_offset, decide_True by done. simpl.
    repeat split; done.
  - right. exists p1. split; [done|].
    unfold symbol_offset, symbol_size, p1. split.
    { intros s Hs. by rewrite symbolState_set_offset, decide_False. }
    rewrite symbolState_set_offset, decide_True by done. simpl.
    repeat split; done.
Qed.

Lemma commitDependent_None k h p :
  dependents_ h !! k = None -> commitDependent ctx k (h, p) = Done (h, p).
Proof. intros He. unfold commitDependent. by rewrite He. Qed.

Lemma commitDependents ks h p h' p' :
  NoDup ks ->
  (forall k e, k ∈ ks -> dependents_ h !! k = Some e -> so_symbol e ∉ ks) ->
  forEach (commitDependent ctx) ks (h, p) = Done (h', p') ->
  h' = h
  /\ (forall k e, k ∈ ks -> dependents_ h !! k = Some e ->
        symbol_offset p' k
        = size_add (symbol_offset p (so_symbol e)) (so_offset e)
        /\ symbol_size p' k = symbol_size p k
        /\ (forall block,
              FindCommonBlockContaining ctx p (so_symbol e) = Some block ->
              FindCommonBlockContaining ctx p' k = Some block))
  /\ (forall s, s ∉ ks \/ dependents_ h !! s = None ->
        symbolState p' s = symbolState p s)
  /\ messages p' = messages p /\ commonBlocks p' = commonBlocks p
  /\ mappedCommonBlocks p' = mappedCommonBlocks p.
Proof.
  revert p. induction ks as [|k ks IH]; intros p Hnodup Hbases.
  { intros [= <- <-]. split; [done|]. split.
    - intros k e Hk. by apply elem_of_nil in Hk.
    - by repeat split. }
  apply NoDup_cons in Hnodup as [Hk Hnodup]. cbn [forEach].
  assert (forall k' e, k' ∈ ks -> dependents_ h !! k' = Some e ->
            so_symbol e ∉ ks) as Hbases'.
  { intros k' e Hk' He Hin. apply (Hbases k' e); [by right|done|by right]. }
  destruct (dependents_ h !! k) as [e|] eqn:He.
  - assert (so_symbol e ≠ k) as Hbase.
    { intros Heq. apply (Hbases k e); [left|done|]. rewrite Heq. left. }
    destruct (commitDependent_step k e h p He Hbase)
      as [[f ->]|(p2 & -> & Hother & Hoffset & Hsize & Hblock & Hsaid
                  & Hcommon & Hmapped)]; [done|].
    cbn [mbind Result_bind]. intros Hrest.
    destruct (IH p2 Hnodup Hbases' Hrest)
      as (-> & Hkeys & Hframe & Hsaid' & Hcommon' & Hmapped').
    split; [done|]. split; [|split].
    + intros k' e' Hk' He'. apply elem_of_cons in Hk' as [->|Hk'].
      * assert (e' = e) as -> by congruence.
        unfold symbol_offset, symbol_size, FindCommonBlockContaining in *.
        rewrite (Hframe k) by (by left). done.
      * destruct (Hkeys k' e' Hk' He') as (Hoffset' & Hsize' & Hblock').
        assert (k' ≠ k) as Hne by (intros ->; done).
        assert (so_symbol e' ≠ k) as Hne'.
        { intros Heq. apply (Hbases k' e'); [by right|done|].
          rewrite Heq. left. }
        unfold symbol_offset, symbol_size, FindCommonBlockContaining in *.
        rewrite Hoffset', Hsize', !Hother by done.
        split; [done|]. split; [done|].
        intros block Hfound. apply Hblock'. by rewrite Hother.
    + intros s [Hs|Hs].
      * rewrite Hframe by (left; intros Hin; apply Hs; by right).
        apply Hother. intros ->. apply Hs. left.
      * rewrite Hframe by (by right). apply Hother. congruence.
    + repeat split; congruence.
  - rewrite commitDependent_None by done. cbn [mbind Result_bind].
    intros Hrest.
    destruct (IH p Hnodup Hbases' Hrest)
      as (-> & Hkeys & Hframe & Hsaid' & Hcommon' & Hmapped').
    split; [done|]. split; [|split; [|done]].
    + intros k' e' Hk' He'. apply elem_of_cons in Hk' as [->|Hk'];
        [congruence|]. by apply Hkeys.
    + intros s [Hs|Hs]; apply Hframe; [left|by right].
      intros Hin. apply Hs. by right.
Qed.

(** X12: the last loop of [Compute], on a map whose entries all lead to a
    symbol without entry: every dependent symbol gets the offset of its base
    plus the offset of its edge, as [std::size_t], and the COMMON block of
    its base when the base is in one; the sizes, the symbols without entry,
    the messages and the COMMON blocks are as before. *)
Theorem commitDependents_offsets h p h' p' :
  (forall k, Direct (dependents_ h) k) ->
  forEach (commitDependent ctx) (orderedKeys (dependents_ h)) (h, p)
  = Done (h', p') ->
  h' = h
  /\ (forall k e, dependents_ h !! k = Some e ->
        symbol_offset p' k
        = size_add (symbol_offset p (so_symbol e)) (so_offset e)
        /\ symbol_size p' k = symbol_size p k
        /\ (forall block,
              FindCommonBlockContaining ctx p (so_symbol e) = Some block ->
              FindCommonBlockContaining ctx p' k = Some block))
  /\ (forall s, dependents_ h !! s = None ->
        symbolState p' s = symbolState p s)
  /\ messages p' = messages p /\ commonBlocks p' = commonBlocks p
  /\ mappedCommonBlocks p' = mappedCommonBlocks p.
Proof.
  intros Hdirect Hloop.
  destruct (commitDependents _ h p h' p' (orderedKeys_NoDup (dependents_ h)))
    as (-> & Hkeys & Hframe & Hrest); [|done|].
  { intros k e _ He Hin. apply orderedKeys_elem_of in Hin as [x Hx].
    rewrite (Hdirect k e He) in Hx. done. }
  split; [done|]. split; [|split; [|done]].
  - intros k e He. apply Hkeys; [|done].
    apply orderedKeys_elem_of. by rewrite He.
  - intros s Hs. apply Hframe. by right.
Qed.

Lemma placeAndCommit_Done scope h p scope' p' :
  placeAndCommit ctx scope (h, p) = Done (scope', p') ->
  exists h3 p3 h4,
    dependents_ h3 = dependents_ h
    /\ forEach (commitDependent ctx) (orderedKeys (dependents_ h3)) (h3, p3)
       = Done (h4, p').
Proof.
  unfold placeAndCommit. cbn [fst].
  set (st1 := foldl _ (h, p) _).
  assert (dependents_ st1.1 = dependents_ h) as Hst1.
  { unfold st1.
    by rewrite (foldl_dependents
                  (fun st symbol => placeEquivalenceBlock ctx symbol st))
      by (intros; apply placeEquivalenceBlock_dependents). }
  pose proof (foldl_dependents
                (fun st symbol =>
                   placeSymbol ctx (scope_symbols scope) symbol st)
                (scope_symbols scope) st1
                ltac:(intros; apply placeSymbol_dependents)) as Hst2.
  destruct (foldl _ st1 (scope_symbols scope)) as [h2 p2].
  cbn [fst] in Hst2.
  set (h2' := with_offset_ _ h2).
  assert (dependents_ h2' = dependents_ h) as Hh2' by (simpl; congruence).
  destruct (if decide _ then Done (h2', p2) else _) as [[h3 p3]|] eqn:Hcommon;
    [|done].
  cbn [mbind Result_bind fst].
  destruct (forEach (commitDependent ctx) _ (h3, p3)) as [[h4 p4]|] eqn:Hlast;
    [|done].
  cbn [mbind Result_bind]. intros [= _ <-].
  exists h3, p3, h4. split; [|done].
  case_decide.
  - injection Hcommon as <- _. done.
  - rewrite (DoCommonBlocks_dependents _ _ _ _ _ Hcommon). done.
Qed.
End SharedStorageProperties.

Section LocatedProperties.
Context (ctx : SemanticsContext) (addr : Symbol -> Z)
  (sets : list (list EquivalenceObject)).
Hypothesis Hsatisfied : Satisfied ctx addr sets.

(** The loop that resolves [dependents_] leaves at every key the symbol at
    the end of its chain and the length of the chain. *)
Lemma resolveDependents_located ks h p h' p' :
  NoDup ks -> (forall k, k ∈ ks -> is_Some (dependents_ h !! k)) ->
  Consistent addr sets (dependents_ h) ->
  forEach (resolveDependent ctx) ks (h, p) = Done (h', p') ->
  (forall k, k ∈ ks ->
     exists e, dependents_ h' !! k = Some e
               /\ RootAt (dependents_ h) k (so_symbol e) (so_offset e))
  /\ (forall k, k ∉ ks -> dependents_ h' !! k = dependents_ h !! k).
Proof.
  revert h p. induction ks as [|k ks IH]; intros h p Hnodup Hkeys Hcons.
  { intros [= <- <-]. split; [|done]. intros k Hk.
    by apply elem_of_nil in Hk. }
  apply NoDup_cons in Hnodup as [Hk Hnodup]. cbn [forEach].
  destruct (Hkeys k ltac:(left)) as [e He].
  destruct (RootAt_exists (dependents_ h) k (proj1 Hcons)) as (r & d & Hroot).
  rewrite (resolveDependent_RootAt ctx addr sets Hsatisfied k h p e r d)
    by done.
  case_decide as Hsize; [|done]. cbn [mbind Result_bind]. intros Hrest.
  set (h1 := resolvedHelper ctx k r d (so_object e) h) in *.
  assert (dependents_ h1
          = <[k := mkSymbolAndOffset r d (so_object e)]> (dependents_ h))
    as Hd1 by done.
  assert (forall j, j ∈ ks -> is_Some (dependents_ h1 !! j)) as Hkeys1.
  { intros j Hj. rewrite Hd1.
    destruct (decide (j = k)) as [->|]; [by rewrite lookup_insert_eq|].
    rewrite lookup_insert_ne by done. apply Hkeys. by right. }
  assert (Consistent addr sets (dependents_ h1)) as Hcons1
    by (rewrite Hd1; by eapply Consistent_redirect).
  destruct (IH h1 _ Hnodup Hkeys1 Hcons1 Hrest) as [Hlocated Hframe].
  split.
  - intros j Hj. apply elem_of_cons in Hj as [->|Hj].
    + exists (mkSymbolAndOffset r d (so_object e)).
      rewrite Hframe, Hd1, lookup_insert_eq by done. done.
    + destruct (Hlocated j Hj) as (e' & He' & Hroot').
      exists e'. split; [done|]. rewrite Hd1 in Hroot'.
      by apply (RootAt_redirect _ _ _ _ _ _ _ _ _ He Hroot) in Hroot'.
  - intros j Hj. rewrite Hframe by (intros Hin; apply Hj; by right).
    rewrite Hd1, lookup_insert_ne; [done|]. intros ->. apply Hj. left.
Qed.

End LocatedProperties.

Section SharedStorage.
Context (ctx : SemanticsContext).

(** X13: when the equivalence sets of a scope are satisfiable (the symbols
    can be placed so that the objects of every set lie at one storage unit),
    [Compute] places them so: with the final offsets, any two objects of one
    set have the same first storage unit, in [std::size_t] arithmetic. *)
Theorem Compute_equivalenced_share_storage addr scope p scope' p' :
  returnsEarly scope = false ->
  Satisfied ctx addr (scope_equivalenceSets scope) ->
  Compute ctx scope p = Done (scope', p') ->
  forall set o1 o2 c1 c2,
    set ∈ scope_equivalenceSets scope -> o1 ∈ set -> o2 ∈ set ->
    ComputeOffset ctx o1 = Done c1 -> ComputeOffset ctx o2 = Done c2 ->
    size_add (symbol_offset p' (eo_symbol o1)) c1
    = size_add (symbol_offset p' (eo_symbol o2)) c2.
Proof.
  intros Hlate Hsatisfied.
  set (sets := scope_equivalenceSets scope) in *.
  assert (sets = scope_equivalenceSets scope) as Hsets by done.
  clearbody sets.
  rewrite Compute_lays_out by done.
  destruct (ComputeChildren ctx (scope_children scope) p)
    as [[children p1]|]; [|done].
  cbn [mbind Result_bind]. rewrite layoutScope_placeAndCommit.
  change (scope_equivalenceSets (with_children children scope))
    with (scope_equivalenceSets scope). rewrite <- Hsets.
  destruct (DoEquivalenceSets ctx sets (newHelper, p1)) as [st1|] eqn:Hrun;
    [|done].
  pose proof (DoEquivalenceSets_nonempty ctx _ _ _ Hrun) as Hnonempty.
  destruct (DoEquivalenceSets_Consistent ctx addr sets Hsatisfied sets
              newHelper p1 [])
    as (h1 & Hrun1 & _ & _ & _ & Hcons & Hjoined).
  { intros set Hset. split; [done|by apply Hnonempty]. }
  { apply Consistent_empty. }
  { apply Joined_nil. }
  rewrite app_nil_r in Hjoined.
  rewrite Hrun1 in Hrun. injection Hrun as <-.
  cbn [mbind Result_bind fst].
  destruct (forEach (resolveDependent ctx) _ (h1, p1)) as [[h2 p2]|] eqn:Hpass;
    [|done].
  cbn [mbind Result_bind]. intros Hplace.
  destruct (resolveDependents_located ctx addr sets Hsatisfied _ h1 p1 h2 p2
              (orderedKeys_NoDup (dependents_ h1)))
    as [Hlocated Hframe]; [|done|done|].
  { intros k. apply orderedKeys_elem_of. }
  destruct (placeAndCommit_Done ctx _ _ _ _ _ Hplace)
    as (h3 & p3 & h4 & Hdeps & Hlast).
  assert (forall s r d, RootAt (dependents_ h1) s r d ->
            dependents_ h3 !! r = None
            /\ (dependents_ h3 !! s = None /\ s = r /\ d = 0
                \/ exists e, dependents_ h3 !! s = Some e
                             /\ so_symbol e = r /\ so_offset e = d))
    as Hroots.
  { intros s r d Hroot. rewrite Hdeps.
    assert (dependents_ h2 !! r = None) as Hr.
    { rewrite Hframe; [by eapply RootAt_root|].
      intros Hin. apply orderedKeys_elem_of in Hin as [x Hx].
      by rewrite (RootAt_root _ _ _ _ Hroot) in Hx. }
    split; [done|].
    destruct (dependents_ h1 !! s) as [e1|] eqn:Hs.
    - right. destruct (Hlocated s) as (e & He & Hroot');
        [apply orderedKeys_elem_of; by rewrite Hs|].
      destruct (RootAt_unique _ _ _ _ _ _ Hroot Hroot') as [-> ->].
      by exists e.
    - left. inversion Hroot; subst; [|congruence].
      split; [|done]. rewrite Hframe; [done|].
      intros Hin. apply orderedKeys_elem_of in Hin as [x Hx]. congruence. }
  destruct (commitDependents ctx _ h3 p3 h4 p'
              (orderedKeys_NoDup (dependents_ h3)))
    as (_ & Hkeys & Hkept & _); [|done|].
  { intros k e _ He Hin. apply orderedKeys_elem_of in Hin as [x Hx].
    destruct (RootAt_exists (dependents_ h1) k (proj1 Hcons))
      as (r & d & Hroot).
    destruct (Hroots k r d Hroot) as [Hr [[Hnone _]|(e' & He' & <- & _)]];
      congruence. }
  assert (forall s r d, RootAt (dependents_ h1) s r d ->
            symbol_offset p' s = wrap (symbol_offset p3 r + d)
            \/ s = r /\ d = 0) as Hoffset.
  { intros s r d Hroot.
    destruct (Hroots s r d Hroot) as [Hr [(_ & -> & ->)|(e & He & <- & <-)]];
      [by right|left].
    apply Hkeys; [|done]. apply orderedKeys_elem_of. by rewrite He. }
  intros set o1 o2 c1 c2 Hset Ho1 Ho2 Hc1 Hc2.
  destruct (Hjoined set Hset) as [r Hr].
  destruct (Hr o1 Ho1) as [d1 Hroot1]. destruct (Hr o2 Ho2) as [d2 Hroot2].
  destruct (RootAt_exact _ _ _ _ _ _ Hcons Hroot1) as (Hd1 & _).
  destruct (RootAt_exact _ _ _ _ _ _ Hcons Hroot2) as (Hd2 & _).
  destruct Hsatisfied as [_ Hplaces].
  destruct (Hplaces set Hset) as (v & _ & Hv).
  destruct (Hv o1 Ho1) as (c1' & Hc1' & Hv1).
  destruct (Hv o2 Ho2) as (c2' & Hc2' & Hv2).
  assert (c1' = c1) as -> by congruence.
  assert (c2' = c2) as -> by congruence.
  assert (forall o d c, RootAt (dependents_ h1) (eo_symbol o) r d ->
            d = addr (eo_symbol o) - addr r -> addr (eo_symbol o) + c = v ->
            size_add (symbol_offset p' (eo_symbol o)) c
            = wrap (symbol_offset p' r + (v - addr r))) as Hsame.
  { intros o d c Hroot Hd Hvo. unfold size_add.
    destruct (Hoffset _ _ _ Hroot) as [->|[-> ->]].
    - assert (symbol_offset p' r = symbol_offset p3 r) as ->.
      { unfold symbol_offset. rewrite Hkept; [done|]. right.
        by destruct (Hroots _ _ _ Hroot) as [? _]. }
      rewrite wrap_add_l. f_equal. lia.
    - f_equal. lia. }
  by rewrite (Hsame o1 d1 c1), (Hsame o2 d2 c2).
Qed.
End SharedStorage.

(** ** The blocks of the resolution loop *)

Section BlockProperties.
Context (ctx : SemanticsContext).

Lemma resolveDependent_Done k e h p h' p' :
  dependents_ h !! k = Some e ->
  resolveDependent ctx k (h, p) = Done (h', p') ->
  exists r,
    Resolve (dependents_ h) e = Done r
    /\ dependents_ h !! so_symbol r = None
    /\ symbol_size p k = 0
    /\ p' = set_size k (sa_size (GetSizeAndAlignment ctx k true)) p
    /\ offset_ h' = offset_ h /\ alignment_ h' = alignment_ h
    /\ dependents_ h' = <[k := r]> (dependents_ h)
    /\ equivalenceBlock_ h'
       = <[so_symbol r :=
             let symInfo := GetSizeAndAlignment ctx k true in
             let minBlockSize := size_add (so_offset r) (sa_size symInfo) in
             match equivalenceBlock_ h !! so_symbol r with
             | None => mkSizeAndAlignment minBlockSize (sa_alignment symInfo)
             | Some blockInfo =>
                 mkSizeAndAlignment (Z.max (sa_size blockInfo) minBlockSize)
                   (Z.max (sa_alignment blockInfo) (sa_alignment symInfo))
             end]> (equivalenceBlock_ h).
Proof.
  intros He. unfold resolveDependent. rewrite He.
  destruct (Resolve (dependents_ h) e) as [r|] eqn:Hr; [|done].
  cbn [mbind Result_bind]. case_decide as Hsize; [|done].
  intros [= <- <-]. exists r. split; [done|].
  split; [by eapply Resolve_fuel_Done_root|]. by repeat split.
Qed.

Lemma resolveDependent_None k h p :
  dependents_ h !! k = None -> resolveDependent ctx k (h, p) = Done (h, p).
Proof. intros He. unfold resolveDependent. by rewrite He. Qed.

Lemma resolveDependents_covered ks resolved h p h' p' :
  NoDup ks -> (forall k, k ∈ ks -> k ∉ resolved) ->
  Covered ctx resolved h p -> Tight ctx resolved h p ->
  forEach (resolveDependent ctx) ks (h, p) = Done (h', p') ->
  Covered ctx (resolved ++ filter (fun k => is_Some (dependents_ h !! k)) ks)
    h' p'
  /\ Tight ctx (resolved ++ filter (fun k => is_Some (dependents_ h !! k)) ks)
       h' p'
  /\ dom (dependents_ h') = dom (dependents_ h)
  /\ offset_ h' = offset_ h /\ alignment_ h' = alignment_ h
  /\ (forall s, s ∉ ks \/ dependents_ h !! s = None ->
        symbolState p' s = symbolState p s)
  /\ messages p' = messages p /\ commonBlocks p' = commonBlocks p
  /\ mappedCommonBlocks p' = mappedCommonBlocks p.
Proof.
  revert resolved h p.
  induction ks as [|k ks IH]; intros resolved h p Hnodup Hfresh Hcovered Htight.
  { intros [= <- <-]. cbn [filter list_filter]. rewrite app_nil_r.
    split; [done|]. split; [done|]. by repeat (split; [done|]). }
  apply NoDup_cons in Hnodup as [Hk Hnodup]. cbn [forEach].
  destruct (dependents_ h !! k) as [e|] eqn:He.
  2:{ rewrite resolveDependent_None by done. cbn [mbind Result_bind].
      intros Hrest. rewrite filter_cons_False by (rewrite He; by intros [? ?]).
      destruct (IH resolved h p Hnodup) with (4 := Hrest)
        as (? & ? & ? & ? & ? & Hframe & ?); try done.
      { intros j Hj. apply Hfresh. by right. }
      repeat (split; [done|]). split; [|done].
      intros s [Hs|Hs]; apply Hframe; [left|by right].
      intros Hin. apply Hs. by right. }
  destruct (resolveDependent ctx k (h, p)) as [[h1 p1]|] eqn:Hstep; [|done].
  cbn [mbind Result_bind]. intros Hrest.
  destruct (resolveDependent_Done k e h p h1 p1 He Hstep)
    as (r & Hr & Hroot & Hsize & -> & Hoffset & Halign & Hd1 & Hb1).
  cbv zeta in Hb1.
  set (bytes := sa_size (GetSizeAndAlignment ctx k true)) in *.
  set (alignment := sa_alignment (GetSizeAndAlignment ctx k true)) in *.
  set (p1 := set_size k bytes p) in *.
  assert (so_symbol r ≠ k) as Hrk by (intros Heq; congruence).
  assert (forall j, j ≠ k -> symbol_size p1 j = symbol_size p j) as Hsizes.
  { intros j Hj. unfold symbol_size, p1.
    by rewrite symbolState_set_size, decide_False. }
  assert (symbol_size p1 k = bytes) as Hsizek.
  { unfold symbol_size, p1. by rewrite symbolState_set_size, decide_True. }
  assert (Covered ctx (resolved ++ [k]) h1 p1) as Hcovered1.
  { intros j ej Hj Hej. rewrite Hd1 in Hej |- *.
    apply elem_of_app in Hj as [Hj|Hj].
    - assert (j ≠ k) as Hjk by (intros ->; by apply (Hfresh k); [left|]).
      rewrite lookup_insert_ne in Hej by done.
      destruct (Hcovered j ej Hj Hej) as (Hbase & Hsizej & block & Hblock
                                          & Hreach & Halignj).
      assert (so_symbol ej ≠ k) as Hne by (intros Heq; congruence).
      rewrite lookup_insert_ne, Hsizes by done.
      split; [done|]. split; [done|]. rewrite Hb1.
      destruct (decide (so_symbol r = so_symbol ej)) as [Heq|Hne'].
      + rewrite Heq, lookup_insert_eq, Hblock.
        eexists. split; [done|]. simpl. lia.
      + rewrite lookup_insert_ne by done. by exists block.
    - apply list_elem_of_singleton in Hj as ->.
      rewrite lookup_insert_eq in Hej. injection Hej as <-.
      rewrite lookup_insert_ne, Hsizek by done.
      split; [done|]. split; [done|]. rewrite Hb1, lookup_insert_eq.
      eexists. split; [done|].
      destruct (equivalenceBlock_ h !! so_symbol r); simpl; lia. }
  assert (Tight ctx (resolved ++ [k]) h1 p1) as Htight1.
  { intros b block. rewrite Hb1, Hd1.
    assert (forall j ej, j ∈ resolved -> dependents_ h !! j = Some ej ->
              j ∈ resolved ++ [k]
              /\ <[k := r]> (dependents_ h) !! j = Some ej
              /\ symbol_size p1 j = symbol_size p j) as Hold.
    { intros j ej Hj Hej.
      assert (j ≠ k) as Hjk by (intros ->; by apply (Hfresh k); [left|]).
      split; [apply elem_of_app; by left|].
      by rewrite lookup_insert_ne, Hsizes. }
    assert (k ∈ resolved ++ [k]) as Hkin
      by (apply elem_of_app; right; by apply list_elem_of_singleton).
    destruct (decide (so_symbol r = b)) as [<-|Hne].
    - rewrite lookup_insert_eq, lookup_insert_ne by done.
      intros [= <-]. split; [done|].
      destruct (equivalenceBlock_ h !! so_symbol r) as [old|] eqn:Hblock.
      + destruct (Htight _ _ Hblock)
          as (_ & (k1 & e1 & Hk1 & He1 & Hb & Hs1)
              & (k2 & e2 & Hk2 & He2 & Hb2 & Ha2)).
        destruct (Hold k1 e1 Hk1 He1) as (? & ? & Hz1).
        destruct (Hold k2 e2 Hk2 He2) as (? & ? & Hz2).
        split.
        * destruct (Z.max_spec (sa_size old) (size_add (so_offset r) bytes))
            as [[_ Hmax]|[_ Hmax]]; simpl; rewrite Hmax.
          -- exists k, r. by rewrite lookup_insert_eq, Hsizek.
          -- exists k1, e1. by rewrite Hz1.
        * destruct (Z.max_spec (sa_alignment old) alignment)
            as [[_ Hmax]|[_ Hmax]]; simpl; rewrite Hmax.
          -- exists k, r. by rewrite lookup_insert_eq.
          -- by exists k2, e2.
      + split; exists k, r; by rewrite lookup_insert_eq, ?Hsizek.
    - rewrite lookup_insert_ne by done. intros Hblock.
      destruct (Htight _ _ Hblock)
        as (Hb & (k1 & e1 & Hk1 & He1 & Hb1' & Hs1)
            & (k2 & e2 & Hk2 & He2 & Hb2 & Ha2)).
      destruct (Hold k1 e1 Hk1 He1) as (? & ? & Hz1).
      destruct (Hold k2 e2 Hk2 He2) as (? & ? & Hz2).
      split.
      { rewrite lookup_insert_ne; [done|]. intros <-. congruence. }
      split; [exists k1, e1; by rewrite Hz1|by exists k2, e2]. }
  destruct (IH (resolved ++ [k]) h1 p1 Hnodup) with (4 := Hrest)
    as (Hc & Ht & Hdom & Ho & Ha & Hframe & Hsaid & Hcommon & Hmapped);
    try done.
  { intros j Hj Hin. apply elem_of_app in Hin as [Hin|Hin].
    - by apply (Hfresh j); [right|].
    - apply list_elem_of_singleton in Hin as ->. done. }
  assert (filter (fun j => is_Some (dependents_ h1 !! j)) ks
          = filter (fun j => is_Some (dependents_ h !! j)) ks) as Hfilter.
  { apply list_filter_iff. intros j. rewrite Hd1.
    destruct (decide (j = k)) as [->|Hjk].
    - rewrite lookup_insert_eq, He. split; by eexists.
    - by rewrite lookup_insert_ne. }
  rewrite Hfilter, <- app_assoc in Hc, Ht.
  rewrite filter_cons_True by (by rewrite He).
  split; [done|]. split; [done|].
  split.
  { rewrite Hdom, Hd1. apply dom_insert_lookup_L. by rewrite He. }
  split; [congruence|]. split; [congruence|].
  split; [|done].
  intros s [Hs|Hs].
  - rewrite Hframe by (left; intros Hin; apply Hs; by right).
    unfold p1. rewrite symbolState_set_size, decide_False; [done|].
    intros ->. apply Hs. left.
  - assert (s ≠ k) as Hsk by congruence.
    rewrite Hframe by (right; by rewrite Hd1, lookup_insert_ne).
    unfold p1. by rewrite symbolState_set_size, decide_False.
Qed.

Lemma filter_orderedKeys {A} (m : gmap nat A) :
  filter (fun k => is_Some (m !! k)) (orderedKeys m) = orderedKeys m.
Proof.
  assert (forall l : list nat,
            (forall k, k ∈ l -> is_Some (m !! k)) ->
            filter (fun k => is_Some (m !! k)) l = l) as Hall.
  { induction l as [|k l IH]; intros Hl; [done|].
    rewrite filter_cons_True by (apply Hl; left).
    f_equal. apply IH. intros j Hj. apply Hl. by right. }
  apply Hall. intros k. apply orderedKeys_elem_of.
Qed.

(** X14: the loop of [Compute] that resolves [dependents_], entered without
    blocks: afterwards every entry leads to a symbol without entry, every
    dependent symbol has its size, and the block of its base reaches the end
    of the symbol and has at least its alignment; there are no other blocks,
    and the size and the alignment of a block are those one of its
    dependents asks for.  Symbols without entry are as before. *)
Theorem resolveDependents_blocks h p h' p' :
  equivalenceBlock_ h = ∅ ->
  forEach (resolveDependent ctx) (orderedKeys (dependents_ h)) (h, p)
  = Done (h', p') ->
  Covered ctx (orderedKeys (dependents_ h')) h' p'
  /\ Tight ctx (orderedKeys (dependents_ h')) h' p'
  /\ (forall s, dependents_ h !! s = None ->
        symbolState p' s = symbolState p s).
Proof.
  intros Hblocks Hloop.
  destruct (resolveDependents_covered (orderedKeys (dependents_ h)) [] h p
              h' p' (orderedKeys_NoDup _))
    as (Hcovered & Htight & Hdom & _ & _ & Hframe & _); try done.
  { intros k _ Hk. by apply elem_of_nil in Hk. }
  { intros k e Hk. by apply elem_of_nil in Hk. }
  { intros r block. by rewrite Hblocks, lookup_empty. }
  rewrite filter_orderedKeys, app_nil_l in Hcovered, Htight.
  assert (orderedKeys (dependents_ h') = orderedKeys (dependents_ h)) as ->
    by (unfold orderedKeys; by rewrite Hdom).
  split; [done|]. split; [done|]. intros s Hs. apply Hframe. by right.
Qed.
End BlockProperties.

(** ** COMMON blocks and their EQUIVALENCE bases *)

Section CommonErrorProperties.
Context (ctx : SemanticsContext).

(** X15: an object of a COMMON block whose EQUIVALENCE base is itself in a
    COMMON block.  The base is not moved and no block is extended.  When
    the base is in another COMMON block, the error of F'2023 8.10.3 p1 is
    said; when it is in the same block, an error is said unless the base
    was met before in this block at the offset the EQUIVALENCE asks for. *)
Theorem DoCommonBlock_base_in_common commonBlock st symbol dep padding h p
    baseBlock :
  DoSymbol ctx (GetUltimate (symbolInfo ctx symbol)) None
    (cl_helper st) (cl_program st) = (padding, h, p) ->
  let p1 :=
    if decide (padding = 0) then p
    else Say (WarnCommonBlockPadding (errorSite ctx commonBlock symbol)
                (cb_name (commonBlockInfo ctx commonBlock)) padding
                (sym_name (symbolInfo ctx symbol))) p in
  let base := so_symbol dep in
  dependents_ (cl_helper st) !! symbol = Some dep ->
  FindCommonBlockContaining ctx p1 base = Some baseBlock ->
  exists st',
    DoCommonBlock_object ctx commonBlock st symbol = Done st'
    /\ cl_helper st' = h
    /\ previous st' = previous st ∪ {[symbol]}
    /\ minSize st' = minSize st /\ minAlignment st' = minAlignment st
    /\ symbols (cl_program st') = symbols p1
    /\ messages (cl_program st')
       = messages p1
         ++ (if decide (baseBlock = commonBlock) then
               if decide (base ∉ previous st ∪ {[symbol]}
                          \/ symbol_offset p1 base
                             ≠ size_sub (symbol_offset p1 symbol)
                                 (so_offset dep))
               then [ErrStorageAssociatedElsewhere
                       (errorSite ctx commonBlock symbol)
                       (sym_name (symbolInfo ctx symbol))
                       (sym_name (symbolInfo ctx base))
                       (cb_name (commonBlockInfo ctx commonBlock))]
               else []
             else [ErrAssociatedAcrossBlocks
                     (errorSite ctx commonBlock symbol)
                     (sym_name (symbolInfo ctx symbol))
                     (cb_name (commonBlockInfo ctx commonBlock))
                     (sym_name (symbolInfo ctx base))
                     (cb_name (commonBlockInfo ctx baseBlock))]).
Proof.
  intros Hsym p1 base Hdep Hfound.
  pose proof (DoSymbol_dependents ctx (GetUltimate (symbolInfo ctx symbol))
                None (cl_helper st) (cl_program st)) as (Hd & _).
  rewrite Hsym in Hd. simpl in Hd.
  unfold DoCommonBlock_object. rewrite Hsym.
  fold (errorSite ctx commonBlock symbol). fold p1.
  rewrite Hd, Hdep. fold base. rewrite Hfound.
  unfold foldEquivalenceBlock.
  repeat case_decide; cbn [mbind Result_bind option_bind];
    eexists; (split; [reflexivity|]); cbn [cl_helper cl_program previous
      minSize minAlignment Say symbols messages];
    repeat split; by rewrite ?app_nil_r.
Qed.
End CommonErrorProperties.

Section CommonBlocksProperties.
Context (ctx : SemanticsContext).

Lemma sameBlocks_trans p q r : sameBlocks p q -> sameBlocks q r -> sameBlocks p r.
Proof. intros [? ?] [? ?]. split; congruence. Qed.

Lemma forEach_sameBlocks {A} (f : A -> Helper * Program -> Result (Helper * Program))
    (items : list A) st st' :
  (forall x st st', f x st = Done st' -> sameBlocks st'.2 st.2) ->
  forEach f items st = Done st' -> sameBlocks st'.2 st.2.
Proof.
  intros Hf. revert st. induction items as [|x rest IH]; intros st.
  - by intros [= <-].
  - cbn [forEach]. destruct (f x st) as [st1|] eqn:H1; [|done].
    cbn [mbind Result_bind]. intros Hrest.
    eapply sameBlocks_trans; [by apply IH|by eapply Hf].
Qed.

Lemma foldl_sameBlocks {A} (f : Helper * Program -> A -> Helper * Program)
    (items : list A) st :
  (forall st x, sameBlocks (f st x).2 st.2) ->
  sameBlocks (foldl f st items).2 st.2.
Proof.
  intros Hf. revert st. induction items as [|x rest IH]; intros st; [done|].
  cbn [foldl]. eapply sameBlocks_trans; [apply IH|apply Hf].
Qed.

Lemma DoSymbol_sameBlocks symbol align h p :
  sameBlocks (DoSymbol ctx symbol align h p).2 p.
Proof.
  pose proof (DoSymbol_dependents ctx symbol align h p) as (_ & _ & _ & ? & ?).
  done.
Qed.

Lemma DoEquivalenceSet_sameBlocks set st st' :
  (let '(h, p) := st in DoEquivalenceSet ctx set h p) = Done st' ->
  sameBlocks st'.2 st.2.
Proof.
  destruct st as [h p], st' as [h' p']. intros Hdone.
  apply DoEquivalenceSet_Done in Hdone
    as (? & ? & ? & _ & _ & _ & _ & _ & _ & _ & _ & ? & ?).
  done.
Qed.

Lemma resolveDependent_sameBlocks k st st' :
  resolveDependent ctx k st = Done st' -> sameBlocks st'.2 st.2.
Proof.
  destruct st as [h p]. unfold resolveDependent.
  destruct (dependents_ h !! k); [|by intros [= <-]].
  destruct (Resolve (dependents_ h) s); [|done]. cbn [mbind Result_bind].
  case_decide; [|done]. by intros [= <-].
Qed.

Lemma placeEquivalenceBlock_sameBlocks symbol st :
  sameBlocks (placeEquivalenceBlock ctx symbol st).2 st.2.
Proof.
  destruct st as [h p]. unfold placeEquivalenceBlock.
  destruct (equivalenceBlock_ h !! symbol); [|done].
  destruct (FindCommonBlockContaining ctx p symbol); [done|].
  pose proof (DoSymbol_sameBlocks symbol None h p).
  by destruct (DoSymbol ctx symbol None h p) as [[padding h'] p'].
Qed.

Lemma placeSymbol_sameBlocks scopeSymbols symbol st :
  sameBlocks (placeSymbol ctx scopeSymbols symbol st).2 st.2.
Proof.
  destruct st as [h p]. unfold placeSymbol.
  destruct (FindCommonBlockContaining ctx p symbol); [done|].
  destruct (dependents_ h !! symbol); [done|].
  destruct (equivalenceBlock_ h !! symbol); [done|].
  pose proof (DoSymbol_sameBlocks symbol
                (if targetIsAIX ctx
                 then HasSpecialAlign ctx symbol scopeSymbols else None) h p)
    as Hfirst.
  destruct (DoSymbol ctx symbol _ h p) as [[padding h'] p'].
  destruct (genericSpecific _) as [[specific|]|]; try done.
  destruct (FindCommonBlockContaining ctx p' specific); [done|].
  pose proof (DoSymbol_sameBlocks specific None h' p') as Hsecond.
  destruct (DoSymbol ctx specific None h' p') as [[padding' h''] p''].
  by eapply sameBlocks_trans.
Qed.

Lemma commitDependent_sameBlocks k st st' :
  commitDependent ctx k st = Done st' -> sameBlocks st'.2 st.2.
Proof.
  destruct st as [h p]. unfold commitDependent.
  destruct (dependents_ h !! k); [|by intros [= <-]].
  destruct (FindCommonBlockContaining ctx _ _); [|by intros [= <-]].
  destruct (hasObjectEntityDetails _); [|done]. by intros [= <-].
Qed.

Lemma DoCommonBlock_object_sameBlocks commonBlock st symbol st' :
  DoCommonBlock_object ctx commonBlock st symbol = Done st' ->
  sameBlocks (cl_program st') (cl_program st).
Proof.
  unfold DoCommonBlock_object.
  pose proof (DoSymbol_sameBlocks (GetUltimate (symbolInfo ctx symbol)) None
                (cl_helper st) (cl_program st)) as Hplaced.
  destruct (DoSymbol ctx _ None (cl_helper st) (cl_program st))
    as [[padding h] p]. destruct Hplaced as [Hcommon Hmapped].
  simpl in Hcommon, Hmapped.
  set (p1 := if decide (padding = 0) then p else Say _ p).
  assert (commonBlocks p1 = commonBlocks (cl_program st)
          /\ mappedCommonBlocks p1 = mappedCommonBlocks (cl_program st))
    as [Hcommon1 Hmapped1] by (unfold p1; by case_decide).
  clearbody p1.
  destruct (dependents_ h !! symbol) as [dep|].
  - destruct (FindCommonBlockContaining ctx p1 (so_symbol dep)) as [block|].
    + repeat case_decide; cbn [mbind Result_bind];
        destruct (foldEquivalenceBlock _ _ _ _ _); intros [= <-];
        by split.
    + case_decide; cbn [mbind Result_bind].
      * destruct (foldEquivalenceBlock _ _ _ _ _). intros [= <-]. by split.
      * destruct (hasObjectEntityDetails _); [|done].
        cbn [mbind Result_bind].
        destruct (foldEquivalenceBlock _ _ _ _ _). intros [= <-]. by split.
  - destruct (equivalenceBlock_ h !! symbol); cbn [mbind Result_bind];
      destruct (foldEquivalenceBlock _ _ _ _ _); intros [= <-]; by split.
Qed.

Lemma DoCommonBlock_objects_sameBlocks commonBlock objects st st' :
  DoCommonBlock_objects ctx commonBlock objects st = Done st' ->
  sameBlocks (cl_program st') (cl_program st).
Proof.
  revert st. induction objects as [|object rest IH]; intros st.
  - by intros [= <-].
  - cbn [DoCommonBlock_objects].
    destruct (DoCommonBlock_object ctx commonBlock st object) as [st1|] eqn:H1;
      [|done].
    cbn [mbind Result_bind]. intros Hrest.
    eapply sameBlocks_trans; [by apply IH|].
    by eapply DoCommonBlock_object_sameBlocks.
Qed.

Lemma DoCommonBlock_blocks commonBlock h p h' p' :
  DoCommonBlock ctx commonBlock h p = Done (h', p') ->
  mappedCommonBlocks p' = mappedCommonBlocks p ++ [commonBlock]
  /\ is_Some (commonBlocks p' !! commonBlock)
  /\ forall c, c ≠ commonBlock -> commonBlocks p' !! c = commonBlocks p !! c.
Proof.
  unfold DoCommonBlock.
  destruct (DoCommonBlock_objects ctx commonBlock _ _) as [st'|] eqn:Hobjects;
    [|done].
  cbn [mbind Result_bind]. intros [= _ <-].
  destruct (DoCommonBlock_objects_sameBlocks _ _ _ _ Hobjects)
    as [Hcommon Hmapped].
  cbn [cl_program] in *. simpl. rewrite Hcommon, Hmapped.
  split; [done|]. split; [by rewrite lookup_insert_eq|].
  intros c Hc. by rewrite lookup_insert_ne.
Qed.

Lemma DoCommonBlocks_blocks (blocks : list (string * nat)) h p h' p' :
  forEach (fun pair '(h, p) => DoCommonBlock ctx pair.2 h p) blocks (h, p)
  = Done (h', p') ->
  mappedCommonBlocks p' = mappedCommonBlocks p ++ (snd <$> blocks)
  /\ (forall c, c ∈ snd <$> blocks -> is_Some (commonBlocks p' !! c))
  /\ (forall c, c ∉ snd <$> blocks ->
        commonBlocks p' !! c = commonBlocks p !! c).
Proof.
  revert h p. induction blocks as [|block rest IH]; intros h p.
  - intros [= <- <-]. rewrite app_nil_r. split; [done|]. split; [|done].
    intros c Hc. by apply elem_of_nil in Hc.
  - cbn [forEach].
    destruct (DoCommonBlock ctx block.2 h p) as [[h1 p1]|] eqn:H1; [|done].
    cbn [mbind Result_bind]. intros Hrest.
    destruct (DoCommonBlock_blocks _ _ _ _ _ H1) as (Hm1 & Hs1 & Hf1).
    destruct (IH _ _ Hrest) as (Hm & Hs & Hf).
    rewrite fmap_cons. split; [|split].
    + rewrite Hm, Hm1, <- app_assoc. done.
    + intros c Hc. destruct (decide (c ∈ snd <$> rest)) as [Hin|Hout].
      * by apply Hs.
      * rewrite Hf by done. apply elem_of_cons in Hc as [->|Hc]; done.
    + intros c Hc. rewrite Hf by (intros Hin; apply Hc; by right).
      apply Hf1. intros ->. apply Hc. left.
Qed.

(** X16: the COMMON blocks of a scope are laid out, each once and in their
    order, and handed to the context, unless the scope is a BLOCK construct;
    [Compute] touches no other COMMON block, and none at all in a BLOCK
    construct. *)
Theorem Compute_maps_common_blocks scope p children p1 scope' p' :
  returnsEarly scope = false ->
  ComputeChildren ctx (scope_children scope) p = Done (children, p1) ->
  Compute ctx scope p = Done (scope', p') ->
  let laidOut :=
    if decide (scope_kind scope = BlockConstruct) then []
    else snd <$> scope_commonBlocks scope in
  mappedCommonBlocks p' = mappedCommonBlocks p1 ++ laidOut
  /\ (forall c, c ∈ laidOut -> is_Some (commonBlocks p' !! c))
  /\ (forall c, c ∉ laidOut -> commonBlocks p' !! c = commonBlocks p1 !! c).
Proof.
  intros Hlate Hchildren. rewrite Compute_lays_out, Hchildren by done.
  cbn [mbind Result_bind]. rewrite layoutScope_placeAndCommit.
  destruct (DoEquivalenceSets ctx _ (newHelper, p1)) as [[h1 q1]|] eqn:Hsets;
    [|done].
  apply (forEach_sameBlocks
           (fun set '(h, p) => DoEquivalenceSet ctx set h p)) in Hsets
    as Hb1; [|intros; by eapply DoEquivalenceSet_sameBlocks].
  cbn [mbind Result_bind fst].
  destruct (forEach (resolveDependent ctx) _ (h1, q1)) as [[h2 q2]|] eqn:Hpass;
    [|done].
  apply forEach_sameBlocks in Hpass as Hb2;
    [|intros; by eapply resolveDependent_sameBlocks].
  cbn [mbind Result_bind]. unfold placeAndCommit. cbn [fst].
  set (st3 := foldl _ (h2, q2) _).
  pose proof (foldl_sameBlocks
                (fun st symbol => placeEquivalenceBlock ctx symbol st)
                (orderedKeys (equivalenceBlock_ h2)) (h2, q2)
                (fun st x => placeEquivalenceBlock_sameBlocks x st)) as Hb3.
  fold st3 in Hb3.
  pose proof (foldl_sameBlocks
                (fun st symbol =>
                   placeSymbol ctx
                     (scope_symbols (with_children children scope)) symbol st)
                (scope_symbols (with_children children scope)) st3
                (fun st x => placeSymbol_sameBlocks _ x st)) as Hb4.
  destruct (foldl _ st3 _) as [h4 q4].
  set (h5 := with_offset_ _ h4).
  assert (sameBlocks q4 p1) as [Hcommon Hmapped].
  { eapply sameBlocks_trans; [exact Hb4|].
    eapply sameBlocks_trans; [exact Hb3|].
    eapply sameBlocks_trans; [exact Hb2|exact Hb1]. }
  change (scope_kind (with_layout _ _ (with_children children scope)))
    with (scope_kind scope).
  change (scope_commonBlocks (with_layout _ _ (with_children children scope)))
    with (scope_commonBlocks scope).
  destruct (decide (scope_kind scope = BlockConstruct)) as [Hblock|Hblock].
  - cbn [mbind Result_bind fst].
    destruct (forEach (commitDependent ctx) _ (h5, q4)) as [[h6 q6]|] eqn:Hlast;
      [|done].
    apply forEach_sameBlocks in Hlast as [Hc6 Hm6];
      [|intros; by eapply commitDependent_sameBlocks].
    cbn [mbind Result_bind snd] in *. intros [= _ <-].
    rewrite app_nil_r. split; [congruence|]. split; [|intros; congruence].
    intros c Hc. by apply elem_of_nil in Hc.
  - destruct (forEach _ (scope_commonBlocks scope) (h5, q4))
      as [[h6 q6]|] eqn:Hblocks; [|done].
    apply DoCommonBlocks_blocks in Hblocks as (Hm6 & Hs6 & Hf6).
    cbn [mbind Result_bind fst].
    destruct (forEach (commitDependent ctx) _ (h6, q6)) as [[h7 q7]|] eqn:Hlast;
      [|done].
    apply forEach_sameBlocks in Hlast as [Hc7 Hm7];
      [|intros; by eapply commitDependent_sameBlocks].
    cbn [mbind Result_bind snd] in *. intros [= _ <-].
    rewrite Hc7, Hm7, Hm6, Hmapped. split; [done|]. split; [done|].
    intros c Hc. by rewrite Hf6, Hcommon.
Qed.
End CommonBlocksProperties.

(** ** Placing EQUIVALENCE blocks *)

Section BlockPlacementProperties.
Context (ctx : SemanticsContext).


Lemma DoSymbol_alignment symbol align h p :
  alignment_ h <= alignment_ (DoSymbol ctx symbol align h p).1.2.
Proof.
  destruct (occupiesStorage ctx symbol) eqn:Hoccupies.
  - rewrite DoSymbol_occupies by done. simpl. lia.
  - rewrite DoSymbol_skips by done. simpl. lia.
Qed.

Lemma placeEquivalenceBlock_alignment symbol st :
  alignment_ st.1 <= alignment_ (placeEquivalenceBlock ctx symbol st).1.
Proof.
  destruct st as [h p]. unfold placeEquivalenceBlock.
  destruct (equivalenceBlock_ h !! symbol); [|done].
  destruct (FindCommonBlockContaining ctx p symbol); [done|].
  pose proof (DoSymbol_alignment symbol None h p).
  by destruct (DoSymbol ctx symbol None h p) as [[padding h'] p'].
Qed.

Lemma placeSymbol_alignment scopeSymbols symbol st :
  alignment_ st.1 <= alignment_ (placeSymbol ctx scopeSymbols symbol st).1.
Proof.
  destruct st as [h p]. unfold placeSymbol.
  destruct (FindCommonBlockContaining ctx p symbol); [done|].
  destruct (dependents_ h !! symbol); [done|].
  destruct (equivalenceBlock_ h !! symbol); [done|].
  pose proof (DoSymbol_alignment symbol
                (if targetIsAIX ctx
                 then HasSpecialAlign ctx symbol scopeSymbols else None) h p)
    as Hfirst.
  destruct (DoSymbol ctx symbol _ h p) as [[padding h'] p'].
  destruct (genericSpecific _) as [[specific|]|]; try done.
  destruct (FindCommonBlockContaining ctx p' specific); [done|].
  pose proof (DoSymbol_alignment specific None h' p') as Hsecond.
  destruct (DoSymbol ctx specific None h' p') as [[padding' h''] p''].
  simpl in *. lia.
Qed.

Lemma foldl_alignment {A} (f : Helper * Program -> A -> Helper * Program)
    (items : list A) st :
  (forall st x, alignment_ st.1 <= alignment_ (f st x).1) ->
  alignment_ st.1 <= alignment_ (foldl f st items).1.
Proof.
  intros Hf. revert st. induction items as [|x rest IH]; intros st; [done|].
  cbn [foldl]. etrans; [apply Hf|apply IH].
Qed.

Lemma forEach_alignment {A}
    (f : A -> Helper * Program -> Result (Helper * Program))
    (items : list A) st st' :
  (forall x st st', f x st = Done st' -> alignment_ st'.1 = alignment_ st.1) ->
  forEach f items st = Done st' -> alignment_ st'.1 = alignment_ st.1.
Proof.
  intros Hf. revert st. induction items as [|x rest IH]; intros st.
  - by intros [= <-].
  - cbn [forEach]. destruct (f x st) as [st1|] eqn:H1; [|done].
    cbn [mbind Result_bind]. intros Hrest.
    rewrite (IH _ Hrest). by eapply Hf.
Qed.

(** X18: a scope that [Compute] lays out gets an alignment of at least 1:
    the 0 set at the start does not remain. *)
Theorem Compute_alignment_positive scope p scope' p' :
  returnsEarly scope = false ->
  Compute ctx scope p = Done (scope', p') ->
  exists alignment, scope_alignment scope' = Some alignment /\ 1 <= alignment.
Proof.
  intros Hlate. rewrite Compute_lays_out by done.
  destruct (ComputeChildren ctx (scope_children scope) p)
    as [[children p1]|]; [|done].
  cbn [mbind Result_bind]. rewrite layoutScope_placeAndCommit.
  destruct (DoEquivalenceSets ctx _ (newHelper, p1)) as [[h1 q1]|] eqn:Hsets;
    [|done].
  apply (forEach_alignment
           (fun set '(h, p) => DoEquivalenceSet ctx set h p)) in Hsets as Ha1.
  2:{ intros set [h q] [h' q'] Hdone.
      apply DoEquivalenceSet_Done in Hdone
        as (? & ? & ? & _ & _ & _ & _ & _ & ? & _). done. }
  cbn [mbind Result_bind fst].
  destruct (forEach (resolveDependent ctx) _ (h1, q1)) as [[h2 q2]|] eqn:Hpass;
    [|done].
  apply forEach_alignment in Hpass as Ha2.
  2:{ intros k [h q] [h' q'] Hdone. cbn [fst].
      destruct (dependents_ h !! k) as [e|] eqn:He.
      - by destruct (resolveDependent_Done ctx k e h q h' q' He Hdone)
          as (? & _ & _ & _ & _ & _ & ? & _).
      - rewrite resolveDependent_None in Hdone by done.
        by injection Hdone as <- _. }
  cbn [mbind Result_bind fst] in *. unfold placeAndCommit. cbn [fst].
  set (st3 := foldl _ (h2, q2) _).
  pose proof (foldl_alignment
                (fun st symbol => placeEquivalenceBlock ctx symbol st)
                (orderedKeys (equivalenceBlock_ h2)) (h2, q2)
                (fun st x => placeEquivalenceBlock_alignment x st)) as Ha3.
  fold st3 in Ha3.
  pose proof (foldl_alignment
                (fun st symbol =>
                   placeSymbol ctx
                     (scope_symbols (with_children children scope)) symbol st)
                (scope_symbols (with_children children scope)) st3
                (fun st x => placeSymbol_alignment _ x st)) as Ha4.
  destruct (foldl _ st3 _) as [h4 q4]. cbn [fst] in *.
  destruct (if decide _ then _ else _) as [st5|]; [|done].
  cbn [mbind Result_bind].
  destruct (forEach (commitDependent ctx) _ st5) as [[h6 q6]|]; [|done].
  cbn [mbind Result_bind]. intros [= <- _].
  exists (alignment_ h4). split; [done|].
  change (alignment_ newHelper) with 1 in Ha1. lia.
Qed.
End BlockPlacementProperties.

Section SatisfiableProperties.
Context (ctx : SemanticsContext).

(** X19: equivalence sets that can be satisfied are recorded without a
    message: the program is as before, [dependents_] has no cycle, every
    edge holds the distance between its symbol and its base in the
    placement, and the symbols of the objects of a set all lead to one
    symbol. *)
Theorem DoEquivalenceSets_satisfiable addr sets p :
  Satisfied ctx addr sets -> (forall set, set ∈ sets -> set ≠ []) ->
  exists h',
    DoEquivalenceSets ctx sets (newHelper, p) = Done (h', p)
    /\ Acyclic (dependents_ h')
    /\ (forall k e, dependents_ h' !! k = Some e ->
          so_offset e = addr k - addr (so_symbol e) /\ 0 <= so_offset e)
    /\ (forall set o1 o2, set ∈ sets -> o1 ∈ set -> o2 ∈ set ->
          exists r d1 d2,
            RootAt (dependents_ h') (eo_symbol o1) r d1
            /\ RootAt (dependents_ h') (eo_symbol o2) r d2).
Proof.
  intros Hsatisfied Hnonempty.
  destruct (DoEquivalenceSets_Consistent ctx addr sets Hsatisfied sets
              newHelper p [])
    as (h' & Hrun & _ & _ & _ & [Hacyclic Hedges] & Hjoined).
  { intros set Hset. split; [done|by apply Hnonempty]. }
  { apply Consistent_empty. }
  { apply Joined_nil. }
  exists h'. split; [done|]. split; [done|]. split.
  - intros k e He. by destruct (Hedges k e He) as (_ & _ & ? & ? & _).
  - intros set o1 o2 Hset Ho1 Ho2. rewrite app_nil_r in Hjoined.
    destruct (Hjoined set Hset) as [r Hr].
    destruct (Hr o1 Ho1) as [d1 H1]. destruct (Hr o2 Ho2) as [d2 H2].
    by exists r, d1, d2.
Qed.
End SatisfiableProperties.

(** ** Examples *)

Lemma DoEquivalenceSet_single_witness :
  DoEquivalenceSet Sample.arrays [Sample.element 1 "a(3)" [3]] newHelper
    Sample.emptyProgram
  = Done (newHelper, Sample.emptyProgram).
Proof.
  apply (DoEquivalenceSet_single Sample.arrays).
  - apply Acyclic_empty.
  - intros _. simpl. lia.
Defined.


Lemma DoSymbol_places_witness :
  exists padding h' p',
    DoSymbol Sample.scalars 1 None (mkHelper 2 1 ∅ ∅) Sample.emptyProgram
    = (padding, h', p')
    /\ symbol_offset p' 1 = 4 /\ padding = 2 /\ offset_ h' = 8.
Proof.
  destruct (DoSymbol_places Sample.scalars 1 None (mkHelper 2 1 ∅ ∅)
              Sample.emptyProgram)
    as (padding & h' & p' & Hrun & Hoffset & _ & _ & Hpadding & _ & Hend & _).
  - reflexivity.
  - exists 2. split; [lia|reflexivity].
  - simpl. lia.
  - vm_compute. discriminate.
  - exists padding, h', p'. split; [exact Hrun|].
    split; [exact Hoffset|]. rewrite Hpadding, Hend, Hoffset.
    split; reflexivity.
Defined.



Lemma oneEdge_Direct : forall k, Direct (dependents_ Sample.oneEdge) k.
Proof.
  intros k dep Hk.
  change (dependents_ Sample.oneEdge)
    with ({[ 1%nat := mkSymbolAndOffset 2 4 (Sample.whole 1 "x") ]}
          : gmap nat SymbolAndOffset) in *.
  apply lookup_singleton_Some in Hk as [<- <-]. reflexivity.
Qed.

Lemma commitDependents_offsets_witness :
  match forEach (commitDependent Sample.scalars)
          (orderedKeys (dependents_ Sample.oneEdge))
          (Sample.oneEdge, set_offset 2 8 Sample.emptyProgram) with
  | Done (_, p') => symbol_offset p' 1 = 12 /\ symbol_offset p' 2 = 8
  | Abort _ => False
  end.
Proof.
  destruct (forEach (commitDependent Sample.scalars)
              (orderedKeys (dependents_ Sample.oneEdge))
              (Sample.oneEdge, set_offset 2 8 Sample.emptyProgram))
    as [[h' p']|] eqn:Hloop; [|vm_compute in Hloop; discriminate].
  destruct (commitDependents_offsets Sample.scalars Sample.oneEdge
              (set_offset 2 8 Sample.emptyProgram) h' p' oneEdge_Direct Hloop)
    as (_ & Hkeys & Hframe & _).
  split.
  - apply (Hkeys 1%nat (mkSymbolAndOffset 2 4 (Sample.whole 1 "x"))).
    reflexivity.
  - unfold symbol_offset. rewrite (Hframe 2%nat); reflexivity.
Defined.

Lemma tiedSets_Satisfied :
  Satisfied Sample.interleaved (fun _ => 0) Sample.tiedSets.
Proof.
  split; [done|]. intros set Hset. unfold Sample.tiedSets in Hset.
  rewrite !elem_of_cons, elem_of_nil in Hset.
  destruct Hset as [->|[->|[->|[]]]].
  - exists 0. split; [done|]. intros o Ho.
    rewrite !elem_of_cons, elem_of_nil in Ho.
    destruct Ho as [->|[->|[]]]; by exists 0.
  - exists 0. split; [done|]. intros o Ho.
    rewrite !elem_of_cons, elem_of_nil in Ho.
    destruct Ho as [->|[->|[]]]; by exists 0.
  - exists 4. split; [done|]. intros o Ho.
    rewrite !elem_of_cons, elem_of_nil in Ho.
    destruct Ho as [->|[->|[]]]; by exists 4.
Qed.

Lemma Compute_equivalenced_share_storage_witness :
  match Compute Sample.interleaved (Sample.equivalencing Sample.tiedSets)
          Sample.emptyProgram with
  | Done (_, p') =>
      size_add (symbol_offset p' 3) 4 = size_add (symbol_offset p' 1) 4
  | Abort _ => False
  end.
Proof.
  destruct (Compute Sample.interleaved (Sample.equivalencing Sample.tiedSets)
              Sample.emptyProgram) as [[scope' p']|] eqn:Hrun;
    [|vm_compute in Hrun; discriminate].
  apply (Compute_equivalenced_share_storage Sample.interleaved (fun _ => 0)
           (Sample.equivalencing Sample.tiedSets) Sample.emptyProgram
           scope' p' eq_refl tiedSets_Satisfied Hrun
           [Sample.element 3 "b(2)" [2]; Sample.element 1 "a(2)" [2]]
           (Sample.element 3 "b(2)" [2]) (Sample.element 1 "a(2)" [2])).
  - simpl. unfold Sample.tiedSets. right. right. left.
  - left.
  - right. left.
  - reflexivity.
  - reflexivity.
Defined.

Lemma resolveDependents_blocks_witness :
  match forEach (resolveDependent Sample.scalars)
          (orderedKeys (dependents_ Sample.oneEdge))
          (Sample.oneEdge, Sample.emptyProgram) with
  | Done (h', p') =>
      Covered Sample.scalars (orderedKeys (dependents_ h')) h' p'
      /\ Tight Sample.scalars (orderedKeys (dependents_ h')) h' p'
      /\ equivalenceBlock_ h' !! 2%nat = Some (mkSizeAndAlignment 8 4)
  | Abort _ => False
  end.
Proof.
  destruct (forEach (resolveDependent Sample.scalars)
              (orderedKeys (dependents_ Sample.oneEdge))
              (Sample.oneEdge, Sample.emptyProgram))
    as [[h' p']|] eqn:Hloop; [|vm_compute in Hloop; discriminate].
  destruct (resolveDependents_blocks Sample.scalars Sample.oneEdge
              Sample.emptyProgram h' p' eq_refl Hloop)
    as (Hcovered & Htight & _).
  split; [exact Hcovered|]. split; [exact Htight|].
  vm_compute in Hloop. injection Hloop as <- _. reflexivity.
Defined.

Lemma DoCommonBlock_base_in_common_witness :
  exists st',
    DoCommonBlock_object Sample.commonIntegerReal 7 Sample.acrossBlocks 3
    = Done st'
    /\ messages (cl_program st')
       = [ErrAssociatedAcrossBlocks "c" "a" "c" "b" "c"]
    /\ symbol_offset (cl_program st') 4 = 0.
Proof.
  destruct (DoCommonBlock_base_in_common Sample.commonIntegerReal 7
              Sample.acrossBlocks 3
              (mkSymbolAndOffset 4 0 (Sample.whole 3 "a")) 0
              (mkHelper 4 4
                 {[ 3%nat := mkSymbolAndOffset 4 0 (Sample.whole 3 "a") ]} ∅)
              (mkProgram {[ 3%nat := mkSymbolState 4 0 (Some 7%nat);
                            4%nat := mkSymbolState 8 0 (Some 9%nat) ]}
                 ∅ [] [])
              9)
    as (st' & Hrun & _ & _ & _ & _ & Hsymbols & Hsaid).
  - reflexivity.
  - reflexivity.
  - reflexivity.
  - exists st'. split; [exact Hrun|]. split; [exact Hsaid|].
    unfold symbol_offset, symbolState. rewrite Hsymbols. reflexivity.
Defined.

Lemma Compute_maps_common_blocks_witness :
  match Compute Sample.commonIntegerReal Sample.commonScope
          Sample.inCommonIntegerReal with
  | Done (_, p') =>
      mappedCommonBlocks p' = [7%nat] /\ is_Some (commonBlocks p' !! 7%nat)
  | Abort _ => False
  end.
Proof.
  destruct (Compute Sample.commonIntegerReal Sample.commonScope
              Sample.inCommonIntegerReal) as [[scope' p']|] eqn:Hrun;
    [|vm_compute in Hrun; discriminate].
  destruct (Compute_maps_common_blocks Sample.commonIntegerReal
              Sample.commonScope Sample.inCommonIntegerReal []
              Sample.inCommonIntegerReal scope' p' eq_refl eq_refl Hrun)
    as (Hmapped & Hlaid & _).
  split; [exact Hmapped|]. apply Hlaid. left.
Defined.

Lemma DoEquivalenceSets_satisfiable_witness :
  exists h',
    DoEquivalenceSets Sample.interleaved Sample.tiedSets
      (newHelper, Sample.emptyProgram) = Done (h', Sample.emptyProgram)
    /\ Acyclic (dependents_ h').
Proof.
  destruct (DoEquivalenceSets_satisfiable Sample.interleaved (fun _ => 0)
              Sample.tiedSets Sample.emptyProgram tiedSets_Satisfied)
    as (h' & Hrun & Hacyclic & _).
  - intros set Hset. unfold Sample.tiedSets in Hset.
    rewrite !elem_of_cons, elem_of_nil in Hset.
    destruct Hset as [->|[->|[->|[]]]]; discriminate.
  - exists h'. split; [exact Hrun|exact Hacyclic].
Defined.


Lemma Compute_alignment_positive_witness :
  match Compute Sample.scalars Sample.leafScope Sample.emptyProgram with
  | Done (scope', _) =>
      exists alignment,
        scope_alignment scope' = Some alignment /\ 1 <= alignment
  | Abort _ => False
  end.
Proof.
  destruct (Compute Sample.scalars Sample.leafScope Sample.emptyProgram)
    as [[scope' p']|] eqn:Hrun; [|vm_compute in Hrun; discriminate].
  exact (Compute_alignment_positive Sample.scalars Sample.leafScope
           Sample.emptyProgram scope' p' eq_refl Hrun).
Defined.

